(** * Markov-chain and capital-dynamics engine: a shallow embedding

    The engine (services/markov and services/wealth in the application) works
    on JavaScript numbers.  Here every number is an exact rational ([Q]),
    compared with [==]: the development states what the algorithms compute in
    exact arithmetic, which is the reading under which the engine's
    tolerances (1e-5, 1e-6, 1e-10, 0.99, 0.0001) are meaningful thresholds
    rather than rounding artefacts.  Arrays are lists; an array of arrays is a
    list of lists; loops are folds over [seq] or structural recursions on the
    number of iterations left.

    Two places use the machine's binary64 numbers (primitive floats): the
    module [Binary64] runs the linear solver on a given matrix as the
    program does, and the scan of [WealthAnyShape.findEquilibria] steps its
    loop variable in binary64, because which points it visits depends on
    how the steps of 0.1 accumulate. *)

From Stdlib Require Import QArith Qabs Qminmax Qpower Qfield.
From Stdlib Require Import List Sorted Arith Lia Lqa Bool ZArith.
From Stdlib Require Import Setoid Morphisms.
From Stdlib Require Floats.
Import ListNotations.

Open Scope Q_scope.

(** ** Types of the engine *)

Definition Vector := list Q.
Definition Matrix := list Vector.

Definition STATES_COUNT : nat := 5.

(** Strict comparison [a < b] of two numbers, as a boolean. *)
Definition Qltb (a b : Q) : bool := negb (Qle_bool b a).

(** ** Indexed maps and in-place updates *)

Fixpoint mapi_from {X Y : Type} (f : nat -> X -> Y) (k : nat) (l : list X) : list Y :=
  match l with
  | [] => []
  | x :: t => f k x :: mapi_from f (S k) t
  end.

(** [arr.map((x, i) => f(i, x))]. *)
Definition mapi {X Y : Type} (f : nat -> X -> Y) (l : list X) : list Y :=
  mapi_from f 0 l.

(** [arr[i] = v] for an index inside the array. *)
Definition setAt {X : Type} (i : nat) (v : X) (l : list X) : list X :=
  mapi (fun k x => if Nat.eqb k i then v else x) l.

(** [m[i][j]], read as 0 outside the table. *)
Definition entry (m : Matrix) (i j : nat) : Q := nth j (nth i m []) 0.

(** [m[i][j] = v]. *)
Definition setEntry (m : Matrix) (i j : nat) (v : Q) : Matrix :=
  setAt i (setAt j v (nth i m [])) m.

(** [f] applied [n] times: a [for] loop with a fixed number of rounds. *)
Fixpoint iterate {X : Type} (n : nat) (f : X -> X) (x : X) : X :=
  match n with
  | O => x
  | S k => iterate k f (f x)
  end.

(** ** Linear algebra kernel *)

(** [m.map(row => [...row])]. *)
Definition cloneMatrix (m : Matrix) : Matrix := map (fun row => map (fun x => x) row) m.

(** [row.reduce((a, b) => a + b, 0)]. *)
Definition sumQ (row : Vector) : Q := fold_left Qplus row 0.

Definition normalizeRow (row : Vector) : Vector :=
  let sum := sumQ row in
  if Qeq_bool sum 0 then row else map (fun v => v / sum) row.

(** [result[j] += v[i] * m[i][j]] for [i], [j] below [v.length]. *)
Definition multiplyVectorMatrix (v : Vector) (m : Matrix) : Vector :=
  map (fun j =>
         fold_left (fun acc i => acc + nth i v 0 * entry m i j)
                   (seq 0 (length v)) 0)
      (seq 0 (length v)).

(** *** Gaussian elimination on the augmented matrix *)

(** [1e-10]. *)
Definition pivotTolerance : Q := 0.0000000001.

(** [A.map((row, i) => [...row, b[i]])]. *)
Definition augment (A : Matrix) (b : Vector) : Matrix :=
  mapi (fun i row => row ++ [nth i b 0]) A.

(** The row below [i] with the largest absolute entry in column [i];
    the comparison is strict, so ties keep the earlier row. *)
Definition findPivot (M : Matrix) (n i : nat) : nat :=
  fold_left (fun pivotRow j =>
               if Qltb (Qabs (entry M pivotRow i)) (Qabs (entry M j i))
               then j else pivotRow)
            (seq (S i) (n - S i)) i.

(** [[M[i], M[p]] = [M[p], M[i]]]. *)
Definition swapRows (M : Matrix) (i p : nat) : Matrix :=
  mapi (fun k row =>
          if Nat.eqb k i then nth p M []
          else if Nat.eqb k p then nth i M [] else row) M.

(** [for (j = i; j <= n; j++) row[j] /= pivotVal]. *)
Definition scaleFrom (n i : nat) (pivotVal : Q) (row : Vector) : Vector :=
  mapi (fun j x => if (i <=? j)%nat && (j <=? n)%nat then x / pivotVal else x) row.

(** [factor = row[i]; for (j = i; j <= n; j++) row[j] -= factor * pivotRow[j]]. *)
Definition eliminateFrom (n i : nat) (pivotRow row : Vector) : Vector :=
  let factor := nth i row 0 in
  mapi (fun j x =>
          if (i <=? j)%nat && (j <=? n)%nat
          then x - factor * nth j pivotRow 0 else x) row.

(** One round of the outer loop on column [i]; a pivot below the tolerance
    leaves the swapped matrix as it is ([continue]). *)
Definition eliminationStep (n : nat) (M : Matrix) (i : nat) : Matrix :=
  let M1 := swapRows M i (findPivot M n i) in
  let pivotVal := entry M1 i i in
  if Qltb (Qabs pivotVal) pivotTolerance then M1
  else
    let ri := scaleFrom n i pivotVal (nth i M1 []) in
    mapi (fun k row => if Nat.eqb k i then ri else eliminateFrom n i ri row) M1.

Definition eliminate (n : nat) (M : Matrix) : Matrix :=
  fold_left (eliminationStep n) (seq 0 n) M.

Definition solveLinearSystem (A : Matrix) (b : Vector) : Vector :=
  let n := length A in
  map (fun row => nth n row 0) (eliminate n (augment A b)).

(** Whether every pivot met on columns [cols] is at least the tolerance,
    so that no round is skipped. *)
Fixpoint pivotsRegular (n : nat) (M : Matrix) (cols : list nat) : bool :=
  match cols with
  | [] => true
  | i :: rest =>
      let M1 := swapRows M i (findPivot M n i) in
      negb (Qltb (Qabs (entry M1 i i)) pivotTolerance)
      && pivotsRegular n (eliminationStep n M i) rest
  end.

Definition regularSystem (A : Matrix) (b : Vector) : bool :=
  pivotsRegular (length A) (augment A b) (seq 0 (length A)).

(** ** Stationary distribution *)

(** [A = P^T - I] with the last row replaced by ones. *)
Definition steadyStateMatrix (matrix : Matrix) : Matrix :=
  let n := length matrix in
  let A := map (fun i =>
                  map (fun j => if Nat.eqb i j then entry matrix j i - 1
                                else entry matrix j i) (seq 0 n)) (seq 0 n) in
  mapi (fun i row => if Nat.eqb i (n - 1) then map (fun _ => 1) row else row) A.

Definition steadyStateRhs (n : nat) : Vector :=
  map (fun i => if Nat.eqb i (n - 1) then 1 else 0) (seq 0 n).

Definition calculateSteadyState (matrix : Matrix) : Vector :=
  solveLinearSystem (steadyStateMatrix matrix) (steadyStateRhs (length matrix)).

(** [dist.reduce((sum, prob, index) => sum + prob * index, 0)]. *)
Definition calculateExpectedValue (dist : Vector) : Q :=
  fold_left (fun sum ip => sum + snd ip * inject_Z (Z.of_nat (fst ip)))
            (combine (seq 0 (length dist)) dist) 0.

(** ** Chain simulator *)

Definition createBaselineMatrix : Matrix :=
  map normalizeRow
    [ [0.90; 0.09; 0.01; 0.00; 0.00];
      [0.15; 0.70; 0.14; 0.01; 0.00];
      [0.01; 0.20; 0.60; 0.18; 0.01];
      [0.00; 0.05; 0.20; 0.60; 0.15];
      [0.00; 0.00; 0.10; 0.40; 0.50] ].

(** [Math.max(0, Math.min(1, v))]. *)
Definition clamp01 (v : Q) : Q := Qmax 0 (Qmin 1 v).

(** The row written by [updateMatrixProbability] when the column read
    succeeds: the edited cell takes the clamped value, the others are
    rescaled by [(1 - new) / (1 - old)] when [1 - old > 0.0001] and set to
    [(1 - new) / (length - 1)] otherwise. *)
Definition rescaleRow (row : Vector) (colIdx : nat) (oldValue newValue : Q) : Vector :=
  let row1 := setAt colIdx newValue row in
  let currentRestSum := 1 - oldValue in
  if Qltb 0.0001 currentRestSum then
    let scaleFactor := (1 - newValue) / currentRestSum in
    mapi (fun j x => if Nat.eqb j colIdx then x else x * scaleFactor) row1
  else
    let remainder := 1 - newValue in
    let targets := (Z.of_nat (length row1) - 1)%Z in
    if (0 <? targets)%Z then
      mapi (fun j x => if Nat.eqb j colIdx then x else remainder / inject_Z targets) row1
    else row1.

(** A column index past the end of the row reads [undefined]: the equality
    test with the clamped value fails, the write extends the row up to
    [colIdx], [1 - undefined] is not above 0.0001, and every other cell
    (holes included) receives the even share. *)
Definition extendRow (colIdx : nat) (newValue : Q) : Vector :=
  if (0 <? colIdx)%nat
  then repeat ((1 - newValue) / inject_Z (Z.of_nat colIdx)) colIdx ++ [newValue]
  else [newValue].

(** [None] stands for the TypeError raised when [rowIdx] is not a row. *)
Definition updateMatrixProbability
    (matrix : Matrix) (rowIdx colIdx : nat) (newValue : Q) : option Matrix :=
  let newMatrix := cloneMatrix matrix in
  match nth_error newMatrix rowIdx with
  | None => None
  | Some row =>
      let newValue := clamp01 newValue in
      match nth_error row colIdx with
      | Some oldValue =>
          if Qeq_bool oldValue newValue then Some newMatrix
          else Some (setAt rowIdx
                       (normalizeRow (rescaleRow row colIdx oldValue newValue))
                       newMatrix)
      | None =>
          Some (setAt rowIdx (normalizeRow (extendRow colIdx newValue)) newMatrix)
      end
  end.

(** The body of the loop of [applyMicroHabit] for state [i]. *)
Definition microHabitStep (impactFactor : Q) (matrix : Matrix) (i : nat) : Matrix :=
  let m1 := if (i <? STATES_COUNT - 1)%nat
            then setEntry matrix i (i + 1) (entry matrix i (i + 1) + impactFactor)
            else matrix in
  let m2 := if (i =? STATES_COUNT - 1)%nat
            then setEntry m1 i i (entry m1 i i + impactFactor)
            else m1 in
  if (0 <? i)%nat
  then setEntry m2 i (i - 1) (Qmax 0 (entry m2 i (i - 1) - impactFactor))
  else setEntry m2 i i (Qmax 0 (entry m2 i i - impactFactor)).

Definition applyMicroHabit (baseMatrix : Matrix) (impactFactor : Q) : Matrix :=
  map normalizeRow
      (fold_left (microHabitStep impactFactor) (seq 0 STATES_COUNT)
                 (cloneMatrix baseMatrix)).

Definition threshold : Q := 0.00001.
Definition maxSteps : nat := 5000.

(** [change += Math.abs(dist[i] - prevDist[i])] over the five states. *)
Definition l1Change (dist prevDist : Vector) : Q :=
  fold_left (fun change i => change + Qabs (nth i dist 0 - nth i prevDist 0))
            (seq 0 STATES_COUNT) 0.

(** The loop [for (t = 1; t < maxSteps; t++)] with [rounds] rounds left. *)
Fixpoint mixingLoop (matrix : Matrix) (rounds t : nat) (dist prevDist : Vector) : nat :=
  match rounds with
  | O => maxSteps
  | S rounds' =>
      let dist' := multiplyVectorMatrix dist matrix in
      if Qltb (l1Change dist' prevDist) threshold then t
      else mixingLoop matrix rounds' (S t) dist' dist'
  end.

Definition calculateMixingTime (matrix : Matrix) : nat :=
  mixingLoop matrix (maxSteps - 1) 1 [1; 0; 0; 0; 0] [1; 0; 0; 0; 0].

Definition estimateSpectralGap (mixingTime : nat) : Q :=
  if (mixingTime =? 0)%nat then 0 else 1 / inject_Z (Z.of_nat mixingTime).

Record SimulationConfig : Type := {
  years : nat;
  impactFactor : Q;
  initialState : nat
}.

Record SimulationStep : Type := {
  day : nat;
  baselineExpectedValue : Q;
  habitExpectedValue : Q;
  baselineDist : Vector;
  habitDist : Vector
}.

Record SimulationResult : Type := {
  timeline : list SimulationStep;
  baselineFinalDist : Vector;
  habitFinalDist : Vector;
  baselineMatrix : Matrix;
  habitMatrix : Matrix;
  mixingTime : nat;
  spectralGap : Q;
  probabilityImprovement : Q;
  steadyState : Vector
}.

(** The loop [for (t = 0; t <= days; t++)] of [runSimulation], with [rounds]
    rounds left; it returns the two distributions and the timeline. *)
Fixpoint simulationLoop (P_baseline P_habit : Matrix) (days sampleRate : nat)
    (rounds t : nat) (v_base v_habit : Vector) (acc : list SimulationStep)
    : Vector * Vector * list SimulationStep :=
  match rounds with
  | O => (v_base, v_habit, acc)
  | S rounds' =>
      let acc' :=
        if (t mod sampleRate =? 0)%nat || (t =? days)%nat
        then acc ++ [ {| day := t;
                         baselineExpectedValue := calculateExpectedValue v_base;
                         habitExpectedValue := calculateExpectedValue v_habit;
                         baselineDist := v_base;
                         habitDist := v_habit |} ]
        else acc in
      if (t <? days)%nat
      then simulationLoop P_baseline P_habit days sampleRate rounds' (S t)
             (multiplyVectorMatrix v_base P_baseline)
             (multiplyVectorMatrix v_habit P_habit) acc'
      else simulationLoop P_baseline P_habit days sampleRate rounds' (S t)
             v_base v_habit acc'
  end.

(** [days > 7000 ? 60 : days > 2000 ? 30 : 7]. *)
Definition sampleRateFor (days : nat) : nat :=
  if (7000 <? days)%nat then 60%nat
  else if (2000 <? days)%nat then 30%nat else 7%nat.

(** [initialState] is a state index 0..4 (types.ts: "The starting state
    index (0-4)"), and an override matrix is 5x5, as the table editor keeps
    it.  Outside that domain the program extends the start array and the
    product reads a missing row (a TypeError, or NaN at [years = 0]); this
    definition does not follow it there: [setAt] leaves the start vector
    untouched, so statements meant for the program's runs carry the domain
    as hypotheses. *)
Definition runSimulation (config : SimulationConfig) (customMatrix : option Matrix)
    : SimulationResult :=
  let days := (years config * 365)%nat in
  let P_baseline := createBaselineMatrix in
  let P_habit := match customMatrix with
                 | Some m => cloneMatrix m
                 | None => applyMicroHabit P_baseline (impactFactor config)
                 end in
  let startVector := setAt (initialState config) 1.0 (repeat 0 STATES_COUNT) in
  let sampleRate := sampleRateFor days in
  let '(v_base, v_habit, tl) :=
    simulationLoop P_baseline P_habit days sampleRate (days + 1) 0
                   startVector startVector [] in
  let mixingTime := calculateMixingTime P_habit in
  let spectralGap := estimateSpectralGap mixingTime in
  let steadyState := calculateSteadyState P_habit in
  let probImprovement :=
    ((nth 4 v_habit 0 - nth 4 v_base 0) / Qmax (nth 4 v_base 0) 0.0001) * 100 in
  {| timeline := tl;
     baselineFinalDist := v_base;
     habitFinalDist := v_habit;
     baselineMatrix := P_baseline;
     habitMatrix := P_habit;
     mixingTime := mixingTime;
     spectralGap := spectralGap;
     probabilityImprovement := probImprovement;
     steadyState := steadyState |}.

(** ** Absorbing chain analyzer *)

Record PathConfig : Type := {
  effort : Q;
  risk : Q;
  isAbsorbing : bool
}.

Record PathResult : Type := {
  matrix : Matrix;
  finalDist : Vector;
  expectedStepsToAbsorb : option Q;
  absorptionProbabilities : option Vector
}.

(** Row [i] of the parametric matrix, before it is normalised. *)
Definition parametricRow (config : PathConfig) (base : Matrix) (i : nat) : Vector :=
  let row := nth i base [] in
  let row :=
    if (i <? STATES_COUNT - 1)%nat then
      let shift := effort config * nth i row 0 * 0.8 in
      let row := setAt i (nth i row 0 - shift) row in
      setAt (i + 1) (nth (i + 1) row 0 + shift) row
    else row in
  let riskFactor := risk config * 0.3 in
  let row :=
    if (i <? STATES_COUNT - 2)%nat then
      let row := setAt (i + 2) (nth (i + 2) row 0 + riskFactor) row in
      let row := setAt i (Qmax 0 (nth i row 0 - riskFactor / 2)) row in
      setAt (i + 1) (Qmax 0 (nth (i + 1) row 0 - riskFactor / 2)) row
    else row in
  if (0 <? i)%nat then
    let row := setAt (i - 1) (nth (i - 1) row 0 + riskFactor) row in
    setAt i (Qmax 0 (nth i row 0 - riskFactor)) row
  else row.

Definition generateParametricMatrix (config : PathConfig) : Matrix :=
  let base := createBaselineMatrix in
  map (fun i =>
         if isAbsorbing config && (i =? STATES_COUNT - 1)%nat
         then [0; 0; 0; 0; 1]
         else normalizeRow (parametricRow config base i))
      (seq 0 STATES_COUNT).

Definition transientCount : nat := 4.

(** [Q[i] = matrix[i].slice(0, 4)] for the four transient states. *)
Definition transientBlock (matrix : Matrix) : Matrix :=
  map (fun i => firstn transientCount (nth i matrix [])) (seq 0 transientCount).

(** [A = I - Q]. *)
Definition fundamentalSystem (matrix : Matrix) : Matrix :=
  let Qm := transientBlock matrix in
  map (fun i =>
         map (fun j => (if Nat.eqb i j then 1 else 0) - entry Qm i j)
             (seq 0 transientCount))
      (seq 0 transientCount).

Definition calculateTimeToAbsorption (matrix : Matrix) : option Q :=
  if Qltb (entry matrix 4 4) 0.99 then None
  else
    let ones := repeat 1 transientCount in
    let t := solveLinearSystem (fundamentalSystem matrix) ones in
    Some (nth 0 t 0).

Definition runPathSimulation (config : PathConfig) : PathResult :=
  let matrix := generateParametricMatrix config in
  let expectedSteps := calculateTimeToAbsorption matrix in
  let finalDist :=
    if isAbsorbing config
    then iterate 500 (fun v => multiplyVectorMatrix v matrix) [1; 0; 0; 0; 0]
    else calculateSteadyState matrix in
  {| matrix := matrix;
     finalDist := finalDist;
     expectedStepsToAbsorb := expectedSteps;
     absorptionProbabilities := None |}.

(** ** Capital dynamics *)

Module Wealth.

(** The model at integer shapes, on the exact grid.  The shape [gamma] is an
    integer here: [Math.pow(k, gamma)] is then a rational power, and the
    scan steps through the exact points 0.1, 0.2, ..., 50.  This is the
    reading of the default configuration (shape 3), where no sign of the
    net growth depends on the grid.  Non-integer shapes and the binary64
    values of the loop variable are in [WealthAnyShape] below.  The noise
    and shock fields play no part in the equilibrium search. *)
Record WealthConfig : Type := {
  A : Q;
  s : Q;
  H : Q;
  gamma : Z;
  delta : Q;
  sigma : Q;
  initialK : Q;
  pushMagnitude : Q;
  pushTime : nat
}.

Inductive Stability : Type := Stable | Unstable.

Record Equilibrium : Type := {
  k : Q;
  type : Stability
}.

(** [Math.sign]. *)
Definition sign (x : Q) : Z := Z.sgn (Qnum x).

(** [nextK] without noise ([withNoise = false]). *)
Definition nextK (k : Q) (config : WealthConfig) : Q :=
  let production :=
    s config * A config * (k ^ gamma config / (H config ^ gamma config + k ^ gamma config)) in
  let depreciation := delta config * k in
  let k_next := k - depreciation + production in
  Qmax 0 k_next.

Definition netGrowth (config : WealthConfig) (k : Q) : Q :=
  let prod :=
    s config * A config * (k ^ gamma config / (H config ^ gamma config + k ^ gamma config)) in
  prod - delta config * k.

Definition maxSearchK : Q := 50.
Definition step : Q := 0.1.

(** Twenty rounds of bisection on [low, high]. *)
Fixpoint bisect (config : WealthConfig) (iter : nat) (low high : Q) : Q * Q :=
  match iter with
  | O => (low, high)
  | S iter' =>
      let mid := (low + high) / 2 in
      if Qltb (netGrowth config mid * netGrowth config low) 0
      then bisect config iter' low mid
      else bisect config iter' mid high
  end.

(** The scan [for (k = 0.1; k <= maxSearchK; k += step)] on exact numbers;
    [None] only when [fuel] rounds did not reach the end of the range.  The
    program's loop variable accumulates rounding and visits 499 points
    ([WealthAnyShape.scanRoots]). *)
Fixpoint scanRoots (config : WealthConfig) (fuel : nat) (k : Q) (prevSign : Z)
    (equilibria : list Equilibrium) : option (list Equilibrium) :=
  match fuel with
  | O => None
  | S fuel' =>
      if Qle_bool k maxSearchK then
        let currentVal := netGrowth config k in
        let currentSign := sign currentVal in
        if negb (currentSign =? prevSign)%Z then
          let '(low, high) := bisect config 20 (k - step) k in
          let rootK := (low + high) / 2 in
          let isStable :=
            Qltb 0 (netGrowth config (rootK - 0.01))
            && Qltb (netGrowth config (rootK + 0.01)) 0 in
          scanRoots config fuel' (k + step) currentSign
            (equilibria ++ [ {| k := rootK;
                                type := if isStable then Stable else Unstable |} ])
        else scanRoots config fuel' (k + step) prevSign equilibria
      else Some equilibria
  end.

(** Five hundred and one rounds cover the range: the scan visits
    0.1, 0.2, ..., 50.0 and stops at the next value. *)
Definition findEquilibria (config : WealthConfig) : option (list Equilibrium) :=
  scanRoots config 501 0.1 (sign (netGrowth config 0.01))
            [ {| k := 0; type := Stable |} ].

(** The defaults of the application. *)
Definition defaultConfig : WealthConfig :=
  {| A := 8.0; s := 0.2; H := 10.0; gamma := 3; delta := 0.1; sigma := 0.5;
     initialK := 8.0; pushMagnitude := 0; pushTime := 20 |}.

End Wealth.

(** ** Convergence of the mobility chain *)

Module Convergence.

Record ConvergenceDataPoint : Type := {
  step : nat;
  tvd : Q;
  theoreticalBound : Q
}.

Record ConvergenceResult : Type := {
  mobilityFactor : Q;
  eigenvalues : list Q;
  spectralGap : Q;
  lambda2 : Q;
  tvdData : list ConvergenceDataPoint
}.

Definition N : nat := 5.

(** [P = (1 - m) I + m J / N]. *)
Definition mobilityMatrix (mobilityFactor : Q) : Matrix :=
  map (fun i =>
         map (fun j =>
                let uniform := 1 / inject_Z (Z.of_nat N) in
                let identity := if Nat.eqb i j then 1 else 0 in
                (1 - mobilityFactor) * identity + mobilityFactor * uniform)
             (seq 0 N))
      (seq 0 N).

(** [tvd += 0.5 * Math.abs(dist[i] - steadyState[i])]. *)
Definition totalVariation (dist steadyState : Vector) : Q :=
  fold_left (fun tvd i => tvd + 0.5 * Qabs (nth i dist 0 - nth i steadyState 0))
            (seq 0 N) 0.

(** The loop [for (t = 0; t <= steps; t++)] with [rounds] rounds left. *)
Fixpoint convergenceLoop (matrix : Matrix) (steadyState : Vector) (lambda2 : Q)
    (rounds t : nat) (dist : Vector) (tvdData : list ConvergenceDataPoint)
    : list ConvergenceDataPoint :=
  match rounds with
  | O => tvdData
  | S rounds' =>
      let tvd := totalVariation dist steadyState in
      let theoretical := 0.8 * Qabs lambda2 ^ Z.of_nat t in
      convergenceLoop matrix steadyState lambda2 rounds' (S t)
        (multiplyVectorMatrix dist matrix)
        (tvdData ++ [ {| step := t; tvd := tvd; theoreticalBound := theoretical |} ])
  end.

Definition runConvergenceSimulation (mobilityFactor : Q) : ConvergenceResult :=
  let matrix := mobilityMatrix mobilityFactor in
  let lambda2 := 1 - mobilityFactor in
  let spectralGap := mobilityFactor in
  let eigenvalues := [1; lambda2; lambda2; lambda2; lambda2] in
  let steadyState := repeat (1 / inject_Z (Z.of_nat N)) N in
  let steps := 50%nat in
  {| mobilityFactor := mobilityFactor;
     eigenvalues := eigenvalues;
     spectralGap := spectralGap;
     lambda2 := lambda2;
     tvdData := convergenceLoop matrix steadyState lambda2 (steps + 1) 0
                                [1; 0; 0; 0; 0] [] |}.

(** The distribution [u + c (e_0 - u)], [u] uniform over the five states. *)
Definition spread (c : Q) : Vector :=
  [ 1 / 5 + 4 / 5 * c; 1 / 5 - c / 5; 1 / 5 - c / 5; 1 / 5 - c / 5; 1 / 5 - c / 5 ].

End Convergence.

(** The one-hot vector at [i] among [n] states. *)
Definition oneHot (n i : nat) : Vector :=
  map (fun k => if Nat.eqb k i then 1 else 0) (seq 0 n).

(** ** Stochastic vectors and matrices (data model) *)

Definition nonneg (v : Vector) : Prop := Forall (fun x => 0 <= x) v.

Definition probVector (v : Vector) : Prop := nonneg v /\ sumQ v == 1.

Definition rowStochastic (m : Matrix) : Prop := Forall probVector m.

Definition square (n : nat) (m : Matrix) : Prop :=
  length m = n /\ Forall (fun row => length row = n) m.

(** The row vector times matrix product of the specification:
    [(v.P)_j] is the sum over [i] of [v_i * P_ij]. *)
Fixpoint rowTimesCol (v : Vector) (m : Matrix) (j : nat) : Q :=
  match v, m with
  | vi :: v', row :: m' => vi * nth j row 0 + rowTimesCol v' m' j
  | _, _ => 0
  end.

(** Finite sums [f 0 + ... + f (n - 1)]. *)
Fixpoint bigsum (f : nat -> Q) (n : nat) : Q :=
  match n with
  | O => 0
  | S k => bigsum f k + f k
  end.

(** ** Definitions used to state the properties *)

(** The mechanism as the interface description words it: proportional
    rescaling of the rest of the row, even shares only when the rest was
    zero. *)
Definition rescaledAsDescribed (P : Matrix) (i j : nat) (v : Q) (M : Matrix) : Prop :=
  let old := entry P i j in
  let new := clamp01 v in
  forall j', (j' < 5)%nat -> j' <> j ->
    if Qeq_bool (1 - old) 0
    then entry M i j' == (1 - new) / 4
    else entry M i j' == entry P i j' * ((1 - new) / (1 - old)).

(** A row-stochastic matrix whose first row leaves 0.00005 outside its
    first cell. *)
Definition nearlyAbsorbedMatrix : Matrix :=
  [ [0.99995; 0.00005; 0; 0; 0];
    [0.15; 0.70; 0.14; 0.01; 0.00];
    [0.01; 0.20; 0.60; 0.18; 0.01];
    [0.00; 0.05; 0.20; 0.60; 0.15];
    [0.00; 0.00; 0.10; 0.40; 0.50] ].

(** Equality of vectors and matrices entry by entry, as numbers. *)
Definition sameVector (u v : Vector) : Prop := Forall2 Qeq u v.
Definition sameMatrix (a b : Matrix) : Prop := Forall2 sameVector a b.
Definition sameStep (st : SimulationStep) : Prop :=
  sameVector (baselineDist st) (habitDist st) /\
  baselineExpectedValue st == habitExpectedValue st.
Definition sampledDays (days sampleRate : nat) : list nat :=
  filter (fun t => (t mod sampleRate =? 0)%nat || (t =? days)%nat) (seq 0 (days + 1)).


(** The distribution after [t] steps from the bottom state, and the L1
    change made by step [t]. *)
Definition distAfter (P : Matrix) (t : nat) : Vector :=
  iterate t (fun d => multiplyVectorMatrix d P) [1; 0; 0; 0; 0].

Definition changeAt (P : Matrix) (t : nat) : Q :=
  l1Change (distAfter P t) (distAfter P (t - 1)).

Definition identityMatrix : Matrix :=
  [ [1; 0; 0; 0; 0];
    [0; 1; 0; 0; 0];
    [0; 0; 1; 0; 0];
    [0; 0; 0; 1; 0];
    [0; 0; 0; 0; 1] ].

(** Integer images of matrices, [m / D], and integer lower bounds of
    vectors, [w / lowerScale]: they bound a long product from below with
    numbers of fixed size. *)
Definition entryZ (m : list (list Z)) (i j : nat) : Z := nth j (nth i m []) 0%Z.


Definition scaledMatrix (D : Z) (m : list (list Z)) : Matrix :=
  map (map (fun z => inject_Z z / inject_Z D)) m.




(** The parametric matrix at effort 0, risk 0 with lock-in, times 100. *)
Definition lockedBaselineZ : list (list Z) :=
  [ [90; 9; 1; 0; 0];
    [15; 70; 14; 1; 0];
    [1; 20; 60; 18; 1];
    [0; 5; 20; 60; 15];
    [0; 0; 0; 0; 100] ]%Z.

(** The parametric matrix at the default effort 0.3, risk 0.1 with lock-in,
    times 1000. *)
Definition lockedDefaultZ : list (list Z) :=
  [ [669; 291; 40; 0; 0];
    [180; 487; 293; 40; 0];
    [10; 230; 411; 309; 40];
    [0; 50; 230; 426; 294];
    [0; 0; 0; 0; 1000] ]%Z.

Definition defaultPathConfig : PathConfig :=
  {| effort := 0.3; risk := 0.1; isAbsorbing := true |}.

Definition idlePathConfig : PathConfig :=
  {| effort := 0; risk := 0; isAbsorbing := true |}.

(** An augmented matrix of [n] rows and [n + 1] columns. *)
Definition augmented (n : nat) (M : Matrix) : Prop :=
  length M = n /\ Forall (fun row => length row = S n) M.

(** The left-hand side of equation [k] of the augmented matrix [M] minus
    its right-hand side, at the point [x] extended by [x n = -1]. *)
Definition residual (n : nat) (M : Matrix) (k : nat) (x : nat -> Q) : Q :=
  bigsum (fun j => entry M k j * x j) (S n).

Definition delta (k j : nat) : Q := if Nat.eqb k j then 1 else 0.

(** The first [i] columns of [M] are the first [i] columns of the identity. *)
Definition columnsDone (n i : nat) (M : Matrix) : Prop :=
  forall k j, (k < n)%nat -> (j < i)%nat -> entry M k j == delta k j.

(** Every point that solves all equations of [M] solves all equations of
    [M0]. *)
Definition solutionsWithin (n : nat) (M M0 : Matrix) : Prop :=
  forall x : nat -> Q,
    (forall k, (k < n)%nat -> residual n M k x == 0) ->
    forall k, (k < n)%nat -> residual n M0 k x == 0.

(** A row-stochastic matrix in which state 1 leaks to state 0 with
    probability 2^-36 (about 1.5e-11).  Every entry is a binary fraction,
    so the matrix is the same in binary64 and as rationals. *)
Definition tinyLeakMatrix : Matrix :=
  [ [0; 0; 1; 0; 0];
    [1 # 68719476736; 68719476735 # 68719476736; 0; 0; 0];
    [1; 0; 0; 0; 0];
    [1 # 8; 0; 0; 7 # 8; 0];
    [0; 0; 0; 1; 0] ].

(** The cyclic chain 0 -> 1 -> 2 -> 3 -> 4 -> 0. *)
Definition cyclicMatrix : Matrix :=
  [ [0; 1; 0; 0; 0];
    [0; 0; 1; 0; 0];
    [0; 0; 0; 1; 0];
    [0; 0; 0; 0; 1];
    [1; 0; 0; 0; 0] ].

(** The L1 distance of two vectors of [n] entries. *)
Definition l1Distance (n : nat) (u v : Vector) : Q :=
  bigsum (fun j => Qabs (nth j u 0 - nth j v 0)) n.

(** The baseline matrix times 100. *)
Definition baselineZ : list (list Z) :=
  [ [90; 9; 1; 0; 0];
    [15; 70; 14; 1; 0];
    [1; 20; 60; 18; 1];
    [0; 5; 20; 60; 15];
    [0; 0; 10; 40; 50] ]%Z.

(** What a timeline entry holds when all is well: two distributions over
    the five states and their expected state indices, between 0 and 4. *)
Definition soundStep (st : SimulationStep) : Prop :=
  probVector (baselineDist st) /\ probVector (habitDist st) /\
  0 <= baselineExpectedValue st <= 4 /\ 0 <= habitExpectedValue st <= 4.

(** The timeline entry of day [d]: the two distributions after [d] steps
    from [start] and their expected values. *)
Definition snapshot (P_baseline P_habit : Matrix) (start : Vector) (d : nat)
    : SimulationStep :=
  let vb := iterate d (fun v => multiplyVectorMatrix v P_baseline) start in
  let vh := iterate d (fun v => multiplyVectorMatrix v P_habit) start in
  {| day := d;
     baselineExpectedValue := calculateExpectedValue vb;
     habitExpectedValue := calculateExpectedValue vh;
     baselineDist := vb;
     habitDist := vh |}.

(** [handleMatrixUpdate] of the application over a session of edits: each
    edit [(row, col, value)] replaces the interactive matrix by its update;
    a failed update ends the session. *)
Fixpoint editSession (matrix : Matrix) (edits : list (nat * nat * Q)) : option Matrix :=
  match edits with
  | [] => Some matrix
  | (row, col, val) :: rest =>
      match updateMatrixProbability matrix row col val with
      | Some updated => editSession updated rest
      | None => None
      end
  end.

(** ** Conditioning of a linear system *)

(** The coefficient part of row [k] of [M] applied to the vector [c]. *)
Definition rowDot (n : nat) (M : Matrix) (k : nat) (c : nat -> Q) : Q :=
  bigsum (fun j => entry M k j * c j) n.

(** A matrix that moves no vector close to zero: whenever every row of [A]
    maps [c] into [[-bound, bound]], every entry of [c] is at most
    [bound / eps] in absolute value. *)
Definition coercive (eps : Q) (n : nat) (A : Matrix) : Prop :=
  forall (c : nat -> Q) (bound : Q),
    (forall r, (r < n)%nat -> Qabs (rowDot n A r c) <= bound) ->
    forall i, (i < n)%nat -> eps * Qabs (c i) <= bound.

(** On a vector that the first [i] rows of [M] send to zero, every row of
    the original matrix [M0] gives zero or what one of the rows of [M] not
    yet used as a pivot gives. *)
Definition rowsTraced (n i : nat) (M M0 : Matrix) : Prop :=
  forall c : nat -> Q,
    (forall j, (j < i)%nat -> rowDot n M j c == 0) ->
    forall r, (r < n)%nat ->
      rowDot n M0 r c == 0 \/
      exists k, (i <= k < n)%nat /\ rowDot n M0 r c == rowDot n M k c.

(** A potential on the four transient states: one step of the parametric
    chain lowers its expectation by at least 0.1 from every one of them. *)
Definition pathPotential (i : nat) : Q := nth i [22; 21; 19; 16] 0.

(** ** The solver in binary64 arithmetic

    The same code over the machine's numbers, to run it on a given input. *)

Module Binary64.
Import PrimFloat.
#[local] Open Scope float_scope.
#[local] Set Warnings "-inexact-float".

Definition Vector64 : Type := list float.
Definition Matrix64 : Type := list Vector64.

(** [m[i][j]]; a missing cell is [undefined], which arithmetic reads as NaN. *)
Definition entry (m : Matrix64) (i j : nat) : float := nth j (nth i m []) nan.

Definition multiplyVectorMatrix (v : Vector64) (m : Matrix64) : Vector64 :=
  map (fun j =>
         fold_left (fun acc i => acc + nth i v nan * entry m i j)
                   (seq 0 (length v)) 0)
      (seq 0 (length v)).

Definition augment (A : Matrix64) (b : Vector64) : Matrix64 :=
  mapi (fun i row => row ++ [nth i b nan]) A.

Definition findPivot (M : Matrix64) (n i : nat) : nat :=
  fold_left (fun pivotRow j =>
               if abs (entry M pivotRow i) <? abs (entry M j i)
               then j else pivotRow)
            (seq (S i) (n - S i)) i.

Definition swapRows (M : Matrix64) (i p : nat) : Matrix64 :=
  mapi (fun k row =>
          if Nat.eqb k i then nth p M []
          else if Nat.eqb k p then nth i M [] else row) M.

Definition scaleFrom (n i : nat) (pivotVal : float) (row : Vector64) : Vector64 :=
  mapi (fun j x => if (i <=? j)%nat && (j <=? n)%nat then x / pivotVal else x) row.

Definition eliminateFrom (n i : nat) (pivotRow row : Vector64) : Vector64 :=
  let factor := nth i row nan in
  mapi (fun j x =>
          if (i <=? j)%nat && (j <=? n)%nat
          then x - factor * nth j pivotRow nan else x) row.

Definition eliminationStep (n : nat) (M : Matrix64) (i : nat) : Matrix64 :=
  let M1 := swapRows M i (findPivot M n i) in
  let pivotVal := entry M1 i i in
  if abs pivotVal <? 1e-10 then M1
  else
    let ri := scaleFrom n i pivotVal (nth i M1 []) in
    mapi (fun k row => if Nat.eqb k i then ri else eliminateFrom n i ri row) M1.

Definition solveLinearSystem (A : Matrix64) (b : Vector64) : Vector64 :=
  let n := length A in
  map (fun row => nth n row nan)
      (fold_left (eliminationStep n) (seq 0 n) (augment A b)).

Definition steadyStateMatrix (matrix : Matrix64) : Matrix64 :=
  let n := length matrix in
  let A := map (fun i =>
                  map (fun j => if Nat.eqb i j then entry matrix j i - 1
                                else entry matrix j i) (seq 0 n)) (seq 0 n) in
  mapi (fun i row => if Nat.eqb i (n - 1) then map (fun _ => 1) row else row) A.

Definition steadyStateRhs (n : nat) : Vector64 :=
  map (fun i => if Nat.eqb i (n - 1) then 1 else 0) (seq 0 n).

Definition calculateSteadyState (matrix : Matrix64) : Vector64 :=
  solveLinearSystem (steadyStateMatrix matrix) (steadyStateRhs (length matrix)).

(** The sum over the states of [|u[j] - v[j]|]. *)
Definition l1Distance (u v : Vector64) : float :=
  fold_left (fun acc j => acc + abs (nth j u nan - nth j v nan)) (seq 0 (length u)) 0.

(** The rational number a finite binary64 value stands for. *)
Definition toQ (x : float) : Q :=
  match FloatOps.Prim2SF x with
  | SpecFloat.S754_finite s m e =>
      let v := if s then Z.neg m else Z.pos m in
      if (0 <=? e)%Z then inject_Z (v * 2 ^ e) else Qmake v (Z.to_pos (2 ^ (- e)))
  | _ => 0%Q
  end.

(** [tinyLeakMatrix] in binary64. *)
Definition tinyLeakMatrix : Matrix64 :=
  [ [0; 0; 1; 0; 0];
    [0x1p-36; 0x1.ffffffffep-1; 0; 0; 0];
    [1; 0; 0; 0; 0];
    [0.125; 0; 0; 0.875; 0];
    [0; 0; 0; 1; 0] ].
End Binary64.

(** ** Capital dynamics for any shape

    [Wealth] reads [Math.pow] as a rational power, which it is for integer
    shapes such as the default 3.  The shape is a number like the others
    (the application's slider also gives 1.5, 2.5, ...): here it is any
    rational, and [Math.pow] is a parameter of the model, so that what is
    proved holds whatever it returns.  The loop variable of the scan in
    [findEquilibria] takes its binary64 values, since the scan depends on
    how the steps of 0.1 accumulate. *)
Module WealthAnyShape.
Import PrimFloat.
#[local] Set Warnings "-inexact-float".

Record WealthConfig : Type := {
  A : Q;
  s : Q;
  H : Q;
  gamma : Q;
  delta : Q;
  sigma : Q;
  initialK : Q;
  pushMagnitude : Q;
  pushTime : nat
}.

(** A point of the phase diagram. *)
Module Phase.
Record PhaseDiagramDataPoint : Type := {
  k : Q;
  nextK : Q;
  depreciation : Q
}.
End Phase.

Section Model.
Variable pow : Q -> Q -> Q.

(** [nextK] without noise ([withNoise = false]). *)
Definition nextK (k : Q) (config : WealthConfig) : Q :=
  let production :=
    s config * A config
    * (pow k (gamma config) / (pow (H config) (gamma config) + pow k (gamma config))) in
  let depreciation := delta config * k in
  let k_next := k - depreciation + production in
  Qmax 0 k_next.

Definition netGrowth (config : WealthConfig) (k : Q) : Q :=
  let prod :=
    s config * A config
    * (pow k (gamma config) / (pow (H config) (gamma config) + pow k (gamma config))) in
  prod - delta config * k.

(** Twenty rounds of bisection on [low, high], in binary64. *)
Fixpoint bisect (config : WealthConfig) (iter : nat) (low high : float) : float * float :=
  match iter with
  | O => (low, high)
  | S iter' =>
      let mid := ((low + high) / 2)%float in
      if Qltb (netGrowth config (Binary64.toQ mid) * netGrowth config (Binary64.toQ low)) 0
      then bisect config iter' low mid
      else bisect config iter' mid high
  end.

(** The scan [for (k = 0.1; k <= maxSearchK; k += step)] on the binary64
    values of [k]; [None] only when [fuel] rounds did not reach the end of
    the range. *)
Fixpoint scanRoots (config : WealthConfig) (fuel : nat) (k : float) (prevSign : Z)
    (equilibria : list Wealth.Equilibrium) : option (list Wealth.Equilibrium) :=
  match fuel with
  | O => None
  | S fuel' =>
      if (k <=? 50)%float then
        let currentVal := netGrowth config (Binary64.toQ k) in
        let currentSign := Wealth.sign currentVal in
        if negb (currentSign =? prevSign)%Z then
          let '(low, high) := bisect config 20 (k - 0.1)%float k in
          let rootK := ((low + high) / 2)%float in
          let isStable :=
            Qltb 0 (netGrowth config (Binary64.toQ (rootK - 0.01)%float))
            && Qltb (netGrowth config (Binary64.toQ (rootK + 0.01)%float)) 0 in
          scanRoots config fuel' (k + 0.1)%float currentSign
            (equilibria ++ [ {| Wealth.k := Binary64.toQ rootK;
                                Wealth.type := if isStable then Wealth.Stable
                                               else Wealth.Unstable |} ])
        else scanRoots config fuel' (k + 0.1)%float prevSign equilibria
      else Some equilibria
  end.

Definition findEquilibria (config : WealthConfig) : option (list Wealth.Equilibrium) :=
  scanRoots config 500 0.1%float
            (Wealth.sign (netGrowth config (Binary64.toQ 0.01%float)))
            [ {| Wealth.k := 0; Wealth.type := Wealth.Stable |} ].

(** The loop [for (k = 0; k <= 30; k += 0.5)] of [generatePhaseData]; its
    steps of 0.5 are exact in binary64.  [None] only when [fuel] rounds did
    not reach the end of the range. *)
Fixpoint phaseLoop (config : WealthConfig) (fuel : nat) (k : Q)
    (data : list Phase.PhaseDiagramDataPoint)
    : option (list Phase.PhaseDiagramDataPoint) :=
  match fuel with
  | O => None
  | S fuel' =>
      if Qle_bool k 30 then
        phaseLoop config fuel' (k + 0.5)
          (data ++ [ {| Phase.k := k;
                        Phase.nextK := nextK k config;
                        Phase.depreciation := k |} ])
      else Some data
  end.

Definition generatePhaseData (config : WealthConfig)
    : option (list Phase.PhaseDiagramDataPoint) :=
  phaseLoop config 62 0 [].

(** The loop of [generateCobweb]; a point [{k, nextK}] is a pair. *)
Fixpoint cobwebLoop (config : WealthConfig) (steps : nat) (k : Q)
    (path : list (Q * Q)) : list (Q * Q) :=
  match steps with
  | O => path
  | S steps' =>
      let nk := nextK k config in
      cobwebLoop config steps' nk (path ++ [ (k, k); (k, nk); (nk, nk) ])
  end.

Definition generateCobweb (config : WealthConfig) (steps : nat) : list (Q * Q) :=
  cobwebLoop config steps (initialK config) [].

(** The capital after [i] noiseless steps from [k0]. *)
Fixpoint orbit (config : WealthConfig) (i : nat) (k0 : Q) : Q :=
  match i with
  | O => k0
  | S i' => nextK (orbit config i' k0) config
  end.

End Model.

(** The values the loop variable of the scan takes:
    [for (k = 0.1; k <= 50; k += 0.1)] in binary64. *)
Fixpoint gridFrom (fuel : nat) (k : float) : option (list float) :=
  match fuel with
  | O => None
  | S fuel' =>
      if (k <=? 50)%float then option_map (cons k) (gridFrom fuel' (k + 0.1)%float)
      else Some []
  end.

(** A configuration of [Wealth] with its integer shape as a number, and
    the power function on such shapes. *)
Definition ofIntegerShape (config : Wealth.WealthConfig) : WealthConfig :=
  {| A := Wealth.A config; s := Wealth.s config; H := Wealth.H config;
     gamma := inject_Z (Wealth.gamma config); delta := Wealth.delta config;
     sigma := Wealth.sigma config; initialK := Wealth.initialK config;
     pushMagnitude := Wealth.pushMagnitude config; pushTime := Wealth.pushTime config |}.

Definition integerPower (x g : Q) : Q := x ^ (Qnum g / QDen g)%Z.

(** The production term is a quotient of numbers with a denominator that
    is not zero, at every capital [k >= 0]: the power of a nonnegative base
    is nonnegative, and positive at the threshold [H]. *)
Definition wellDefined (pow : Q -> Q -> Q) (config : WealthConfig) : Prop :=
  (forall x, 0 <= x -> 0 <= pow x (gamma config)) /\
  0 < pow (H config) (gamma config).

End WealthAnyShape.
(** * Properties *)

Lemma Qltb_true a b : Qltb a b = true <-> a < b.
Proof.
  unfold Qltb. rewrite negb_true_iff. split; intros Hab.
  - apply Qnot_le_lt. intros Hle. apply Qle_bool_iff in Hle. congruence.
  - destruct (Qle_bool b a) eqn:E; [|reflexivity].
    apply Qle_bool_iff in E. exfalso. apply (Qlt_not_le _ _ Hab E).
Qed.

Lemma Qltb_false a b : Qltb a b = false <-> b <= a.
Proof.
  unfold Qltb. rewrite negb_false_iff. apply Qle_bool_iff.
Qed.

(** ** Finite sums *)

Lemma fold_left_seq_bigsum (f : nat -> Q) (n : nat) :
  fold_left (fun acc i => acc + f i) (seq 0 n) 0 = bigsum f n.
Proof.
  induction n as [|n IH]; [reflexivity|].
  rewrite seq_S, fold_left_app. simpl. now rewrite IH.
Qed.

Lemma bigsum_ext (f g : nat -> Q) (n : nat) :
  (forall i, (i < n)%nat -> f i == g i) -> bigsum f n == bigsum g n.
Proof.
  induction n as [|n IH]; intros Hfg; simpl; [reflexivity|].
  rewrite IH, (Hfg n) by (intros; try apply Hfg; lia). reflexivity.
Qed.

Lemma bigsum_zero (n : nat) : bigsum (fun _ => 0) n == 0.
Proof. induction n as [|n IH]; simpl; [reflexivity|]. rewrite IH. lra. Qed.

Lemma bigsum_plus (f g : nat -> Q) (n : nat) :
  bigsum (fun i => f i + g i) n == bigsum f n + bigsum g n.
Proof. induction n as [|n IH]; simpl; [lra|]. rewrite IH. lra. Qed.

Lemma bigsum_scale (c : Q) (f : nat -> Q) (n : nat) :
  bigsum (fun i => c * f i) n == c * bigsum f n.
Proof. induction n as [|n IH]; simpl; [lra|]. rewrite IH. lra. Qed.

Lemma bigsum_swap (f : nat -> nat -> Q) (n m : nat) :
  bigsum (fun i => bigsum (fun j => f i j) m) n ==
  bigsum (fun j => bigsum (fun i => f i j) n) m.
Proof.
  induction n as [|n IH]; simpl.
  - now rewrite bigsum_zero.
  - rewrite IH, <- bigsum_plus. reflexivity.
Qed.

Lemma bigsum_nonneg (f : nat -> Q) (n : nat) :
  (forall i, (i < n)%nat -> 0 <= f i) -> 0 <= bigsum f n.
Proof.
  induction n as [|n IH]; intros Hf; simpl; [lra|].
  assert (0 <= bigsum f n) by (apply IH; intros; apply Hf; lia).
  assert (0 <= f n) by (apply Hf; lia). lra.
Qed.

(** The Kronecker sum: only the [k]-th summand survives. *)
Lemma bigsum_delta (f : nat -> Q) (k n : nat) :
  (k < n)%nat ->
  bigsum (fun j => (if Nat.eqb j k then 1 else 0) * f j) n == f k.
Proof.
  induction n as [|n IH]; intros Hk; [lia|]. simpl.
  destruct (Nat.eqb_spec n k) as [->|Hne].
  - assert (Hz : bigsum (fun j => (if Nat.eqb j k then 1 else 0) * f j) k == 0).
    { rewrite <- (bigsum_zero k). apply bigsum_ext. intros i Hi.
      destruct (Nat.eqb_spec i k); [lia|lra]. }
    rewrite Hz. lra.
  - rewrite IH by lia. lra.
Qed.

Lemma sumQ_app (l : Vector) (x : Q) : sumQ (l ++ [x]) = sumQ l + x.
Proof. unfold sumQ. now rewrite fold_left_app. Qed.

Lemma fold_left_Qplus_acc (l : Vector) (a : Q) :
  fold_left Qplus l a == a + sumQ l.
Proof.
  revert a. induction l as [|x l IH]; intros a; unfold sumQ; simpl.
  - lra.
  - rewrite (IH (a + x)), (IH (0 + x)). lra.
Qed.

Lemma sumQ_cons (x : Q) (l : Vector) : sumQ (x :: l) == x + sumQ l.
Proof. unfold sumQ at 1. simpl. rewrite fold_left_Qplus_acc. lra. Qed.

Lemma sumQ_nil : sumQ [] = 0.
Proof. reflexivity. Qed.

Lemma sumQ_map_seq (f : nat -> Q) (n : nat) :
  sumQ (map f (seq 0 n)) = bigsum f n.
Proof.
  induction n as [|n IH]; [reflexivity|].
  rewrite seq_S, map_app. simpl. now rewrite sumQ_app, IH.
Qed.

Lemma sumQ_bigsum (l : Vector) :
  sumQ l == bigsum (fun i => nth i l 0) (length l).
Proof.
  induction l as [|x l IH] using rev_ind; [reflexivity|].
  rewrite sumQ_app, length_app, Nat.add_1_r. simpl.
  rewrite app_nth2, Nat.sub_diag by lia. simpl.
  rewrite IH. apply Qplus_inj_r. apply bigsum_ext.
  intros i Hi. now rewrite app_nth1.
Qed.

Lemma sumQ_nonneg (l : Vector) : nonneg l -> 0 <= sumQ l.
Proof.
  intros Hl. rewrite sumQ_bigsum. apply bigsum_nonneg. intros i Hi.
  unfold nonneg in Hl. rewrite Forall_forall in Hl. apply Hl, nth_In, Hi.
Qed.

(** ** Facts on the kernel *)

Lemma length_mapi_from {X Y} (f : nat -> X -> Y) (k : nat) (l : list X) :
  length (mapi_from f k l) = length l.
Proof. revert k. induction l; intros; simpl; auto. Qed.

Lemma length_mapi {X Y} (f : nat -> X -> Y) (l : list X) :
  length (mapi f l) = length l.
Proof. apply length_mapi_from. Qed.

Lemma nth_mapi_from {X Y} (f : nat -> X -> Y) (k i : nat) (l : list X) (d : X) (e : Y) :
  (i < length l)%nat -> nth i (mapi_from f k l) e = f (k + i)%nat (nth i l d).
Proof.
  revert k i. induction l as [|x l IH]; intros k i Hi; simpl in *; [lia|].
  destruct i as [|i].
  - now rewrite Nat.add_0_r.
  - rewrite IH by lia. f_equal. lia.
Qed.

Lemma nth_mapi {X Y} (f : nat -> X -> Y) (i : nat) (l : list X) (d : X) (e : Y) :
  (i < length l)%nat -> nth i (mapi f l) e = f i (nth i l d).
Proof. intros Hi. unfold mapi. now rewrite (nth_mapi_from f 0 i l d e Hi). Qed.

Lemma length_setAt {X} (i : nat) (v : X) (l : list X) : length (setAt i v l) = length l.
Proof. apply length_mapi. Qed.

Lemma nth_setAt {X} (i k : nat) (v : X) (l : list X) (d : X) :
  (k < length l)%nat ->
  nth k (setAt i v l) d = if Nat.eqb k i then v else nth k l d.
Proof. intros Hk. unfold setAt. now rewrite (nth_mapi _ k l d d Hk). Qed.

Lemma length_multiplyVectorMatrix (v : Vector) (m : Matrix) :
  length (multiplyVectorMatrix v m) = length v.
Proof. unfold multiplyVectorMatrix. now rewrite length_map, length_seq. Qed.

Lemma nth_map_seq {Y : Type} (f : nat -> Y) (n j : nat) (d : Y) :
  (j < n)%nat -> nth j (map f (seq 0 n)) d = f j.
Proof.
  intros Hj.
  rewrite (nth_indep _ d (f 0%nat)) by (rewrite length_map, length_seq; exact Hj).
  rewrite (map_nth f (seq 0 n) 0%nat j), seq_nth by exact Hj. reflexivity.
Qed.

Lemma nth_multiplyVectorMatrix (v : Vector) (m : Matrix) (j : nat) :
  (j < length v)%nat ->
  nth j (multiplyVectorMatrix v m) 0 =
  bigsum (fun i => nth i v 0 * entry m i j) (length v).
Proof.
  intros Hj. unfold multiplyVectorMatrix.
  rewrite nth_map_seq by exact Hj. apply fold_left_seq_bigsum.
Qed.

Lemma multiplyVectorMatrix_bigsum (v : Vector) (m : Matrix) :
  multiplyVectorMatrix v m =
  map (fun j => bigsum (fun i => nth i v 0 * entry m i j) (length v)) (seq 0 (length v)).
Proof.
  unfold multiplyVectorMatrix. apply map_ext. intros j. apply fold_left_seq_bigsum.
Qed.

Lemma rowTimesCol_bigsum (v : Vector) (m : Matrix) (j : nat) :
  length m = length v ->
  rowTimesCol v m j == bigsum (fun i => nth i v 0 * entry m i j) (length v).
Proof.
  revert m. induction v as [|x v IH] using rev_ind; intros m Hm.
  - destruct m; reflexivity.
  - destruct (exists_last (l := m)) as (m' & row & ->).
    { intros ->. rewrite length_app in Hm. simpl in Hm. lia. }
    rewrite !length_app in Hm. simpl in Hm.
    assert (Hlen : length m' = length v) by lia.
    rewrite length_app, Nat.add_1_r. simpl.
    assert (Happ : forall (a : Vector) (b : Matrix), length b = length a ->
              rowTimesCol (a ++ [x]) (b ++ [row]) j ==
              rowTimesCol a b j + x * nth j row 0).
    { clear. induction a as [|y a IHa]; intros [|r b] Hab; simpl in *; try lia.
      - lra.
      - rewrite IHa by lia. lra. }
    rewrite Happ, IH by exact Hlen.
    unfold entry. rewrite !app_nth2, Hlen, Nat.sub_diag by lia. simpl.
    apply Qplus_inj_r. apply bigsum_ext. intros i Hi.
    rewrite !app_nth1 by lia. reflexivity.
Qed.

(** ** Advancing a distribution (C8) *)

Lemma Forall_nth_in {X : Type} (Pr : X -> Prop) (l : list X) (i : nat) (d : X) :
  Forall Pr l -> (i < length l)%nat -> Pr (nth i l d).
Proof. intros Hl Hi. rewrite Forall_forall in Hl. apply Hl, nth_In, Hi. Qed.

Lemma entry_nonneg (m : Matrix) (i j : nat) :
  Forall nonneg m -> 0 <= entry m i j.
Proof.
  intros Hm. unfold entry.
  destruct (Nat.lt_ge_cases i (length m)) as [Hi|Hi].
  - pose proof (Forall_nth_in _ m i [] Hm Hi) as Hrow.
    destruct (Nat.lt_ge_cases j (length (nth i m []))) as [Hj|Hj].
    + apply (Forall_nth_in _ _ j 0 Hrow Hj).
    + rewrite (nth_overflow _ _ Hj). lra.
  - rewrite (nth_overflow m [] Hi). destruct j; simpl; lra.
Qed.

Lemma rowStochastic_nonneg (m : Matrix) : rowStochastic m -> Forall nonneg m.
Proof. intros Hm. eapply Forall_impl; [|exact Hm]. now intros r [Hr _]. Qed.

Lemma row_sum_entries (n : nat) (m : Matrix) (i : nat) :
  rowStochastic m -> square n m -> (i < n)%nat ->
  bigsum (fun j => entry m i j) n == 1.
Proof.
  intros Hst [Hlen Hrows] Hi. unfold entry.
  assert (Hi' : (i < length m)%nat) by lia.
  pose proof (Forall_nth_in _ m i [] Hst Hi') as [_ Hsum].
  pose proof (Forall_nth_in _ m i [] Hrows Hi') as Hl.
  rewrite sumQ_bigsum, Hl in Hsum. exact Hsum.
Qed.

Lemma multiplyVectorMatrix_nonneg (v : Vector) (m : Matrix) :
  nonneg v -> Forall nonneg m -> nonneg (multiplyVectorMatrix v m).
Proof.
  intros Hv Hm. rewrite multiplyVectorMatrix_bigsum.
  apply Forall_forall. intros x Hx. apply in_map_iff in Hx as (j & <- & _).
  apply bigsum_nonneg. intros i Hi.
  apply Qmult_le_0_compat.
  - apply (Forall_nth_in _ v i 0 Hv Hi).
  - now apply entry_nonneg.
Qed.

Lemma multiplyVectorMatrix_sum (v : Vector) (m : Matrix) :
  rowStochastic m -> square (length v) m ->
  sumQ (multiplyVectorMatrix v m) == sumQ v.
Proof.
  intros Hst Hsq. rewrite multiplyVectorMatrix_bigsum, sumQ_map_seq.
  rewrite (bigsum_swap (fun j i => nth i v 0 * entry m i j)).
  rewrite (sumQ_bigsum v). apply bigsum_ext. intros i Hi.
  rewrite bigsum_scale, (row_sum_entries _ m i Hst Hsq Hi). lra.
Qed.

Lemma multiplyVectorMatrix_prob (v : Vector) (m : Matrix) :
  probVector v -> rowStochastic m -> square (length v) m ->
  probVector (multiplyVectorMatrix v m).
Proof.
  intros [Hv Hs] Hst Hsq. split.
  - apply multiplyVectorMatrix_nonneg; [exact Hv|now apply rowStochastic_nonneg].
  - now rewrite multiplyVectorMatrix_sum.
Qed.

(** C8: for a probability vector [v] and a row-stochastic matrix [P] of the
    same dimension, [multiplyVectorMatrix v P] is the product [v.P] of the
    specification, entry by entry, and is again a probability vector: its
    entries are nonnegative and sum to exactly 1. *)
Theorem advanceDistribution_stochastic (v : Vector) (P : Matrix) :
  probVector v -> rowStochastic P -> square (length v) P ->
  length (multiplyVectorMatrix v P) = length v /\
  (forall j, (j < length v)%nat ->
             nth j (multiplyVectorMatrix v P) 0 == rowTimesCol v P j) /\
  nonneg (multiplyVectorMatrix v P) /\
  sumQ (multiplyVectorMatrix v P) == 1.
Proof.
  intros Hv Hst Hsq. split; [apply length_multiplyVectorMatrix|]. split.
  - intros j Hj. rewrite nth_multiplyVectorMatrix by exact Hj.
    symmetry. apply rowTimesCol_bigsum. now destruct Hsq.
  - apply (multiplyVectorMatrix_prob v P Hv Hst Hsq).
Qed.

(** ** Row-stochastic matrices built by the engine (C7) *)

#[local] Arguments Qplus : simpl never.
#[local] Arguments Qminus : simpl never.
#[local] Arguments Qmult : simpl never.
#[local] Arguments Qdiv : simpl never.
#[local] Arguments Qopp : simpl never.
#[local] Arguments Qinv : simpl never.
#[local] Arguments Qmax : simpl never.
#[local] Arguments Qmin : simpl never.
#[local] Arguments Qabs : simpl never.
#[local] Arguments Qeq_bool : simpl never.
#[local] Arguments Qle_bool : simpl never.
#[local] Arguments Qltb : simpl never.
#[local] Arguments inject_Z : simpl never.
#[local] Arguments sumQ : simpl never.

Ltac destruct_length :=
  repeat match goal with
  | H : length ?l = S _ |- _ =>
      destruct l; simpl in H; [discriminate H|injection H as H]
  | H : length ?l = O |- _ =>
      destruct l; simpl in H; [clear H|discriminate H]
  end.

Ltac invert_Forall :=
  repeat match goal with
  | H : Forall _ (_ :: _) |- _ => inversion H; subst; clear H
  | H : Forall _ [] |- _ => clear H
  end.

(** Replace every [Qmax 0 x] by a fresh number known to dominate 0 and x. *)
Ltac bound_max :=
  repeat match goal with
  | |- context [Qmax 0 ?x] =>
      let m := fresh "m" in
      pose proof (Q.le_max_l 0 x); pose proof (Q.le_max_r 0 x);
      set (m := Qmax 0 x) in *; clearbody m
  | _ : context [Qmax 0 ?x] |- _ =>
      let m := fresh "m" in
      pose proof (Q.le_max_l 0 x); pose proof (Q.le_max_r 0 x);
      set (m := Qmax 0 x) in *; clearbody m
  end.

Lemma sumQ_map_div (c : Q) (l : Vector) :
  sumQ (map (fun v => v / c) l) == sumQ l / c.
Proof.
  induction l as [|x l IH]; simpl.
  - unfold sumQ. simpl. unfold Qdiv. lra.
  - rewrite !sumQ_cons, IH. unfold Qdiv. lra.
Qed.

Lemma normalizeRow_prob (row : Vector) :
  nonneg row -> 0 < sumQ row -> probVector (normalizeRow row).
Proof.
  intros Hrow Hpos. unfold normalizeRow.
  destruct (Qeq_bool (sumQ row) 0) eqn:E.
  - apply Qeq_bool_iff in E. lra.
  - split.
    + apply Forall_forall. intros x Hx. apply in_map_iff in Hx as (y & <- & Hy).
      unfold nonneg in Hrow. rewrite Forall_forall in Hrow.
      apply Qle_shift_div_l; [exact Hpos|]. specialize (Hrow y Hy). lra.
    + rewrite sumQ_map_div. field. lra.
Qed.

Lemma length_normalizeRow row : length (normalizeRow row) = length row.
Proof. unfold normalizeRow. destruct (Qeq_bool _ _); [reflexivity|apply length_map]. Qed.

Lemma cloneMatrix_id (m : Matrix) : cloneMatrix m = m.
Proof.
  unfold cloneMatrix. rewrite <- (map_id m) at 2. apply map_ext.
  intros row. apply map_id.
Qed.

Lemma sumQ5 a b c d e : sumQ [a; b; c; d; e] == a + b + c + d + e.
Proof. unfold sumQ. simpl. lra. Qed.

Lemma applyMicroHabit_stochastic (base : Matrix) (f : Q) :
  rowStochastic base -> square 5 base -> 0 <= f ->
  rowStochastic (applyMicroHabit base f) /\ square 5 (applyMicroHabit base f).
Proof.
  intros Hst [Hlen Hrows] Hf.
  destruct_length. invert_Forall. destruct_length.
  unfold rowStochastic in Hst. invert_Forall.
  unfold applyMicroHabit. rewrite cloneMatrix_id.
  cbn.
  repeat match goal with H : probVector _ |- _ => destruct H as [? ?] end.
  unfold nonneg in *. invert_Forall.
  repeat match goal with H : sumQ _ == _ |- _ => rewrite sumQ5 in H end.
  split.
  - repeat constructor; apply normalizeRow_prob;
      try (repeat constructor; bound_max; lra);
      rewrite sumQ5; bound_max; lra.
  - split; [reflexivity|]. repeat constructor; rewrite length_normalizeRow; reflexivity.
Qed.

Ltac abstract_risk :=
  match goal with
  | |- context [risk ?c * 0.3] =>
      let rf := fresh "rf" in
      let h := fresh "h" in
      assert (0 <= risk c * 0.3) by lra;
      set (rf := risk c * 0.3) in *; clearbody rf;
      assert (rf / 2 + rf / 2 == rf) by field;
      try (set (h := rf / 2) in *; clearbody h)
  end.

Lemma shift_bounds (e a : Q) : 0 <= e -> e <= 1 -> 0 <= a ->
  0 <= e * a * 0.8 /\ e * a * 0.8 <= a.
Proof. intros. split; nra. Qed.

Lemma parametricRow_prob (config : PathConfig) (base : Matrix) (i : nat) :
  rowStochastic base -> square 5 base ->
  0 <= effort config <= 1 -> 0 <= risk config <= 1 -> (i < 5)%nat ->
  probVector (normalizeRow (parametricRow config base i)) /\
  length (normalizeRow (parametricRow config base i)) = 5%nat.
Proof.
  intros Hst [Hlen Hrows] [He0 He1] [Hr0 Hr1] Hi.
  destruct_length. invert_Forall. destruct_length.
  unfold rowStochastic in Hst. invert_Forall.
  repeat match goal with H : probVector _ |- _ => destruct H as [? ?] end.
  unfold nonneg in *. invert_Forall.
  repeat match goal with H : sumQ _ == _ |- _ => rewrite sumQ5 in H end.
  assert (Hcases : i = 0%nat \/ i = 1%nat \/ i = 2%nat \/ i = 3%nat \/ i = 4%nat) by lia.
  clear Hi. destruct Hcases as [->|[->|[->|[->| ->]]]];
    unfold parametricRow; cbn; abstract_risk;
    match goal with
    | |- context [effort config * ?a * 0.8] =>
        let Hs := fresh "Hs" in
        assert (Hs : 0 <= effort config * a * 0.8 /\ effort config * a * 0.8 <= a)
          by (apply shift_bounds; assumption);
        destruct Hs; set (sh := effort config * a * 0.8) in *; clearbody sh
    | _ => idtac
    end;
    (split; [|rewrite length_normalizeRow; reflexivity]);
    apply normalizeRow_prob;
      try (repeat constructor; bound_max; lra);
      rewrite sumQ5; bound_max; lra.
Qed.

Lemma createBaselineMatrix_stochastic :
  rowStochastic createBaselineMatrix /\ square 5 createBaselineMatrix.
Proof.
  unfold createBaselineMatrix. cbn [map]. split.
  - repeat (apply Forall_cons;
              [apply normalizeRow_prob;
               [repeat (apply Forall_cons; [lra|]); apply Forall_nil
               |rewrite sumQ5; lra]|]).
    apply Forall_nil.
  - split; [reflexivity|].
    repeat (apply Forall_cons; [rewrite length_normalizeRow; reflexivity|]).
    apply Forall_nil.
Qed.

Lemma unitTop_prob : probVector [0; 0; 0; 0; 1].
Proof. split; [repeat constructor; lra|rewrite sumQ5; lra]. Qed.

Lemma generateParametricMatrix_stochastic (config : PathConfig) :
  0 <= effort config <= 1 -> 0 <= risk config <= 1 ->
  rowStochastic (generateParametricMatrix config) /\
  square 5 (generateParametricMatrix config).
Proof.
  intros He Hr.
  destruct createBaselineMatrix_stochastic as [Hb Hsq].
  assert (Hrow : forall i, (i < 5)%nat ->
            probVector (nth i (generateParametricMatrix config) []) /\
            length (nth i (generateParametricMatrix config) []) = 5%nat).
  { intros i Hi. unfold generateParametricMatrix.
    rewrite nth_map_seq by exact Hi.
    destruct (isAbsorbing config && (i =? STATES_COUNT - 1)%nat).
    - split; [apply unitTop_prob|reflexivity].
    - now apply parametricRow_prob. }
  assert (Hlen : length (generateParametricMatrix config) = 5%nat).
  { unfold generateParametricMatrix. now rewrite length_map, length_seq. }
  split; [|split; [exact Hlen|]]; apply Forall_forall; intros row Hin;
    destruct (In_nth _ _ [] Hin) as (i & Hi & <-);
    apply Hrow; rewrite <- Hlen; exact Hi.
Qed.

(** C7: the baseline matrix, the micro-habit matrix for every impact factor
    [f >= 0], and the parametric path matrix for every effort and risk in
    [0, 1] (absorbing or not) are 5x5 tables with nonnegative entries whose
    rows sum to 1. *)
Theorem engine_matrices_row_stochastic :
  (rowStochastic createBaselineMatrix /\ square 5 createBaselineMatrix) /\
  (forall f : Q, 0 <= f ->
     rowStochastic (applyMicroHabit createBaselineMatrix f) /\
     square 5 (applyMicroHabit createBaselineMatrix f)) /\
  (forall config : PathConfig,
     0 <= effort config <= 1 -> 0 <= risk config <= 1 ->
     rowStochastic (generateParametricMatrix config) /\
     square 5 (generateParametricMatrix config)).
Proof.
  split; [exact createBaselineMatrix_stochastic|]. split.
  - intros f Hf. destruct createBaselineMatrix_stochastic as [Hb Hsq].
    now apply applyMicroHabit_stochastic.
  - exact generateParametricMatrix_stochastic.
Qed.

Lemma engine_matrices_row_stochastic_witness :
  rowStochastic (applyMicroHabit createBaselineMatrix 0.015) /\
  rowStochastic
    (generateParametricMatrix {| effort := 0.3; risk := 0.1; isAbsorbing := true |}).
Proof.
  destruct engine_matrices_row_stochastic as (_ & Hhabit & Hpath). split.
  - apply (Hhabit 0.015). lra.
  - apply (Hpath {| effort := 0.3; risk := 0.1; isAbsorbing := true |});
      simpl; lra.
Defined.

Lemma advanceDistribution_stochastic_witness :
  probVector [1; 0; 0; 0; 0] /\
  sumQ (multiplyVectorMatrix [1; 0; 0; 0; 0] createBaselineMatrix) == 1.
Proof.
  assert (Hv : probVector [1; 0; 0; 0; 0]).
  { split; [repeat (apply Forall_cons; [lra|]); apply Forall_nil|reflexivity]. }
  split; [exact Hv|].
  destruct createBaselineMatrix_stochastic as [Hb Hsq].
  apply (advanceDistribution_stochastic [1; 0; 0; 0; 0] createBaselineMatrix Hv Hb Hsq).
Defined.

(** ** Editing one probability (C3) *)

Lemma clamp01_range (v : Q) : 0 <= clamp01 v <= 1.
Proof.
  unfold clamp01.
  destruct (Q.min_spec 1 v) as [[H1 H2]|[H1 H2]];
    destruct (Q.max_spec 0 (Qmin 1 v)) as [[H3 H4]|[H3 H4]];
    rewrite H4; try rewrite H2; try rewrite H2 in H3; lra.
Qed.

Lemma clamp01_inside (v : Q) : 0 <= v <= 1 -> clamp01 v == v.
Proof.
  intros [H0 H1]. unfold clamp01.
  destruct (Q.min_spec 1 v) as [[H2 H3]|[H2 H3]];
    destruct (Q.max_spec 0 (Qmin 1 v)) as [[H4 H5]|[H4 H5]];
    rewrite H5; try rewrite H3; try rewrite H3 in H4; lra.
Qed.

Lemma nth_setAt_other {X : Type} (i k : nat) (v : X) (l : list X) (d : X) :
  k <> i -> nth k (setAt i v l) d = nth k l d.
Proof.
  intros Hk. destruct (Nat.lt_ge_cases k (length l)) as [Hlt|Hge].
  - rewrite nth_setAt by exact Hlt. destruct (Nat.eqb_spec k i); [contradiction|reflexivity].
  - rewrite !nth_overflow; [reflexivity|exact Hge|now rewrite length_setAt].
Qed.

Lemma nth_setAt_same {X : Type} (i : nat) (v : X) (l : list X) (d : X) :
  (i < length l)%nat -> nth i (setAt i v l) d = v.
Proof. intros Hi. rewrite nth_setAt by exact Hi. now rewrite Nat.eqb_refl. Qed.

Lemma normalizeRow_unit_sum (row : Vector) :
  sumQ row == 1 ->
  sumQ (normalizeRow row) == 1 /\
  forall k, nth k (normalizeRow row) 0 == nth k row 0.
Proof.
  intros Hs. unfold normalizeRow.
  destruct (Qeq_bool (sumQ row) 0) eqn:E.
  - apply Qeq_bool_iff in E. lra.
  - split.
    + rewrite sumQ_map_div, Hs. reflexivity.
    + intros k. destruct (Nat.lt_ge_cases k (length row)) as [Hk|Hk].
      * rewrite (nth_indep _ 0 (0 / sumQ row)) by now rewrite length_map.
        rewrite (map_nth (fun v => v / sumQ row)), Hs. field.
      * rewrite !nth_overflow; [reflexivity|exact Hk|now rewrite length_map].
Qed.

(** The row after the edit and before the final normalisation. *)
Lemma rescaleRow_spec (row : Vector) (j : nat) (new : Q) :
  length row = 5%nat -> (j < 5)%nat -> sumQ row == 1 ->
  let old := nth j row 0 in
  let row' := rescaleRow row j old new in
  length row' = 5%nat /\
  sumQ row' == 1 /\
  nth j row' 0 == new /\
  (0.0001 < 1 - old ->
   forall j', (j' < 5)%nat -> j' <> j ->
              nth j' row' 0 == nth j' row 0 * ((1 - new) / (1 - old))) /\
  (1 - old <= 0.0001 ->
   forall j', (j' < 5)%nat -> j' <> j -> nth j' row' 0 == (1 - new) / 4).
Proof.
  intros Hlen Hj Hs. destruct_length.
  rewrite sumQ5 in Hs.
  assert (Hcases : j = 0%nat \/ j = 1%nat \/ j = 2%nat \/ j = 3%nat \/ j = 4%nat) by lia.
  clear Hj. cbv zeta. unfold rescaleRow.
  destruct Hcases as [->|[->|[->|[->| ->]]]]; cbn;
    match goal with
    | |- context [Qltb 0.0001 ?x] => destruct (Qltb 0.0001 x) eqn:E
    end;
    [apply Qltb_true in E|apply Qltb_false in E| apply Qltb_true in E|apply Qltb_false in E|
     apply Qltb_true in E|apply Qltb_false in E| apply Qltb_true in E|apply Qltb_false in E|
     apply Qltb_true in E|apply Qltb_false in E]; cbn;
    change (inject_Z 4) with 4;
    (split; [reflexivity|]);
    (split;
     [rewrite sumQ5;
      first
        [ match type of E with
          | 0.0001 < 1 - ?o =>
              match type of Hs with
              | ?S == 1 =>
                  transitivity (new + (S - o) * ((1 - new) / (1 - o)));
                  [field; lra|rewrite Hs; field; lra]
              end
          end
        | field ]
     |]);
    (split; [reflexivity|]);
    (split; intros Hc j' Hj' Hne; try lra;
     assert (Hj'c : j' = 0%nat \/ j' = 1%nat \/ j' = 2%nat \/ j' = 3%nat \/ j' = 4%nat) by lia;
     destruct Hj'c as [->|[->|[->|[->| ->]]]]; try congruence; cbn; reflexivity).
Qed.

Lemma nth_error_nth_lt {X : Type} (l : list X) (i : nat) (d : X) :
  (i < length l)%nat -> nth_error l i = Some (nth i l d).
Proof. intros Hi. now apply nth_error_nth'. Qed.

Lemma square_setAt (n i : nat) (row : Vector) (m : Matrix) :
  square n m -> length row = n -> square n (setAt i row m).
Proof.
  intros [Hlen Hrows] Hrow. split; [now rewrite length_setAt|].
  apply Forall_forall. intros r Hin.
  destruct (In_nth _ _ [] Hin) as (k & Hk & <-). rewrite length_setAt in Hk.
  rewrite nth_setAt by exact Hk. destruct (Nat.eqb k i); [exact Hrow|].
  now apply Forall_nth_in.
Qed.

(** C3, as the code has it: on a 5x5 matrix whose row [i] sums to 1 the
    edit succeeds; the value is clamped to [0, 1]; the new row [i] sums to 1
    and holds the clamped value in column [j]; every other row is the very
    row of the input.  When the clamped value differs from the old one, the
    rest of the row is rescaled by [(1 - new) / (1 - old)] if
    [1 - old > 0.0001] and set to the even share [(1 - new) / 4]
    otherwise; when it does not differ, the row is returned as it was. *)
Theorem updateMatrixProbability_row_sum (P : Matrix) (i j : nat) (v : Q) :
  square 5 P -> (i < 5)%nat -> (j < 5)%nat -> sumQ (nth i P []) == 1 ->
  0 <= clamp01 v <= 1 /\
  exists M,
    updateMatrixProbability P i j v = Some M /\
    square 5 M /\
    sumQ (nth i M []) == 1 /\
    (forall k, k <> i -> nth k M [] = nth k P []) /\
    entry M i j == clamp01 v /\
    (entry P i j == clamp01 v -> nth i M [] = nth i P []) /\
    (~ entry P i j == clamp01 v -> 0.0001 < 1 - entry P i j ->
     forall j', (j' < 5)%nat -> j' <> j ->
       entry M i j' == entry P i j' * ((1 - clamp01 v) / (1 - entry P i j))) /\
    (~ entry P i j == clamp01 v -> 1 - entry P i j <= 0.0001 ->
     forall j', (j' < 5)%nat -> j' <> j -> entry M i j' == (1 - clamp01 v) / 4).
Proof.
  intros Hsq Hi Hj Hs. split; [apply clamp01_range|].
  pose proof Hsq as [Hlen Hrows].
  assert (Hi' : (i < length P)%nat) by lia.
  pose proof (Forall_nth_in _ P i [] Hrows Hi') as Hrl.
  unfold updateMatrixProbability. rewrite cloneMatrix_id.
  rewrite (nth_error_nth_lt P i [] Hi').
  rewrite (nth_error_nth_lt (nth i P []) j 0) by (rewrite Hrl; exact Hj).
  fold (entry P i j).
  destruct (Qeq_bool (entry P i j) (clamp01 v)) eqn:E.
  - apply Qeq_bool_iff in E. exists P.
    repeat split; try assumption; try reflexivity; intros Hne; contradiction.
  - assert (Hne : ~ entry P i j == clamp01 v).
    { intros Heq. apply Qeq_bool_iff in Heq. congruence. }
    destruct (rescaleRow_spec (nth i P []) j (clamp01 v) Hrl Hj Hs)
      as (Hl' & Hs' & Hj' & Hprop & Heven).
    fold (entry P i j) in Hl', Hs', Hj', Hprop, Heven.
    set (row' := rescaleRow (nth i P []) j (entry P i j) (clamp01 v)) in *.
    destruct (normalizeRow_unit_sum row' Hs') as [Hns Hnn].
    exists (setAt i (normalizeRow row') P).
    split; [reflexivity|]. split.
    { apply square_setAt; [exact Hsq|]. now rewrite length_normalizeRow. }
    assert (Hrow : nth i (setAt i (normalizeRow row') P) [] = normalizeRow row')
      by now apply nth_setAt_same.
    unfold entry. rewrite Hrow.
    split; [exact Hns|]. split.
    { intros k Hk. now apply nth_setAt_other. }
    split; [now rewrite Hnn|]. split; [intros Heq; contradiction|]. split.
    + intros _ Hc j' Hj'5 Hj'ne. rewrite Hnn. now apply Hprop.
    + intros _ Hc j' Hj'5 Hj'ne. rewrite Hnn. now apply Heven.
Qed.

Lemma nearlyAbsorbedMatrix_stochastic :
  rowStochastic nearlyAbsorbedMatrix /\ square 5 nearlyAbsorbedMatrix.
Proof.
  unfold nearlyAbsorbedMatrix. split.
  - repeat (apply Forall_cons;
              [split; [repeat (apply Forall_cons; [lra|]); apply Forall_nil
                      |rewrite sumQ5; lra]|]).
    apply Forall_nil.
  - split; [reflexivity|].
    repeat (apply Forall_cons; [reflexivity|]). apply Forall_nil.
Qed.

(** The rest of the first row was 0.00005, not zero, yet the edit spreads
    the new rest evenly (0.125 in each cell) instead of rescaling it
    (which would put 0.5 in the second cell). *)
Lemma updateMatrixProbability_even_share_counterexample :
  rowStochastic nearlyAbsorbedMatrix /\
  ~ 1 - entry nearlyAbsorbedMatrix 0 0 == 0 /\
  exists M,
    updateMatrixProbability nearlyAbsorbedMatrix 0 0 0.5 = Some M /\
    entry M 0 1 == 0.125 /\
    ~ rescaledAsDescribed nearlyAbsorbedMatrix 0 0 0.5 M.
Proof.
  split; [apply nearlyAbsorbedMatrix_stochastic|].
  split; [vm_compute; discriminate|].
  eexists. split; [vm_compute; reflexivity|].
  split; [vm_compute; reflexivity|].
  intros Hd. specialize (Hd 1%nat ltac:(lia) ltac:(lia)).
  vm_compute in Hd. discriminate Hd.
Qed.

Lemma updateMatrixProbability_row_sum_witness :
  exists M,
    updateMatrixProbability nearlyAbsorbedMatrix 0 0 0.5 = Some M /\
    sumQ (nth 0 M []) == 1.
Proof.
  assert (Hsq : square 5 nearlyAbsorbedMatrix).
  { split; [reflexivity|].
    repeat (apply Forall_cons; [reflexivity|]). apply Forall_nil. }
  assert (Hs : sumQ (nth 0 nearlyAbsorbedMatrix []) == 1) by reflexivity.
  destruct (updateMatrixProbability_row_sum nearlyAbsorbedMatrix 0 0 0.5
              Hsq ltac:(lia) ltac:(lia) Hs) as (_ & M & HM & _ & HsM & _).
  exists M. split; assumption.
Defined.

(** ** Zero perturbation (C5) *)

Lemma sameVector_nth (u v : Vector) :
  sameVector u v <->
  length u = length v /\ forall i, nth i u 0 == nth i v 0.
Proof.
  unfold sameVector. split.
  - induction 1 as [|x y u v Hxy Huv [IHl IHn]]; [split; [reflexivity|intros [|i]; reflexivity]|].
    split; [simpl; now rewrite IHl|]. intros [|i]; simpl; [exact Hxy|apply IHn].
  - revert v. induction u as [|x u IH]; intros [|y v] [Hl Hn]; simpl in Hl; try lia.
    + constructor.
    + constructor; [apply (Hn 0%nat)|]. apply IH. split; [lia|].
      intros i. apply (Hn (S i)).
Qed.

Lemma sameVector_refl (u : Vector) : sameVector u u.
Proof. apply sameVector_nth. split; [reflexivity|intros; reflexivity]. Qed.

Lemma sameMatrix_entry (a b : Matrix) :
  sameMatrix a b -> forall i j, entry a i j == entry b i j.
Proof.
  unfold sameMatrix, entry. induction 1 as [|r r' a b Hr Hab IH]; intros i j.
  - destruct i; reflexivity.
  - destruct i as [|i]; simpl; [|apply IH].
    apply sameVector_nth in Hr. apply Hr.
Qed.

Lemma multiplyVectorMatrix_same (u v : Vector) (a b : Matrix) :
  sameVector u v -> (forall i j, entry a i j == entry b i j) ->
  sameVector (multiplyVectorMatrix u a) (multiplyVectorMatrix v b).
Proof.
  intros Huv Hab. apply sameVector_nth in Huv as [Hl Hn].
  apply sameVector_nth. rewrite !length_multiplyVectorMatrix. split; [exact Hl|].
  intros j. destruct (Nat.lt_ge_cases j (length u)) as [Hj|Hj].
  - rewrite !nth_multiplyVectorMatrix by lia. rewrite <- Hl.
    apply bigsum_ext. intros i _. now rewrite Hn, Hab.
  - rewrite !nth_overflow; [reflexivity| |];
      rewrite length_multiplyVectorMatrix; lia.
Qed.

Lemma combine_app_eq {X Y : Type} (l1 l2 : list X) (r1 r2 : list Y) :
  length l1 = length r1 ->
  combine (l1 ++ l2) (r1 ++ r2) = combine l1 r1 ++ combine l2 r2.
Proof.
  revert r1. induction l1 as [|x l1 IH]; intros [|y r1] Hl; simpl in *; try lia.
  - reflexivity.
  - f_equal. apply IH. lia.
Qed.

Lemma calculateExpectedValue_bigsum (dist : Vector) :
  calculateExpectedValue dist ==
  bigsum (fun i => nth i dist 0 * inject_Z (Z.of_nat i)) (length dist).
Proof.
  unfold calculateExpectedValue.
  induction dist as [|x dist IH] using rev_ind; [reflexivity|].
  rewrite length_app, Nat.add_1_r, seq_S. simpl.
  rewrite combine_app_eq by now rewrite length_seq.
  rewrite fold_left_app. simpl.
  rewrite IH, app_nth2, Nat.sub_diag by lia. simpl.
  apply Qplus_inj_r. apply bigsum_ext. intros i Hi. now rewrite app_nth1.
Qed.

Lemma calculateExpectedValue_same (u v : Vector) :
  sameVector u v -> calculateExpectedValue u == calculateExpectedValue v.
Proof.
  intros Huv. apply sameVector_nth in Huv as [Hl Hn].
  rewrite !calculateExpectedValue_bigsum, <- Hl.
  apply bigsum_ext. intros i _. now rewrite Hn.
Qed.

Section SimulationLoop.
Variables (P_baseline P_habit : Matrix) (days sampleRate : nat).
Hypothesis same_entries : forall i j, entry P_habit i j == entry P_baseline i j.

Lemma simulationLoop_same (rounds t : nat) (v_base v_habit : Vector)
      (acc : list SimulationStep) :
  sameVector v_base v_habit -> Forall sameStep acc ->
  let '(vb, vh, tl) :=
    simulationLoop P_baseline P_habit days sampleRate rounds t v_base v_habit acc in
  sameVector vb vh /\ Forall sameStep tl.
Proof.
  revert t v_base v_habit acc.
  induction rounds as [|rounds IH]; intros t vb vh acc Hv Hacc; simpl.
  - split; assumption.
  - assert (Hacc' : Forall sameStep
              (if (t mod sampleRate =? 0)%nat || (t =? days)%nat
               then acc ++ [ {| day := t;
                                baselineExpectedValue := calculateExpectedValue vb;
                                habitExpectedValue := calculateExpectedValue vh;
                                baselineDist := vb; habitDist := vh |} ]
               else acc)).
    { destruct (_ || _); [|exact Hacc].
      apply Forall_app. split; [exact Hacc|].
      constructor; [|constructor]. split; simpl; [exact Hv|].
      now apply calculateExpectedValue_same. }
    destruct (t <? days)%nat.
    + apply IH; [|exact Hacc'].
      apply multiplyVectorMatrix_same; [exact Hv|].
      intros i j. symmetry. apply same_entries.
    + apply IH; assumption.
Qed.
End SimulationLoop.

Lemma simulationLoop_days (Pb Ph : Matrix) (days sampleRate rounds t : nat)
      (vb vh : Vector) (acc : list SimulationStep) :
  map day (snd (simulationLoop Pb Ph days sampleRate rounds t vb vh acc)) =
  map day acc ++
  filter (fun t => (t mod sampleRate =? 0)%nat || (t =? days)%nat) (seq t rounds).
Proof.
  revert t vb vh acc. induction rounds as [|rounds IH]; intros t vb vh acc.
  - simpl. now rewrite app_nil_r.
  - cbn [simulationLoop seq filter].
    destruct (t <? days)%nat; rewrite IH;
      destruct ((t mod sampleRate =? 0)%nat || (t =? days)%nat);
      rewrite ?map_app; simpl; rewrite <- ?app_assoc; reflexivity.
Qed.

Lemma applyMicroHabit_zero :
  forall i j, entry (applyMicroHabit createBaselineMatrix 0) i j ==
              entry createBaselineMatrix i j.
Proof.
  intros i j.
  assert (Hi : (i < 5)%nat \/ (5 <= i)%nat) by lia.
  assert (Hj : (j < 5)%nat \/ (5 <= j)%nat) by lia.
  destruct Hi as [Hi|Hi].
  - destruct Hj as [Hj|Hj].
    + do 5 (destruct i as [|i]; [do 5 (destruct j as [|j]; [vm_compute; reflexivity|]); lia|]).
      lia.
    + do 5 (destruct i as [|i]; [unfold entry; rewrite !nth_overflow; [reflexivity| |]; vm_compute; lia|]).
      lia.
  - unfold entry.
    assert (H1 : nth i (applyMicroHabit createBaselineMatrix 0) [] = [])
      by (apply nth_overflow; exact Hi).
    assert (H2 : nth i createBaselineMatrix [] = [])
      by (apply nth_overflow; exact Hi).
    rewrite H1, H2. reflexivity.
Qed.

Lemma runSimulation_same_matrices (config : SimulationConfig) :
  (forall i j, entry (applyMicroHabit createBaselineMatrix (impactFactor config)) i j ==
               entry createBaselineMatrix i j) ->
  let r := runSimulation config None in
  let days := (years config * 365)%nat in
  map day (timeline r) = sampledDays days (sampleRateFor days) /\
  Forall sameStep (timeline r) /\
  sameVector (baselineFinalDist r) (habitFinalDist r).
Proof.
  intros Hent. cbv zeta. unfold runSimulation.
  set (days := (years config * 365)%nat).
  set (start := setAt (initialState config) 1.0 (repeat 0 STATES_COUNT)).
  pose proof (simulationLoop_same createBaselineMatrix
                (applyMicroHabit createBaselineMatrix (impactFactor config))
                days (sampleRateFor days) Hent (days + 1) 0 start start []
                (sameVector_refl _) (Forall_nil _)) as Hsame.
  pose proof (simulationLoop_days createBaselineMatrix
                (applyMicroHabit createBaselineMatrix (impactFactor config))
                days (sampleRateFor days) (days + 1) 0 start start []) as Hdays.
  destruct (simulationLoop createBaselineMatrix
              (applyMicroHabit createBaselineMatrix (impactFactor config))
              days (sampleRateFor days) (days + 1) 0 start start []) as [[vb vh] tl].
  cbn [timeline baselineFinalDist habitFinalDist].
  destruct Hsame as [Hv Htl]. split; [exact Hdays|]. split; assumption.
Qed.

(** C5: with a horizon of one year, no perturbation and start state 0, and
    no override matrix, the timeline is sampled at days 0, 7, ..., 364 and
    365; at every sample the baseline and habit distributions are equal
    entry by entry and so are the two expected values; the two final
    distributions agree. *)
Theorem runSimulation_zero_impact_identical :
  let r := runSimulation {| years := 1; impactFactor := 0; initialState := 0 |} None in
  map day (timeline r) = sampledDays 365 7 /\
  Forall sameStep (timeline r) /\
  sameVector (baselineFinalDist r) (habitFinalDist r).
Proof.
  exact (runSimulation_same_matrices
           {| years := 1; impactFactor := 0; initialState := 0 |} applyMicroHabit_zero).
Qed.

(** ** Mixing time (C9, C10) *)

Lemma iterate_succ {X : Type} (n : nat) (f : X -> X) (x : X) :
  iterate (S n) f x = f (iterate n f x).
Proof.
  revert x. induction n as [|n IH]; intros x; [reflexivity|].
  change (iterate (S (S n)) f x) with (iterate (S n) f (f x)).
  rewrite IH. reflexivity.
Qed.

Lemma distAfter_succ (P : Matrix) (t : nat) :
  distAfter P (S t) = multiplyVectorMatrix (distAfter P t) P.
Proof.
  unfold distAfter.
  exact (iterate_succ t (fun d => multiplyVectorMatrix d P) [1; 0; 0; 0; 0]).
Qed.

Lemma mixingLoop_spec (P : Matrix) (rounds t : nat) :
  (1 <= t)%nat -> (t + rounds = maxSteps)%nat ->
  let r := mixingLoop P rounds t (distAfter P (t - 1)) (distAfter P (t - 1)) in
  (t <= r <= maxSteps)%nat /\
  ((r < maxSteps)%nat /\ changeAt P r < threshold /\
   (forall u, (t <= u < r)%nat -> ~ changeAt P u < threshold)
   \/
   r = maxSteps /\
   (forall u, (t <= u < maxSteps)%nat -> ~ changeAt P u < threshold)).
Proof.
  revert t. induction rounds as [|rounds IH]; intros t Ht Hsum; cbv zeta.
  - cbn [mixingLoop]. split; [lia|]. right. split; [reflexivity|]. intros u Hu. lia.
  - cbn [mixingLoop].
    assert (Hstep : multiplyVectorMatrix (distAfter P (t - 1)) P = distAfter P t).
    { rewrite <- distAfter_succ. f_equal. lia. }
    rewrite Hstep.
    fold (changeAt P t).
    destruct (Qltb (changeAt P t) threshold) eqn:E.
    + apply Qltb_true in E. split; [lia|]. left.
      split; [lia|]. split; [exact E|]. intros u Hu. lia.
    + apply Qltb_false in E.
      assert (Ht' : distAfter P t = distAfter P (S t - 1)) by (f_equal; lia).
      rewrite Ht'.
      specialize (IH (S t) ltac:(lia) ltac:(lia)). cbv zeta in IH.
      destruct IH as [Hr [(Hlt & Hbelow & Hfirst)|(Heq & Hnone)]].
      * split; [lia|]. left. split; [exact Hlt|]. split; [exact Hbelow|].
        intros u Hu. destruct (Nat.eq_dec u t) as [->|Hne].
        -- intros Hc. apply (Qlt_not_le _ _ Hc E).
        -- apply Hfirst. lia.
      * split; [lia|]. right. split; [exact Heq|].
        intros u Hu. destruct (Nat.eq_dec u t) as [->|Hne].
        -- intros Hc. apply (Qlt_not_le _ _ Hc E).
        -- apply Hnone. lia.
Qed.

Lemma calculateMixingTime_bounds (P : Matrix) :
  (1 <= calculateMixingTime P <= 5000)%nat.
Proof.
  pose proof (mixingLoop_spec P (maxSteps - 1) 1 ltac:(lia) ltac:(reflexivity)) as H.
  cbv zeta in H. destruct H as [H _]. exact H.
Qed.


Lemma identityMatrix_square : square 5 identityMatrix.
Proof.
  split; [reflexivity|]. repeat (apply Forall_cons; [reflexivity|]). apply Forall_nil.
Qed.


Lemma estimateSpectralGap_positive (t : nat) :
  (1 <= t)%nat ->
  estimateSpectralGap t == 1 / inject_Z (Z.of_nat t) /\
  0 < estimateSpectralGap t <= 1.
Proof.
  intros Ht. unfold estimateSpectralGap.
  destruct (Nat.eqb_spec t 0) as [->|_]; [lia|].
  assert (Hpos : 1 <= inject_Z (Z.of_nat t)).
  { change 1 with (inject_Z 1). rewrite <- Zle_Qle. lia. }
  split; [reflexivity|]. split.
  - apply Qlt_shift_div_l; lra.
  - apply Qle_shift_div_r; lra.
Qed.

Lemma runSimulation_mixing (config : SimulationConfig) (customMatrix : option Matrix) :
  let r := runSimulation config customMatrix in
  mixingTime r = calculateMixingTime (habitMatrix r) /\
  spectralGap r = estimateSpectralGap (mixingTime r) /\
  habitMatrix r = match customMatrix with
                  | Some m => m
                  | None => applyMicroHabit createBaselineMatrix (impactFactor config)
                  end.
Proof.
  cbv zeta. unfold runSimulation.
  destruct (simulationLoop _ _ _ _ _ _ _ _ _) as [[vb vh] tl].
  cbn [mixingTime spectralGap habitMatrix].
  repeat split. destruct customMatrix; [apply cloneMatrix_id|reflexivity].
Qed.

(** C10: the mixing time reported by [runSimulation] is never 0, so the
    zero guard of [estimateSpectralGap] is never taken there: the reported
    spectral gap is the reciprocal of the mixing time and lies in (0, 1].
    On the identity matrix the first step changes nothing: the mixing time
    is 1 and the spectral gap is 1. *)
Theorem runSimulation_spectralGap_reciprocal
    (config : SimulationConfig) (customMatrix : option Matrix) :
  let r := runSimulation config customMatrix in
  (forall P, calculateMixingTime P <> 0%nat) /\
  (1 <= mixingTime r <= 5000)%nat /\
  spectralGap r == 1 / inject_Z (Z.of_nat (mixingTime r)) /\
  0 < spectralGap r <= 1 /\
  calculateMixingTime identityMatrix = 1%nat /\
  (customMatrix = Some identityMatrix -> mixingTime r = 1%nat /\ spectralGap r == 1).
Proof.
  cbv zeta.
  destruct (runSimulation_mixing config customMatrix) as (Hm & Hg & Hh).
  cbv zeta in Hm, Hg, Hh.
  pose proof (calculateMixingTime_bounds (habitMatrix (runSimulation config customMatrix)))
    as Hb.
  rewrite <- Hm in Hb.
  destruct (estimateSpectralGap_positive _ (proj1 Hb)) as [Heq Hrange].
  rewrite <- Hg in Heq, Hrange.
  assert (Hid : calculateMixingTime identityMatrix = 1%nat) by (vm_compute; reflexivity).
  split; [intros P; pose proof (calculateMixingTime_bounds P); lia|].
  split; [exact Hb|]. split; [exact Heq|]. split; [exact Hrange|].
  split; [exact Hid|].
  intros ->. rewrite Hh in Hm. rewrite Hid in Hm.
  split; [exact Hm|]. rewrite Heq, Hm. reflexivity.
Qed.

Lemma runSimulation_spectralGap_reciprocal_witness :
  mixingTime (runSimulation {| years := 1; impactFactor := 0; initialState := 0 |}
                            (Some identityMatrix)) = 1%nat.
Proof.
  apply (runSimulation_spectralGap_reciprocal
           {| years := 1; impactFactor := 0; initialState := 0 |} (Some identityMatrix)).
  reflexivity.
Defined.

(** ** Equilibria of the capital map (C1) *)

Module WealthFacts.
Import Wealth.

Lemma sign_negative (x : Q) : x < 0 -> sign x = (-1)%Z.
Proof.
  intros Hx. unfold sign. destruct x as [n d]. unfold Qlt in Hx. simpl in *.
  assert (n < 0)%Z by lia. destruct n; simpl; lia || reflexivity.
Qed.

Lemma cube_power (x : Q) : x ^ 3 == x * x * x.
Proof.
  unfold Qpower, Qpower_positive, pow_pos. cbn [Pos.iter_op]. ring.
Qed.

Lemma netGrowth_default (k : Q) :
  netGrowth defaultConfig k ==
  0.2 * 8.0 * (k * k * k / (1000 + k * k * k)) - 0.1 * k.
Proof.
  unfold netGrowth, defaultConfig. cbn [s A H gamma delta].
  rewrite !cube_power.
  setoid_replace (10.0 * 10.0 * 10.0) with 1000 by reflexivity.
  reflexivity.
Qed.

Lemma square_nonneg (x : Q) : 0 <= x * x.
Proof.
  destruct (Qlt_le_dec x 0) as [Hneg|Hpos].
  - setoid_replace (x * x) with ((- x) * (- x)) by ring.
    apply Qmult_le_0_compat; lra.
  - now apply Qmult_le_0_compat.
Qed.

(** The cubic [k^3 - 16 k^2 + 1000] is positive for every positive [k]. *)
Lemma cubic_positive (k : Q) : 0 < k -> 0 < k * k * k - 16 * (k * k) + 1000.
Proof.
  intros Hk.
  destruct (Qlt_le_dec k 15) as [Hlt|Hge].
  - assert (H1 : 0 <= k * ((k - 8) * (k - 8))).
    { apply Qmult_le_0_compat; [lra|apply square_nonneg]. }
    setoid_replace (k * k * k - 16 * (k * k) + 1000)
      with (k * ((k - 8) * (k - 8)) + (1000 - 64 * k)) by ring.
    lra.
  - assert (H1 : 0 <= (k - 15) * (k - 1)).
    { apply Qmult_le_0_compat; lra. }
    assert (H2 : 0 <= (k - 15) * ((k - 15) * (k - 1) + 15 * (k - 1) - 15)).
    { apply Qmult_le_0_compat; lra. }
    setoid_replace (k * k * k - 16 * (k * k) + 1000)
      with ((k - 15) * ((k - 15) * (k - 1) + 15 * (k - 1) - 15) + 775) by ring.
    lra.
Qed.

Lemma netGrowth_default_negative (k : Q) : 0 < k -> netGrowth defaultConfig k < 0.
Proof.
  intros Hk. rewrite netGrowth_default.
  pose proof (cubic_positive k Hk) as Hc.
  assert (Hk3 : 0 < k * k * k).
  { apply Qmult_lt_0_compat; [apply Qmult_lt_0_compat|]; exact Hk. }
  assert (Hden : 0 < 1000 + k * k * k) by lra.
  assert (Hprod : 0 < k * (k * k * k - 16 * (k * k) + 1000))
    by (apply Qmult_lt_0_compat; assumption).
  assert (Hfrac : (16 * (k * k * k)) / (1000 + k * k * k) < k).
  { apply Qlt_shift_div_r; [exact Hden|].
    setoid_replace (k * (1000 + k * k * k))
      with (k * (k * k * k - 16 * (k * k) + 1000) + 16 * (k * k * k)) by ring.
    lra. }
  setoid_replace (0.2 * 8.0 * (k * k * k / (1000 + k * k * k)) - 0.1 * k)
    with (0.1 * ((16 * (k * k * k)) / (1000 + k * k * k) - k)) by (field; lra).
  set (fr := (16 * (k * k * k)) / (1000 + k * k * k)) in *. lra.
Qed.

(** While the sign stays negative the scan records nothing; it ends as soon
    as [k] passes the ceiling, which [fuel] rounds suffice for. *)
Lemma scanRoots_no_sign_change (fuel : nat) (k : Q) (acc : list Equilibrium) :
  0 < k -> (1 <= fuel)%nat ->
  maxSearchK < k + inject_Z (Z.of_nat fuel - 1) * step ->
  scanRoots defaultConfig fuel k (-1)%Z acc = Some acc.
Proof.
  revert k. induction fuel as [|fuel IH]; intros k Hk Hf Hreach; [lia|].
  cbn [scanRoots].
  destruct (Qle_bool k maxSearchK) eqn:E; [|reflexivity].
  apply Qle_bool_iff in E.
  rewrite (sign_negative _ (netGrowth_default_negative k Hk)). cbn [Z.eqb negb Pos.eqb].
  assert (Hinj : inject_Z (Z.of_nat (S fuel) - 1) == inject_Z (Z.of_nat fuel - 1) + 1).
  { rewrite <- (inject_Z_plus _ 1). apply inject_Z_injective. lia. }
  rewrite Hinj in Hreach. unfold step, maxSearchK in *.
  assert (Hfuel : (1 <= fuel)%nat).
  { destruct fuel; [|lia]. exfalso.
    change (inject_Z (Z.of_nat 0 - 1)) with (-1 # 1) in Hreach. lra. }
  apply IH; [lra|exact Hfuel|lra].
Qed.

Lemma findEquilibria_default :
  findEquilibria defaultConfig = Some [ {| k := 0; type := Stable |} ].
Proof.
  unfold findEquilibria.
  rewrite (sign_negative _ (netGrowth_default_negative 0.01 ltac:(lra))).
  apply scanRoots_no_sign_change; [lra|lia|].
  vm_compute. reflexivity.
Qed.

(** C1, as the code has it: with the default configuration the net growth
    is negative at every positive capital level, so the scan meets no sign
    change and [findEquilibria] returns the single equilibrium [k = 0],
    tagged Stable; there is no interior root. *)
Theorem findEquilibria_default_only_zero :
  findEquilibria defaultConfig = Some [ {| k := 0; type := Stable |} ] /\
  (forall k, 0 < k -> netGrowth defaultConfig k < 0).
Proof.
  split; [exact findEquilibria_default|exact netGrowth_default_negative].
Qed.

Lemma findEquilibria_default_only_zero_witness :
  netGrowth defaultConfig 1 < 0.
Proof.
  apply (proj2 findEquilibria_default_only_zero 1). reflexivity.
Defined.

(** The equilibrium finder does not return three equilibria on the default
    configuration: it returns one, and none of positive capital. *)
Lemma findEquilibria_default_counterexample :
  exists l, findEquilibria defaultConfig = Some l /\ length l = 1%nat /\
            ~ (exists u st, In {| k := u; type := st |} l /\ 0 < u).
Proof.
  exists [ {| k := 0; type := Stable |} ].
  split; [exact findEquilibria_default|]. split; [reflexivity|].
  intros (u & st & [Hin|[]] & Hu). injection Hin as <- _. lra.
Qed.
End WealthFacts.

(** ** Long-run distribution of the locked chain (C4) *)




Lemma entry_scaledMatrix (D : Z) (m : list (list Z)) (i j : nat) :
  (0 < D)%Z ->
  entry (scaledMatrix D m) i j == inject_Z (entryZ m i j) / inject_Z D.
Proof.
  intros HD. unfold entry, entryZ, scaledMatrix.
  assert (Hz : inject_Z 0 / inject_Z D == 0) by (unfold Qdiv; change (inject_Z 0) with 0; ring).
  destruct (Nat.lt_ge_cases i (length m)) as [Hi|Hi].
  - rewrite (nth_indep _ [] (map (fun z => inject_Z z / inject_Z D) []))
      by now rewrite length_map.
    rewrite (map_nth (map (fun z => inject_Z z / inject_Z D))).
    destruct (Nat.lt_ge_cases j (length (nth i m []))) as [Hj|Hj].
    + rewrite (nth_indep _ 0 (inject_Z 0 / inject_Z D)) by now rewrite length_map.
      now rewrite (map_nth (fun z => inject_Z z / inject_Z D)).
    + rewrite !nth_overflow; [now rewrite Hz|exact Hj|now rewrite length_map].
  - rewrite !(nth_overflow _ _ (n := i)); [|exact Hi|now rewrite length_map].
    destruct j; simpl; now rewrite Hz.
Qed.

Lemma entry_out_of_rows (m : Matrix) (i j : nat) :
  (length m <= i)%nat -> entry m i j = 0.
Proof.
  intros Hi. unfold entry. rewrite (nth_overflow m [] Hi). now destruct j.
Qed.

Lemma entry_out_of_columns (m : Matrix) (i j : nat) :
  (length (nth i m []) <= j)%nat -> entry m i j = 0.
Proof. intros Hj. unfold entry. now rewrite nth_overflow. Qed.

Lemma entries_equal_5x5 (a b : Matrix) :
  square 5 a -> square 5 b ->
  (forall i j, (i < 5)%nat -> (j < 5)%nat -> entry a i j == entry b i j) ->
  forall i j, entry a i j == entry b i j.
Proof.
  intros [Hla Hra] [Hlb Hrb] Heq i j.
  destruct (Nat.lt_ge_cases i 5) as [Hi|Hi].
  - destruct (Nat.lt_ge_cases j 5) as [Hj|Hj]; [now apply Heq|].
    rewrite !entry_out_of_columns; [reflexivity| |].
    + rewrite (Forall_nth_in _ b i [] Hrb); lia.
    + rewrite (Forall_nth_in _ a i [] Hra); lia.
  - rewrite !entry_out_of_rows by lia. reflexivity.
Qed.

Ltac square5_by_computation :=
  split; [reflexivity|]; repeat (apply Forall_cons; [reflexivity|]); apply Forall_nil.

Ltac entries_by_computation :=
  let i := fresh "i" in
  let j := fresh "j" in
  let Hi := fresh "Hi" in
  let Hj := fresh "Hj" in
  intros i j Hi Hj;
  do 5 (destruct i as [|i];
        [do 5 (destruct j as [|j]; [vm_compute; reflexivity|]); exfalso; lia|]);
  exfalso; lia.

Lemma idle_matrix_scaled (i j : nat) :
  entry (generateParametricMatrix idlePathConfig) i j ==
  inject_Z (entryZ lockedBaselineZ i j) / inject_Z 100.
Proof.
  rewrite <- entry_scaledMatrix by lia. revert i j.
  apply entries_equal_5x5; [square5_by_computation|square5_by_computation|].
  entries_by_computation.
Qed.

Lemma default_matrix_scaled (i j : nat) :
  entry (generateParametricMatrix defaultPathConfig) i j ==
  inject_Z (entryZ lockedDefaultZ i j) / inject_Z 1000.
Proof.
  rewrite <- entry_scaledMatrix by lia. revert i j.
  apply entries_equal_5x5; [square5_by_computation|square5_by_computation|].
  entries_by_computation.
Qed.

Lemma nth_map_lt {X Y : Type} (f : X -> Y) (l : list X) (j : nat) (e : Y) (d : X) :
  (j < length l)%nat -> nth j (map f l) e = f (nth j l d).
Proof.
  intros Hj. rewrite (nth_indep _ e (f d)) by now rewrite length_map.
  apply map_nth.
Qed.

Lemma bigsum_le (f g : nat -> Q) (n : nat) :
  (forall i, (i < n)%nat -> f i <= g i) -> bigsum f n <= bigsum g n.
Proof.
  induction n as [|n IH]; intros Hfg; simpl; [lra|].
  assert (bigsum f n <= bigsum g n) by (apply IH; intros; apply Hfg; lia).
  assert (f n <= g n) by (apply Hfg; lia). lra.
Qed.



Section LowerBounds.
Variables (G : Matrix) (Mi : list (list Z)) (D : Z).
Hypothesis D_pos : (0 < D)%Z.
Hypothesis Mi_nonneg : forall i j, (0 <= entryZ Mi i j)%Z.
Hypothesis G_scaled :
  forall i j, entry G i j == inject_Z (entryZ Mi i j) / inject_Z D.


End LowerBounds.







Lemma ratio_below (a b : Z) :
  (0 < b)%Z -> (a * 1000000 <? 999999 * b)%Z = true ->
  inject_Z a / inject_Z b < 1 - 0.000001.
Proof.
  intros Hb Hlt. apply Z.ltb_lt in Hlt.
  rewrite Zlt_Qlt, !inject_Z_mult in Hlt.
  change (inject_Z 1000000) with 1000000 in Hlt.
  change (inject_Z 999999) with 999999 in Hlt.
  assert (HB : 0 < inject_Z b) by (change 0 with (inject_Z 0); now rewrite <- Zlt_Qlt).
  apply Qlt_shift_div_r; [exact HB|]. lra.
Qed.



Lemma nth_le_sumQ (v : Vector) (i : nat) : nonneg v -> nth i v 0 <= sumQ v.
Proof.
  revert i. induction v as [|x v IH]; intros i Hv.
  - destruct i; rewrite sumQ_nil; simpl; lra.
  - inversion Hv as [|? ? Hx Hv']; subst. rewrite sumQ_cons.
    pose proof (sumQ_nonneg v Hv') as Hs.
    destruct i as [|i]; simpl; [lra|]. specialize (IH i Hv'). lra.
Qed.


Lemma generateParametricMatrix_top_row (config : PathConfig) :
  isAbsorbing config = true ->
  nth 4 (generateParametricMatrix config) [] = [0; 0; 0; 0; 1].
Proof.
  intros Hab. unfold generateParametricMatrix.
  rewrite nth_map_seq by (unfold STATES_COUNT; lia). now rewrite Hab.
Qed.







(** ** Gaussian elimination *)

Lemma findPivot_range (M : Matrix) (n i : nat) :
  (i < n)%nat -> (i <= findPivot M n i < n)%nat.
Proof.
  intros Hi. unfold findPivot.
  assert (Hgen : forall l p, (i <= p < n)%nat ->
            Forall (fun j => (i <= j < n)%nat) l ->
            (i <= fold_left (fun pivotRow j =>
                     if Qltb (Qabs (entry M pivotRow i)) (Qabs (entry M j i))
                     then j else pivotRow) l p < n)%nat).
  { induction l as [|j l IH]; intros p Hp Hl; [exact Hp|].
    inversion Hl; subst. simpl. apply IH; [|assumption].
    destruct (Qltb _ _); assumption. }
  apply Hgen; [lia|]. apply Forall_forall. intros j Hj.
  apply in_seq in Hj. lia.
Qed.

Lemma length_swapRows (M : Matrix) (i p : nat) : length (swapRows M i p) = length M.
Proof. apply length_mapi. Qed.

Lemma nth_swapRows (M : Matrix) (i p k : nat) :
  (k < length M)%nat ->
  nth k (swapRows M i p) [] =
  nth (if Nat.eqb k i then p else if Nat.eqb k p then i else k) M [].
Proof.
  intros Hk. unfold swapRows. rewrite (nth_mapi (X := Vector) (Y := Vector) _ k M [] [] Hk).
  destruct (Nat.eqb k i); [reflexivity|]. destruct (Nat.eqb k p); reflexivity.
Qed.

Lemma augmented_row (n : nat) (M : Matrix) (k : nat) :
  augmented n M -> (k < n)%nat -> length (nth k M []) = S n.
Proof. intros [Hl Hr] Hk. apply Forall_nth_in; [exact Hr|lia]. Qed.

Lemma augmented_swapRows (n : nat) (M : Matrix) (i p : nat) :
  augmented n M -> (i < n)%nat -> (p < n)%nat -> augmented n (swapRows M i p).
Proof.
  intros HM Hi Hp. pose proof HM as [Hl Hr]. split; [now rewrite length_swapRows|].
  apply Forall_forall. intros row Hin.
  destruct (In_nth _ _ [] Hin) as (k & Hk & <-). rewrite length_swapRows in Hk.
  rewrite nth_swapRows by exact Hk.
  apply augmented_row; [exact HM|].
  destruct (Nat.eqb k i); [lia|]. destruct (Nat.eqb k p); lia.
Qed.

Lemma length_scaleFrom (n i : nat) (p : Q) (row : Vector) :
  length (scaleFrom n i p row) = length row.
Proof. apply length_mapi. Qed.

Lemma length_eliminateFrom (n i : nat) (pr row : Vector) :
  length (eliminateFrom n i pr row) = length row.
Proof. apply length_mapi. Qed.

Lemma nth_scaleFrom (n i j : nat) (p : Q) (row : Vector) :
  (j < length row)%nat ->
  nth j (scaleFrom n i p row) 0 =
  if (i <=? j)%nat && (j <=? n)%nat then nth j row 0 / p else nth j row 0.
Proof. intros Hj. unfold scaleFrom. now rewrite (nth_mapi _ j row 0 0 Hj). Qed.

Lemma nth_eliminateFrom (n i j : nat) (pr row : Vector) :
  (j < length row)%nat ->
  nth j (eliminateFrom n i pr row) 0 =
  if (i <=? j)%nat && (j <=? n)%nat
  then nth j row 0 - nth i row 0 * nth j pr 0 else nth j row 0.
Proof. intros Hj. unfold eliminateFrom. now rewrite (nth_mapi _ j row 0 0 Hj). Qed.

Section EliminationStep.
Variables (n : nat) (M : Matrix) (i : nat).
Hypothesis M_aug : augmented n M.
Hypothesis i_lt : (i < n)%nat.

Let p := findPivot M n i.
Let M1 := swapRows M i p.
Let pivotVal := entry M1 i i.

Hypothesis regular : Qltb (Qabs pivotVal) pivotTolerance = false.

Lemma pivot_nonzero : ~ pivotVal == 0.
Proof.
  intros Hz. apply Qltb_false in regular. rewrite Hz in regular.
  unfold pivotTolerance in regular. vm_compute in regular. now apply regular.
Qed.

Lemma swapped_augmented : augmented n M1.
Proof.
  apply augmented_swapRows; [exact M_aug|exact i_lt|].
  apply findPivot_range, i_lt.
Qed.

Lemma eliminationStep_regular :
  eliminationStep n M i =
  mapi (fun k row =>
          if Nat.eqb k i then scaleFrom n i pivotVal (nth i M1 [])
          else eliminateFrom n i (scaleFrom n i pivotVal (nth i M1 [])) row) M1.
Proof.
  unfold eliminationStep. fold p. fold M1. fold pivotVal. now rewrite regular.
Qed.

Lemma eliminationStep_augmented : augmented n (eliminationStep n M i).
Proof.
  pose proof swapped_augmented as HM1. pose proof HM1 as [Hl Hr].
  rewrite eliminationStep_regular. split; [now rewrite length_mapi|].
  apply Forall_forall. intros row Hin.
  destruct (In_nth _ _ [] Hin) as (k & Hk & <-). rewrite length_mapi in Hk.
  rewrite (nth_mapi (X := Vector) (Y := Vector) _ k M1 [] [] Hk).
  destruct (Nat.eqb k i).
  - rewrite length_scaleFrom. now apply augmented_row.
  - rewrite length_eliminateFrom. apply augmented_row; [exact HM1|lia].
Qed.

(** The entries after the round, in terms of the swapped matrix. *)
Lemma entry_eliminationStep (k j : nat) :
  (k < n)%nat -> (j <= n)%nat ->
  entry (eliminationStep n M i) k j =
  if (i <=? j)%nat then
    if Nat.eqb k i then entry M1 i j / pivotVal
    else entry M1 k j - entry M1 k i * (entry M1 i j / pivotVal)
  else entry M1 k j.
Proof.
  intros Hk Hj. pose proof swapped_augmented as HM1. pose proof HM1 as [Hl Hr].
  rewrite eliminationStep_regular. unfold entry at 1.
  rewrite (nth_mapi (X := Vector) (Y := Vector) _ k M1 [] []) by lia.
  assert (Hli : length (nth i M1 []) = S n) by now apply augmented_row.
  assert (Hlk : length (nth k M1 []) = S n) by now apply augmented_row.
  assert (Hjn : (j <=? n)%nat = true) by now apply Nat.leb_le.
  destruct (Nat.eqb_spec k i) as [->|Hne].
  - rewrite nth_scaleFrom by lia. rewrite Hjn, andb_true_r.
    destruct (i <=? j)%nat; reflexivity.
  - rewrite nth_eliminateFrom by lia. rewrite Hjn, andb_true_r.
    destruct (i <=? j)%nat eqn:E; [|reflexivity].
    rewrite nth_scaleFrom by lia. rewrite E, Hjn. reflexivity.
Qed.

Lemma entry_swapped (k j : nat) :
  (k < n)%nat ->
  entry M1 k j = entry M (if Nat.eqb k i then p else if Nat.eqb k p then i else k) j.
Proof.
  intros Hk. unfold entry, M1. destruct M_aug as [Hl _].
  now rewrite nth_swapRows by lia.
Qed.
End EliminationStep.

Section EliminationInvariant.
Variables (n : nat) (M : Matrix) (i : nat).
Hypothesis M_aug : augmented n M.
Hypothesis i_lt : (i < n)%nat.
Hypothesis regular :
  Qltb (Qabs (entry (swapRows M i (findPivot M n i)) i i)) pivotTolerance = false.
Hypothesis done : columnsDone n i M.

Let p := findPivot M n i.
Let M1 := swapRows M i p.
Let pivotVal := entry M1 i i.
Let M' := eliminationStep n M i.

Lemma p_range : (i <= p < n)%nat.
Proof. apply findPivot_range, i_lt. Qed.

Lemma done_entry (k j : nat) :
  (k < n)%nat -> (j < i)%nat -> entry M k j == delta k j.
Proof. exact (done k j). Qed.

Lemma swapped_columns (k j : nat) :
  (k < n)%nat -> (j < i)%nat -> entry M1 k j == delta k j.
Proof.
  intros Hk Hj. pose proof p_range as Hp.
  unfold M1, p. rewrite entry_swapped by assumption. fold p.
  unfold delta.
  destruct (Nat.eqb_spec k i) as [->|Hki].
  - rewrite done_entry by lia. unfold delta.
    destruct (Nat.eqb_spec p j); destruct (Nat.eqb_spec i j); try lia; reflexivity.
  - destruct (Nat.eqb_spec k p) as [->|Hkp].
    + rewrite done_entry by lia. unfold delta.
      destruct (Nat.eqb_spec i j); destruct (Nat.eqb_spec p j); try lia; reflexivity.
    + rewrite done_entry by lia. reflexivity.
Qed.

Lemma pivotVal_nonzero : ~ pivotVal == 0.
Proof. exact (pivot_nonzero n M i regular). Qed.

Lemma step_entry (k j : nat) :
  (k < n)%nat -> (j <= n)%nat ->
  entry M' k j =
  if (i <=? j)%nat then
    if Nat.eqb k i then entry M1 i j / pivotVal
    else entry M1 k j - entry M1 k i * (entry M1 i j / pivotVal)
  else entry M1 k j.
Proof. intros Hk Hj. exact (entry_eliminationStep n M i M_aug i_lt regular k j Hk Hj). Qed.

Lemma step_columnsDone : columnsDone n (S i) M'.
Proof.
  intros k j Hk Hj. pose proof pivotVal_nonzero as Hnz.
  rewrite step_entry by lia.
  destruct (Nat.leb_spec i j) as [Hij|Hij].
  - assert (j = i) by lia. subst j. unfold delta. fold pivotVal.
    destruct (Nat.eqb_spec k i) as [->|Hki].
    + field. exact Hnz.
    + field. exact Hnz.
  - apply swapped_columns; lia.
Qed.

Lemma pivot_row_scaled (j : nat) :
  (j <= n)%nat -> entry M1 i j == pivotVal * entry M' i j.
Proof.
  intros Hj. pose proof pivotVal_nonzero as Hnz.
  rewrite step_entry by lia. rewrite Nat.eqb_refl.
  destruct (Nat.leb_spec i j) as [Hij|Hij].
  - field. exact Hnz.
  - rewrite swapped_columns by lia. unfold delta.
    destruct (Nat.eqb_spec i j); [lia|ring].
Qed.

Lemma other_row_combined (k j : nat) :
  (k < n)%nat -> k <> i -> (j <= n)%nat ->
  entry M1 k j == entry M' k j + entry M1 k i * entry M' i j.
Proof.
  intros Hk Hki Hj. pose proof pivotVal_nonzero as Hnz.
  rewrite !step_entry by lia. rewrite Nat.eqb_refl.
  destruct (Nat.eqb_spec k i) as [|_]; [contradiction|].
  destruct (Nat.leb_spec i j) as [Hij|Hij].
  - field. exact Hnz.
  - rewrite (swapped_columns i j) by lia. unfold delta.
    destruct (Nat.eqb_spec i j); [lia|ring].
Qed.

Lemma step_solutionsWithin : solutionsWithin n M' M.
Proof.
  intros x Hx. pose proof p_range as Hp.
  assert (H1 : forall k, (k < n)%nat -> residual n M1 k x == 0).
  { intros k Hk. unfold residual.
    destruct (Nat.eq_dec k i) as [->|Hki].
    - rewrite (bigsum_ext _ (fun j => pivotVal * (entry M' i j * x j))).
      + rewrite bigsum_scale. fold (residual n M' i x). rewrite Hx by lia. ring.
      + intros j Hj. rewrite pivot_row_scaled by lia. ring.
    - rewrite (bigsum_ext _ (fun j => entry M' k j * x j
                                      + entry M1 k i * (entry M' i j * x j))).
      + rewrite bigsum_plus, bigsum_scale.
        fold (residual n M' k x). fold (residual n M' i x).
        rewrite !Hx by lia. ring.
      + intros j Hj. rewrite (other_row_combined k j) by lia. ring. }
  intros k Hk.
  set (sk := if Nat.eqb k i then p else if Nat.eqb k p then i else k).
  assert (Hsk : (sk < n)%nat).
  { unfold sk. destruct (Nat.eqb k i); [lia|]. destruct (Nat.eqb k p); lia. }
  rewrite <- (H1 sk Hsk). unfold residual. apply bigsum_ext. intros j _.
  unfold M1, p. rewrite entry_swapped by assumption. fold p. fold sk.
  assert (Hinv : (if Nat.eqb sk i then p else if Nat.eqb sk p then i else sk) = k).
  { unfold sk.
    destruct (Nat.eqb_spec k i) as [->|Hki].
    - destruct (Nat.eqb_spec p i) as [->|Hpi]; [reflexivity|].
      now rewrite Nat.eqb_refl.
    - destruct (Nat.eqb_spec k p) as [->|Hkp].
      + now rewrite Nat.eqb_refl.
      + destruct (Nat.eqb_spec k i); [contradiction|].
        destruct (Nat.eqb_spec k p); [contradiction|reflexivity]. }
  rewrite Hinv. reflexivity.
Qed.
End EliminationInvariant.

Lemma solutionsWithin_trans (n : nat) (M2 M1 M0 : Matrix) :
  solutionsWithin n M2 M1 -> solutionsWithin n M1 M0 -> solutionsWithin n M2 M0.
Proof. intros H21 H10 x Hx. apply H10. now apply H21. Qed.

Lemma eliminate_invariant (n len : nat) :
  forall (i : nat) (M : Matrix),
    (i + len = n)%nat -> augmented n M -> columnsDone n i M ->
    pivotsRegular n M (seq i len) = true ->
    let Mn := fold_left (eliminationStep n) (seq i len) M in
    augmented n Mn /\ columnsDone n n Mn /\ solutionsWithin n Mn M.
Proof.
  induction len as [|len IH]; intros i M Hi Haug Hdone Hreg; cbv zeta.
  - assert (Hin : i = n) by lia. subst i. simpl.
    split; [exact Haug|]. split; [exact Hdone|]. intros x Hx. exact Hx.
  - cbn [seq fold_left]. cbn [seq pivotsRegular] in Hreg.
    apply andb_true_iff in Hreg as [Hpiv Hrest].
    apply negb_true_iff in Hpiv.
    assert (Hlt : (i < n)%nat) by lia.
    pose proof (eliminationStep_augmented n M i Haug Hlt Hpiv) as Haug'.
    pose proof (step_columnsDone n M i Haug Hlt Hpiv Hdone) as Hdone'.
    pose proof (step_solutionsWithin n M i Haug Hlt Hpiv Hdone) as Hsol.
    destruct (IH (S i) (eliminationStep n M i) ltac:(lia) Haug' Hdone' Hrest)
      as (Ha & Hc & Hs).
    split; [exact Ha|]. split; [exact Hc|].
    eapply solutionsWithin_trans; [exact Hs|exact Hsol].
Qed.

Lemma augment_augmented (A : Matrix) (b : Vector) :
  square (length A) A -> augmented (length A) (augment A b).
Proof.
  intros [_ Hrows]. unfold augment. split; [apply length_mapi|].
  apply Forall_forall. intros row Hin.
  destruct (In_nth _ _ [] Hin) as (k & Hk & <-). rewrite length_mapi in Hk.
  rewrite (nth_mapi (X := Vector) (Y := Vector) _ k A [] [] Hk).
  rewrite length_app, (Forall_nth_in _ A k [] Hrows Hk). simpl. lia.
Qed.

Lemma entry_augment (A : Matrix) (b : Vector) (k j : nat) :
  square (length A) A -> (k < length A)%nat ->
  entry (augment A b) k j =
  if (j <? length A)%nat then entry A k j
  else if Nat.eqb j (length A) then nth k b 0 else 0.
Proof.
  intros [_ Hrows] Hk. unfold entry, augment.
  rewrite (nth_mapi (X := Vector) (Y := Vector) _ k A [] [] Hk).
  pose proof (Forall_nth_in _ A k [] Hrows Hk) as Hl. cbv beta in Hl.
  destruct (Nat.ltb_spec j (length A)) as [Hj|Hj].
  - now rewrite app_nth1 by lia.
  - rewrite app_nth2 by lia. rewrite Hl.
    destruct (Nat.eqb_spec j (length A)) as [->|Hne].
    + now rewrite Nat.sub_diag.
    + destruct (j - length A)%nat as [|[|d]] eqn:E; [lia|reflexivity|reflexivity].
Qed.

Lemma bigsum_delta_row (f : nat -> Q) (k n : nat) :
  (k < n)%nat -> bigsum (fun j => delta k j * f j) n == f k.
Proof.
  intros Hk. rewrite <- (bigsum_delta f k n Hk). apply bigsum_ext.
  intros j _. unfold delta. now rewrite Nat.eqb_sym.
Qed.

(** When no pivot falls below the tolerance, the vector returned by
    [solveLinearSystem] solves the system exactly. *)
Lemma solveLinearSystem_exact (A : Matrix) (b : Vector) :
  square (length A) A -> regularSystem A b = true ->
  length (solveLinearSystem A b) = length A /\
  forall k, (k < length A)%nat ->
    bigsum (fun j => entry A k j * nth j (solveLinearSystem A b) 0) (length A)
    == nth k b 0.
Proof.
  intros Hsq Hreg. set (n := length A) in *.
  pose proof (augment_augmented A b Hsq) as Haug. fold n in Haug.
  assert (Hdone0 : columnsDone n 0 (augment A b)) by (intros k j _ Hj; lia).
  destruct (eliminate_invariant n n 0 (augment A b) ltac:(lia) Haug Hdone0 Hreg)
    as (Ha & Hc & Hs).
  cbv zeta in Ha, Hc, Hs. fold (eliminate n (augment A b)) in Ha, Hc, Hs.
  unfold columnsDone in Hc.
  unfold solveLinearSystem. fold n.
  set (Mn := eliminate n (augment A b)) in *. clearbody Mn.
  destruct Ha as [Hlen Hrows].
  split; [now rewrite length_map|].
  assert (Hx : forall j, (j < n)%nat ->
             nth j (map (fun row => nth n row 0) Mn) 0 = entry Mn j n).
  { intros j Hj. unfold entry.
    apply (nth_map_lt (X := Vector) (fun row => nth n row 0) Mn j 0 []). lia. }
  intros k Hk.
  set (x := fun j => if (j <? n)%nat then entry Mn j n else -1 # 1).
  assert (Hres : forall k', (k' < n)%nat -> residual n Mn k' x == 0).
  { intros k' Hk'. unfold residual. cbn [bigsum].
    rewrite (bigsum_ext _ (fun j => delta k' j * x j)).
    - rewrite bigsum_delta_row by exact Hk'. unfold x.
      destruct (Nat.ltb_spec k' n); [|lia].
      destruct (Nat.ltb_spec n n); [lia|]. ring.
    - intros j Hj. now rewrite Hc by lia. }
  pose proof (Hs x Hres k Hk) as H0. unfold residual in H0. cbn [bigsum] in H0.
  rewrite (entry_augment A b k n Hsq Hk) in H0. fold n in H0.
  rewrite Nat.ltb_irrefl, Nat.eqb_refl in H0.
  assert (Hsum : bigsum (fun j => entry (augment A b) k j * x j) n ==
                 bigsum (fun j => entry A k j * nth j (map (fun row => nth n row 0) Mn) 0) n).
  { apply bigsum_ext. intros j Hj.
    rewrite (entry_augment A b k j Hsq Hk). fold n.
    destruct (Nat.ltb_spec j n); [|lia]. rewrite Hx by lia. unfold x.
    destruct (Nat.ltb_spec j n); [reflexivity|lia]. }
  rewrite Hsum in H0. unfold x in H0.
  destruct (Nat.ltb_spec n n); [lia|]. lra.
Qed.

(** ** Stationary distribution (C2) *)

Lemma length_steadyStateMatrix (P : Matrix) :
  length (steadyStateMatrix P) = length P.
Proof. unfold steadyStateMatrix. now rewrite length_mapi, length_map, length_seq. Qed.

Lemma nth_steadyStateMatrix (P : Matrix) (k : nat) :
  (k < length P)%nat ->
  nth k (steadyStateMatrix P) [] =
  if Nat.eqb k (length P - 1) then map (fun _ => 1) (seq 0 (length P))
  else map (fun j => if Nat.eqb k j then entry P j k - 1 else entry P j k)
           (seq 0 (length P)).
Proof.
  intros Hk. unfold steadyStateMatrix.
  rewrite (nth_mapi (X := Vector) (Y := Vector) _ k _ [] [])
    by now rewrite length_map, length_seq.
  rewrite (nth_map_seq (Y := Vector)) by exact Hk.
  destruct (Nat.eqb k (length P - 1)); [|reflexivity].
  now rewrite map_map.
Qed.

Lemma steadyStateMatrix_square (P : Matrix) :
  square (length (steadyStateMatrix P)) (steadyStateMatrix P).
Proof.
  split; [reflexivity|]. rewrite length_steadyStateMatrix.
  apply Forall_forall. intros row Hin.
  destruct (In_nth _ _ [] Hin) as (k & Hk & <-).
  rewrite length_steadyStateMatrix in Hk. rewrite nth_steadyStateMatrix by exact Hk.
  destruct (Nat.eqb k (length P - 1)); now rewrite length_map, length_seq.
Qed.

Lemma entry_steadyStateMatrix (P : Matrix) (k j : nat) :
  (k < length P)%nat -> (j < length P)%nat ->
  entry (steadyStateMatrix P) k j =
  if Nat.eqb k (length P - 1) then 1
  else if Nat.eqb k j then entry P j k - 1 else entry P j k.
Proof.
  intros Hk Hj. unfold entry at 1. rewrite nth_steadyStateMatrix by exact Hk.
  destruct (Nat.eqb k (length P - 1)); now rewrite nth_map_seq.
Qed.

Lemma nth_steadyStateRhs (n k : nat) :
  (k < n)%nat -> nth k (steadyStateRhs n) 0 = if Nat.eqb k (n - 1) then 1 else 0.
Proof. intros Hk. unfold steadyStateRhs. now rewrite nth_map_seq. Qed.

Lemma bigsum_minus_delta (f g : nat -> Q) (k n : nat) :
  (k < n)%nat ->
  bigsum (fun j => (if Nat.eqb k j then f j - 1 else f j) * g j) n ==
  bigsum (fun j => f j * g j) n - g k.
Proof.
  intros Hk.
  rewrite (bigsum_ext _ (fun j => f j * g j + (-1 # 1) * (delta k j * g j))).
  - rewrite bigsum_plus, bigsum_scale, bigsum_delta_row by exact Hk. ring.
  - intros j _. unfold delta. destruct (Nat.eqb k j); ring.
Qed.

(** The stationary equations read off the solved system. *)
Lemma steadyState_of_solution (P : Matrix) (x : Vector) :
  let n := length P in
  (1 <= n)%nat -> rowStochastic P -> square n P -> length x = n ->
  (forall k, (k < n)%nat ->
     bigsum (fun j => entry (steadyStateMatrix P) k j * nth j x 0) n ==
     nth k (steadyStateRhs n) 0) ->
  sumQ x == 1 /\
  forall k, (k < n)%nat -> nth k (multiplyVectorMatrix x P) 0 == nth k x 0.
Proof.
  intros n Hn Hst Hsq Hlx Hsol.
  assert (Hsum : bigsum (fun j => nth j x 0) n == 1).
  { specialize (Hsol (n - 1)%nat ltac:(lia)).
    rewrite nth_steadyStateRhs, Nat.eqb_refl in Hsol by lia.
    rewrite <- Hsol. apply bigsum_ext. intros j Hj.
    rewrite entry_steadyStateMatrix by (fold n; lia). fold n.
    rewrite Nat.eqb_refl. ring. }
  assert (Hmul : forall k, (k < n)%nat ->
            nth k (multiplyVectorMatrix x P) 0 ==
            bigsum (fun j => entry P j k * nth j x 0) n).
  { intros k Hk. rewrite nth_multiplyVectorMatrix by lia. rewrite Hlx.
    apply bigsum_ext. intros j _. ring. }
  assert (Hlow : forall k, (k < n - 1)%nat ->
            nth k (multiplyVectorMatrix x P) 0 == nth k x 0).
  { intros k Hk. rewrite Hmul by lia.
    specialize (Hsol k ltac:(lia)).
    rewrite nth_steadyStateRhs in Hsol by lia.
    destruct (Nat.eqb_spec k (n - 1)) as [Hc|_]; [lia|].
    rewrite (bigsum_ext _ (fun j => (if Nat.eqb k j then entry P j k - 1 else entry P j k)
                                    * nth j x 0)) in Hsol.
    - rewrite (bigsum_minus_delta (fun j => entry P j k)) in Hsol by lia. lra.
    - intros j Hj. rewrite entry_steadyStateMatrix by (fold n; lia). fold n.
      destruct (Nat.eqb_spec k (n - 1)); [lia|reflexivity]. }
  assert (Htotal : bigsum (fun k => nth k (multiplyVectorMatrix x P) 0) n == 1).
  { rewrite <- Hsum.
    rewrite (bigsum_ext _ (fun k => bigsum (fun j => nth j x 0 * entry P j k) n)).
    - rewrite (bigsum_swap (fun k j => nth j x 0 * entry P j k)).
      apply bigsum_ext. intros j Hj.
      rewrite bigsum_scale, (row_sum_entries n P j Hst Hsq Hj). ring.
    - intros k Hk. rewrite Hmul by exact Hk. apply bigsum_ext. intros j _. ring. }
  split.
  - rewrite sumQ_bigsum, Hlx. exact Hsum.
  - intros k Hk. destruct (Nat.eq_dec k (n - 1)) as [->|Hne]; [|apply Hlow; lia].
    destruct n as [|m]; [lia|]. replace (S m - 1)%nat with m in * by lia.
    cbn [bigsum] in Htotal, Hsum.
    assert (Hpart : bigsum (fun k => nth k (multiplyVectorMatrix x P) 0) m ==
                    bigsum (fun j => nth j x 0) m).
    { apply bigsum_ext. intros j Hj. apply Hlow. lia. }
    lra.
Qed.

(** C2, as the code has it: on a row-stochastic n x n matrix for which the
    elimination meets no pivot below 1e-10 in absolute value, the returned
    vector has n entries that sum to 1 and it is fixed by the matrix: the
    L1 distance between [pi.P] and [pi] is 0. *)
Theorem calculateSteadyState_exact_when_regular (P : Matrix) :
  (1 <= length P)%nat -> rowStochastic P -> square (length P) P ->
  regularSystem (steadyStateMatrix P) (steadyStateRhs (length P)) = true ->
  let pi := calculateSteadyState P in
  length pi = length P /\
  sumQ pi == 1 /\
  (forall k, (k < length P)%nat ->
             nth k (multiplyVectorMatrix pi P) 0 == nth k pi 0) /\
  l1Distance (length P) (multiplyVectorMatrix pi P) pi == 0.
Proof.
  intros Hn Hst Hsq Hreg. cbv zeta. unfold calculateSteadyState.
  pose proof (steadyStateMatrix_square P) as HsqA.
  pose proof (solveLinearSystem_exact (steadyStateMatrix P) (steadyStateRhs (length P))
                HsqA Hreg) as [Hlen Hsol].
  rewrite length_steadyStateMatrix in Hlen, Hsol.
  destruct (steadyState_of_solution P _ Hn Hst Hsq Hlen Hsol) as [Hsum Hfix].
  split; [exact Hlen|]. split; [exact Hsum|]. split; [exact Hfix|].
  unfold l1Distance. rewrite <- (bigsum_zero (length P)).
  apply bigsum_ext. intros j Hj. rewrite Hfix by exact Hj.
  setoid_replace (nth j (solveLinearSystem (steadyStateMatrix P)
                           (steadyStateRhs (length P))) 0
                  - nth j (solveLinearSystem (steadyStateMatrix P)
                             (steadyStateRhs (length P))) 0) with 0 by ring.
  reflexivity.
Qed.

Lemma cyclicMatrix_stochastic : rowStochastic cyclicMatrix /\ square 5 cyclicMatrix.
Proof.
  unfold cyclicMatrix. split; [|square5_by_computation].
  repeat (apply Forall_cons;
            [split; [repeat (apply Forall_cons; [lra|]); apply Forall_nil
                    |rewrite sumQ5; lra]|]).
  apply Forall_nil.
Qed.

Lemma calculateSteadyState_exact_when_regular_witness :
  regularSystem (steadyStateMatrix cyclicMatrix)
                (steadyStateRhs (length cyclicMatrix)) = true /\
  sumQ (calculateSteadyState cyclicMatrix) == 1.
Proof.
  assert (Hreg : regularSystem (steadyStateMatrix cyclicMatrix)
                               (steadyStateRhs (length cyclicMatrix)) = true)
    by (vm_compute; reflexivity).
  assert (Hn : (1 <= length cyclicMatrix)%nat) by (simpl; lia).
  destruct cyclicMatrix_stochastic as [Hst Hsq].
  destruct (calculateSteadyState_exact_when_regular cyclicMatrix Hn Hst Hsq Hreg)
    as (_ & Hsum & _).
  split; [exact Hreg|exact Hsum].
Defined.

Lemma l1Distance_same (n : nat) (u u' v v' : Vector) :
  sameVector u u' -> sameVector v v' -> l1Distance n u v == l1Distance n u' v'.
Proof.
  intros Hu Hv. apply sameVector_nth in Hu as [_ Hu]. apply sameVector_nth in Hv as [_ Hv].
  unfold l1Distance. apply bigsum_ext. intros j _. now rewrite Hu, Hv.
Qed.

Lemma tinyLeakMatrix_stochastic :
  rowStochastic tinyLeakMatrix /\ square 5 tinyLeakMatrix.
Proof.
  unfold tinyLeakMatrix. split; [|square5_by_computation].
  repeat (apply Forall_cons;
            [split; [repeat (apply Forall_cons; [lra|]); apply Forall_nil
                    |rewrite sumQ5; lra]|]).
  apply Forall_nil.
Qed.

Lemma tinyLeakMatrix_steadyState :
  sameVector (calculateSteadyState tinyLeakMatrix) [1 # 10; 0; -1 # 10; 4 # 5; 1 # 10].
Proof. vm_compute. repeat constructor. Qed.

Section Binary64Run.
Import PrimFloat.
#[local] Set Warnings "-inexact-float".

(** A leak of 2^-36 makes the elimination skip a pivot of about 1.5e-11;
    the vector returned has a negative entry, sums to 0.9 and is moved by
    the matrix: the L1 distance between [pi.P] and [pi] is 0.4.  The
    program's own arithmetic gives the same: in binary64 the vector is
    (0.1, 0, -0.1, 0.8, 0.1) and the L1 distance is 0.4. *)
Lemma calculateSteadyState_counterexample :
  rowStochastic tinyLeakMatrix /\ square 5 tinyLeakMatrix /\
  (let pi := calculateSteadyState tinyLeakMatrix in
   nth 2 pi 0 < 0 /\
   sumQ pi == 9 # 10 /\
   l1Distance 5 (multiplyVectorMatrix pi tinyLeakMatrix) pi == 2 # 5 /\
   ~ l1Distance 5 (multiplyVectorMatrix pi tinyLeakMatrix) pi < 0.000001) /\
  sameMatrix (map (map Binary64.toQ) Binary64.tinyLeakMatrix) tinyLeakMatrix /\
  (let pi := Binary64.calculateSteadyState Binary64.tinyLeakMatrix in
   pi = [0.1; 0; -0.1; 0.8; 0.1]%float /\
   Binary64.l1Distance (Binary64.multiplyVectorMatrix pi Binary64.tinyLeakMatrix) pi
   = 0.4%float /\
   PrimFloat.ltb 0.000001 0.4 = true).
Proof.
  split; [apply tinyLeakMatrix_stochastic|]. split; [apply tinyLeakMatrix_stochastic|].
  cbv zeta. pose proof tinyLeakMatrix_steadyState as Hpi.
  assert (Hd : l1Distance 5 (multiplyVectorMatrix (calculateSteadyState tinyLeakMatrix)
                                                  tinyLeakMatrix)
                          (calculateSteadyState tinyLeakMatrix) == 2 # 5).
  { rewrite (l1Distance_same 5 _ _ _ _
               (multiplyVectorMatrix_same _ _ tinyLeakMatrix tinyLeakMatrix Hpi
                  (fun i j => Qeq_refl _)) Hpi).
    vm_compute. reflexivity. }
  split; [|split].
  - split; [|split; [|split; [exact Hd|]]].
    + apply sameVector_nth in Hpi as [_ Hn]. rewrite Hn. reflexivity.
    + vm_compute. reflexivity.
    + rewrite Hd. intros Hc. vm_compute in Hc. discriminate Hc.
  - vm_compute. repeat constructor.
  - repeat split; vm_compute; reflexivity.
Qed.

End Binary64Run.

(** ** Expected steps to absorption (C6) *)

Lemma baseline_top_row :
  exists a b c d e,
    nth 4 createBaselineMatrix [] = [a; b; c; d; e] /\
    a == 0 /\ b == 0 /\ c == 0.1 /\ d == 0.4 /\ e == 0.5.
Proof.
  do 5 eexists. split; [vm_compute; reflexivity|].
  repeat split; reflexivity.
Qed.

Lemma parametricRow_top (config : PathConfig) (base : Matrix) (a b c d e : Q) :
  nth 4 base [] = [a; b; c; d; e] ->
  parametricRow config base 4 =
  [a; b; c; d + risk config * 0.3; Qmax 0 (e - risk config * 0.3)].
Proof. intros Hrow. unfold parametricRow. rewrite Hrow. reflexivity. Qed.

Lemma entry_top_unlocked (config : PathConfig) :
  isAbsorbing config = false -> 0 <= risk config <= 1 ->
  entry (generateParametricMatrix config) 4 4 == 0.5 - 0.3 * risk config.
Proof.
  intros Hab [Hr0 Hr1]. unfold entry, generateParametricMatrix.
  rewrite nth_map_seq by (unfold STATES_COUNT; lia). rewrite Hab. cbn [andb].
  destruct baseline_top_row as (a & b & c & d & e & Hrow & Ha & Hb & Hc & Hd & He).
  rewrite (parametricRow_top config _ a b c d e Hrow).
  assert (Hmax : Qmax 0 (e - risk config * 0.3) == e - risk config * 0.3).
  { apply Q.max_r. lra. }
  assert (Hsum : sumQ [a; b; c; d + risk config * 0.3; Qmax 0 (e - risk config * 0.3)] == 1).
  { rewrite sumQ5, Hmax. lra. }
  destruct (normalizeRow_unit_sum _ Hsum) as [_ Hn].
  rewrite Hn. cbn [nth]. rewrite Hmax. lra.
Qed.

Lemma entry_top_locked (config : PathConfig) :
  isAbsorbing config = true -> entry (generateParametricMatrix config) 4 4 = 1.
Proof.
  intros Hab. unfold entry. rewrite generateParametricMatrix_top_row by exact Hab.
  reflexivity.
Qed.

Lemma fundamentalSystem_square (G : Matrix) :
  square (length (fundamentalSystem G)) (fundamentalSystem G).
Proof.
  unfold fundamentalSystem, transientCount. cbn [seq map]. square5_by_computation.
Qed.

Lemma entry_fundamentalSystem (G : Matrix) (k j : nat) :
  (k < 4)%nat -> (j < 4)%nat ->
  entry (fundamentalSystem G) k j = delta k j - entry G k j.
Proof.
  intros Hk Hj. unfold fundamentalSystem, transientBlock, transientCount, delta.
  unfold entry at 1. rewrite (nth_map_seq (Y := Vector)) by exact Hk.
  rewrite nth_map_seq by exact Hj. f_equal.
  unfold entry. rewrite (nth_map_seq (Y := Vector)) by exact Hk.
  revert Hj. generalize (nth k G []). intros row Hj.
  do 4 (destruct j as [|j]; [destruct row as [|x0 [|x1 [|x2 [|x3 row]]]]; reflexivity|]).
  lia.
Qed.

(** ** The solver depends only on the values of its input *)

Lemma Qltb_same (a a' b b' : Q) : a == a' -> b == b' -> Qltb a b = Qltb a' b'.
Proof.
  intros Ha Hb. destruct (Qltb a b) eqn:E; symmetry.
  - apply Qltb_true. apply Qltb_true in E. now rewrite <- Ha, <- Hb.
  - apply Qltb_false. apply Qltb_false in E. now rewrite <- Ha, <- Hb.
Qed.

Lemma sameMatrix_nth (a b : Matrix) :
  sameMatrix a b <->
  length a = length b /\ forall k, sameVector (nth k a []) (nth k b []).
Proof.
  unfold sameMatrix. split.
  - induction 1 as [|r r' a b Hr Hab [IHl IHn]].
    + split; [reflexivity|]. intros [|k]; constructor.
    + split; [simpl; now rewrite IHl|]. intros [|k]; simpl; [exact Hr|apply IHn].
  - revert b. induction a as [|r a IH]; intros [|r' b] [Hl Hn]; simpl in Hl; try lia.
    + constructor.
    + constructor; [apply (Hn 0%nat)|]. apply IH. split; [lia|].
      intros k. apply (Hn (S k)).
Qed.

Lemma sameMatrix_of_entries (n : nat) (a b : Matrix) :
  length a = n -> length b = n ->
  (forall k, (k < n)%nat -> length (nth k a []) = length (nth k b [])) ->
  (forall k j, entry a k j == entry b k j) -> sameMatrix a b.
Proof.
  intros Ha Hb Hrows Hent. apply sameMatrix_nth. split; [lia|].
  intros k. apply sameVector_nth.
  destruct (Nat.lt_ge_cases k n) as [Hk|Hk].
  - split; [now apply Hrows|]. intros j. apply Hent.
  - rewrite !nth_overflow by lia. split; [reflexivity|]. intros j. reflexivity.
Qed.

Lemma sameVector_mapi (f g : nat -> Q -> Q) (u v : Vector) :
  sameVector u v ->
  (forall j x y, (j < length u)%nat -> x == y -> f j x == g j y) ->
  sameVector (mapi f u) (mapi g v).
Proof.
  intros Huv Hfg. apply sameVector_nth in Huv as [Hl Hn].
  apply sameVector_nth. rewrite !length_mapi. split; [exact Hl|].
  intros j. destruct (Nat.lt_ge_cases j (length u)) as [Hj|Hj].
  - rewrite (nth_mapi f j u 0 0 Hj), (nth_mapi g j v 0 0) by lia.
    apply Hfg; [exact Hj|apply Hn].
  - rewrite !nth_overflow; [reflexivity| |]; rewrite length_mapi; lia.
Qed.

Lemma sameMatrix_mapi (f g : nat -> Vector -> Vector) (a b : Matrix) :
  sameMatrix a b ->
  (forall k r r', (k < length a)%nat -> sameVector r r' -> sameVector (f k r) (g k r')) ->
  sameMatrix (mapi f a) (mapi g b).
Proof.
  intros Hab Hfg. apply sameMatrix_nth in Hab as [Hl Hn].
  apply sameMatrix_nth. rewrite !length_mapi. split; [exact Hl|].
  intros k. destruct (Nat.lt_ge_cases k (length a)) as [Hk|Hk].
  - rewrite (nth_mapi (X := Vector) (Y := Vector) f k a [] [] Hk).
    rewrite (nth_mapi (X := Vector) (Y := Vector) g k b [] []) by lia.
    apply Hfg; [exact Hk|apply Hn].
  - rewrite !nth_overflow; [constructor| |]; rewrite length_mapi; lia.
Qed.

Section SolverCongruence.
Variables (n : nat).

Lemma findPivot_same (M M' : Matrix) (i : nat) :
  sameMatrix M M' -> findPivot M n i = findPivot M' n i.
Proof.
  intros HM. pose proof (sameMatrix_entry M M' HM) as Hent. unfold findPivot.
  assert (Hgen : forall l p,
            fold_left (fun pivotRow j =>
                         if Qltb (Qabs (entry M pivotRow i)) (Qabs (entry M j i))
                         then j else pivotRow) l p =
            fold_left (fun pivotRow j =>
                         if Qltb (Qabs (entry M' pivotRow i)) (Qabs (entry M' j i))
                         then j else pivotRow) l p).
  { induction l as [|j l IH]; intros p; simpl; [reflexivity|].
    rewrite (Qltb_same (Qabs (entry M p i)) (Qabs (entry M' p i))
                       (Qabs (entry M j i)) (Qabs (entry M' j i)))
      by (apply Qabs_wd; apply Hent).
    apply IH. }
  apply Hgen.
Qed.

Lemma swapRows_same (M M' : Matrix) (i p : nat) :
  sameMatrix M M' -> sameMatrix (swapRows M i p) (swapRows M' i p).
Proof.
  intros HM. pose proof HM as HM0. apply sameMatrix_nth in HM0 as [Hl Hn].
  unfold swapRows. apply sameMatrix_mapi; [exact HM|].
  intros k r r' _ Hr. destruct (Nat.eqb k i); [apply Hn|].
  destruct (Nat.eqb k p); [apply Hn|exact Hr].
Qed.

Lemma scaleFrom_same (i : nat) (p p' : Q) (r r' : Vector) :
  p == p' -> sameVector r r' ->
  sameVector (scaleFrom n i p r) (scaleFrom n i p' r').
Proof.
  intros Hp Hr. unfold scaleFrom. apply sameVector_mapi; [exact Hr|].
  intros j x y _ Hxy. destruct ((i <=? j)%nat && (j <=? n)%nat); [|exact Hxy].
  now rewrite Hxy, Hp.
Qed.

Lemma eliminateFrom_same (i : nat) (pr pr' r r' : Vector) :
  sameVector pr pr' -> sameVector r r' ->
  sameVector (eliminateFrom n i pr r) (eliminateFrom n i pr' r').
Proof.
  intros Hpr Hr. unfold eliminateFrom.
  pose proof Hpr as Hpr0. apply sameVector_nth in Hpr0 as [_ Hpn].
  pose proof Hr as Hr0. apply sameVector_nth in Hr0 as [_ Hrn].
  apply sameVector_mapi; [exact Hr|].
  intros j x y _ Hxy. destruct ((i <=? j)%nat && (j <=? n)%nat); [|exact Hxy].
  now rewrite Hxy, Hrn, Hpn.
Qed.

Lemma eliminationStep_same (M M' : Matrix) (i : nat) :
  sameMatrix M M' ->
  sameMatrix (eliminationStep n M i) (eliminationStep n M' i) /\
  Qltb (Qabs (entry (swapRows M i (findPivot M n i)) i i)) pivotTolerance =
  Qltb (Qabs (entry (swapRows M' i (findPivot M' n i)) i i)) pivotTolerance.
Proof.
  intros HM. unfold eliminationStep.
  rewrite <- (findPivot_same M M' i HM).
  pose proof (swapRows_same M M' i (findPivot M n i) HM) as Hsw.
  pose proof (sameMatrix_entry _ _ Hsw) as Hent.
  pose proof Hsw as Hsw0. apply sameMatrix_nth in Hsw0 as [_ Hrow].
  assert (Hcond : Qltb (Qabs (entry (swapRows M i (findPivot M n i)) i i)) pivotTolerance =
                  Qltb (Qabs (entry (swapRows M' i (findPivot M n i)) i i)) pivotTolerance).
  { apply Qltb_same; [apply Qabs_wd, Hent|reflexivity]. }
  split; [|exact Hcond]. rewrite <- Hcond.
  destruct (Qltb _ pivotTolerance); [exact Hsw|].
  apply sameMatrix_mapi; [exact Hsw|].
  intros k r r' _ Hr.
  assert (Hri : sameVector
            (scaleFrom n i (entry (swapRows M i (findPivot M n i)) i i)
                       (nth i (swapRows M i (findPivot M n i)) []))
            (scaleFrom n i (entry (swapRows M' i (findPivot M n i)) i i)
                       (nth i (swapRows M' i (findPivot M n i)) []))).
  { apply scaleFrom_same; [apply Hent|apply Hrow]. }
  destruct (Nat.eqb k i); [exact Hri|]. now apply eliminateFrom_same.
Qed.

Lemma eliminate_same_on (cols : list nat) (M M' : Matrix) :
  sameMatrix M M' ->
  sameMatrix (fold_left (eliminationStep n) cols M)
             (fold_left (eliminationStep n) cols M') /\
  pivotsRegular n M cols = pivotsRegular n M' cols.
Proof.
  revert M M'. induction cols as [|i cols IH]; intros M M' HM; simpl.
  - split; [exact HM|reflexivity].
  - destruct (eliminationStep_same M M' i HM) as [Hstep Hcond].
    destruct (IH _ _ Hstep) as [Hrest Hreg].
    split; [exact Hrest|]. now rewrite Hcond, Hreg.
Qed.
End SolverCongruence.

Lemma augment_same (A A' : Matrix) (b b' : Vector) :
  sameMatrix A A' -> sameVector b b' -> sameMatrix (augment A b) (augment A' b').
Proof.
  intros HA Hb. unfold augment. apply sameVector_nth in Hb as [_ Hbn].
  apply sameMatrix_mapi; [exact HA|].
  intros k r r' _ Hr. unfold sameVector in *.
  apply Forall2_app; [exact Hr|]. constructor; [apply Hbn|constructor].
Qed.

Lemma last_column_same (c : nat) (M M' : Matrix) :
  sameMatrix M M' ->
  sameVector (map (fun row => nth c row 0) M) (map (fun row => nth c row 0) M').
Proof.
  unfold sameMatrix, sameVector. induction 1 as [|r r' M M' Hr HM IH]; simpl.
  - constructor.
  - constructor; [|exact IH]. apply sameVector_nth in Hr as [_ Hn]. apply Hn.
Qed.

(** Two systems with equal coefficients, as numbers, are treated alike:
    the same pivots are skipped and the solutions are equal. *)
Lemma solveLinearSystem_same (A A' : Matrix) (b b' : Vector) :
  sameMatrix A A' -> sameVector b b' ->
  regularSystem A b = regularSystem A' b' /\
  sameVector (solveLinearSystem A b) (solveLinearSystem A' b').
Proof.
  intros HA Hb. pose proof HA as HA0. apply sameMatrix_nth in HA0 as [Hl _].
  pose proof (augment_same A A' b b' HA Hb) as Haug.
  unfold regularSystem, solveLinearSystem, eliminate. rewrite <- Hl.
  destruct (eliminate_same_on (length A) (seq 0 (length A)) _ _ Haug) as [Hel Hreg].
  split; [exact Hreg|]. now apply last_column_same.
Qed.

Lemma entry_transientBlock (G : Matrix) (k j : nat) :
  (k < 4)%nat -> (j < 4)%nat -> entry (transientBlock G) k j = entry G k j.
Proof.
  intros Hk Hj. unfold transientBlock, transientCount, entry.
  rewrite (nth_map_seq (Y := Vector)) by exact Hk.
  generalize (nth k G []). intros row.
  do 4 (destruct j as [|j]; [destruct row as [|x0 [|x1 [|x2 [|x3 row]]]]; reflexivity|]).
  lia.
Qed.

Lemma fundamentalSystem_same (G G' : Matrix) :
  (forall k j, entry G k j == entry G' k j) ->
  sameMatrix (fundamentalSystem G) (fundamentalSystem G').
Proof.
  intros Hent. unfold fundamentalSystem, transientCount. cbn [seq map].
  unfold sameMatrix, sameVector.
  repeat (apply Forall2_cons; [|]); try apply Forall2_nil;
    rewrite !entry_transientBlock by lia; rewrite Hent; reflexivity.
Qed.

Lemma steadyStateMatrix_same (P P' : Matrix) :
  length P = length P' -> (forall k j, entry P k j == entry P' k j) ->
  sameMatrix (steadyStateMatrix P) (steadyStateMatrix P').
Proof.
  intros Hl Hent.
  apply (sameMatrix_of_entries (length P)).
  - apply length_steadyStateMatrix.
  - now rewrite length_steadyStateMatrix.
  - intros k Hk. rewrite !nth_steadyStateMatrix by lia. rewrite <- Hl.
    destruct (Nat.eqb k (length P - 1)); now rewrite !length_map.
  - intros k j.
    destruct (Nat.lt_ge_cases k (length P)) as [Hk|Hk].
    + destruct (Nat.lt_ge_cases j (length P)) as [Hj|Hj].
      * rewrite !entry_steadyStateMatrix by lia. rewrite <- Hl.
        destruct (Nat.eqb k (length P - 1)); [reflexivity|].
        destruct (Nat.eqb k j); now rewrite Hent.
      * rewrite !entry_out_of_columns; [reflexivity| |];
          rewrite nth_steadyStateMatrix by lia; rewrite <- ?Hl;
          destruct (Nat.eqb k _); rewrite length_map, length_seq; lia.
    + rewrite !entry_out_of_rows; [reflexivity| |]; rewrite length_steadyStateMatrix; lia.
Qed.

Lemma runPathSimulation_expectedSteps_locked (config : PathConfig) :
  isAbsorbing config = true ->
  expectedStepsToAbsorb (runPathSimulation config) =
  Some (nth 0 (solveLinearSystem (fundamentalSystem (generateParametricMatrix config))
                                 (repeat 1 transientCount)) 0).
Proof.
  intros Hab. unfold runPathSimulation. cbn [expectedStepsToAbsorb].
  unfold calculateTimeToAbsorption. rewrite (entry_top_locked config Hab).
  reflexivity.
Qed.

(** At the default effort 0.3 and risk 0.1 the elimination skips no pivot
    and the expected number of steps from the bottom state is
    138652251500 / 7133236169, about 19.44. *)
Lemma path_expectedSteps_default :
  regularSystem (fundamentalSystem (generateParametricMatrix defaultPathConfig))
                (repeat 1 transientCount) = true /\
  exists t, expectedStepsToAbsorb (runPathSimulation defaultPathConfig) = Some t /\
            t == 138652251500 # 7133236169.
Proof.
  assert (Hent : forall k j, entry (generateParametricMatrix defaultPathConfig) k j ==
                             entry (scaledMatrix 1000 lockedDefaultZ) k j).
  { intros k j. rewrite default_matrix_scaled. symmetry. apply entry_scaledMatrix. lia. }
  destruct (solveLinearSystem_same _ _ (repeat 1 transientCount) (repeat 1 transientCount)
              (fundamentalSystem_same _ _ Hent) (sameVector_refl _)) as [Hreg Hsol].
  split; [rewrite Hreg; vm_compute; reflexivity|].
  eexists. split; [apply runPathSimulation_expectedSteps_locked; reflexivity|].
  apply sameVector_nth in Hsol as [_ Hn]. rewrite Hn. vm_compute. reflexivity.
Qed.

(** With no effort and no risk the elimination skips no pivot either; the
    expected number of steps is 915860 / 10847, about 84.4. *)
Lemma path_expectedSteps_idle :
  regularSystem (fundamentalSystem (generateParametricMatrix idlePathConfig))
                (repeat 1 transientCount) = true /\
  exists t, expectedStepsToAbsorb (runPathSimulation idlePathConfig) = Some t /\
            t == 915860 # 10847.
Proof.
  assert (Hent : forall k j, entry (generateParametricMatrix idlePathConfig) k j ==
                             entry (scaledMatrix 100 lockedBaselineZ) k j).
  { intros k j. rewrite idle_matrix_scaled. symmetry. apply entry_scaledMatrix. lia. }
  destruct (solveLinearSystem_same _ _ (repeat 1 transientCount) (repeat 1 transientCount)
              (fundamentalSystem_same _ _ Hent) (sameVector_refl _)) as [Hreg Hsol].
  split; [rewrite Hreg; vm_compute; reflexivity|].
  eexists. split; [apply runPathSimulation_expectedSteps_locked; reflexivity|].
  apply sameVector_nth in Hsol as [_ Hn]. rewrite Hn. vm_compute. reflexivity.
Qed.

(** ** Further properties of the kernel *)

(** On a row of nonnegative entries, [normalizeRow] returns a row of zero
    sum as it is; any other row is divided by its sum, keeps its length,
    stays nonnegative, then sums to 1, and normalising it again changes
    nothing. *)
Theorem normalizeRow_sums_to_one (row : Vector) :
  nonneg row ->
  (sumQ row == 0 -> normalizeRow row = row) /\
  (~ sumQ row == 0 ->
   length (normalizeRow row) = length row /\
   (forall k, nth k (normalizeRow row) 0 == nth k row 0 / sumQ row) /\
   probVector (normalizeRow row) /\
   sameVector (normalizeRow (normalizeRow row)) (normalizeRow row)).
Proof.
  intros Hnn. split.
  - intros Hz. unfold normalizeRow. apply Qeq_bool_iff in Hz. now rewrite Hz.
  - intros Hnz.
    assert (Hpos : 0 < sumQ row).
    { pose proof (sumQ_nonneg row Hnn) as H0.
      destruct (Qlt_le_dec 0 (sumQ row)) as [Hlt|Hle]; [exact Hlt|].
      exfalso. apply Hnz. lra. }
    assert (Hmap : normalizeRow row = map (fun v => v / sumQ row) row).
    { unfold normalizeRow. destruct (Qeq_bool (sumQ row) 0) eqn:E; [|reflexivity].
      apply Qeq_bool_iff in E. contradiction. }
    pose proof (normalizeRow_prob row Hnn Hpos) as Hprob.
    split; [apply length_normalizeRow|]. split; [|split; [exact Hprob|]].
    + intros k. rewrite Hmap.
      destruct (Nat.lt_ge_cases k (length row)) as [Hk|Hk].
      * now rewrite (nth_map_lt (fun v => v / sumQ row) row k 0 0 Hk).
      * rewrite !nth_overflow; [now field|exact Hk|now rewrite length_map].
    + apply sameVector_nth. split; [apply length_normalizeRow|].
      intros k. apply (normalizeRow_unit_sum _ (proj2 Hprob)).
Qed.

Lemma normalizeRow_sums_to_one_witness :
  nonneg [2; 6] /\ ~ sumQ [2; 6] == 0 /\ probVector (normalizeRow [2; 6]).
Proof.
  assert (Hnn : nonneg [2; 6]) by (repeat (apply Forall_cons; [lra|]); apply Forall_nil).
  assert (Hnz : ~ sumQ [2; 6] == 0) by (intros Hc; vm_compute in Hc; discriminate Hc).
  destruct (normalizeRow_sums_to_one [2; 6] Hnn) as [_ Hn].
  destruct (Hn Hnz) as (_ & _ & Hs & _). split; [exact Hnn|]. split; assumption.
Defined.

Lemma nth_oneHot (n i k : nat) :
  (k < n)%nat -> nth k (oneHot n i) 0 = if Nat.eqb k i then 1 else 0.
Proof. intros Hk. unfold oneHot. now rewrite nth_map_seq. Qed.

Lemma length_oneHot (n i : nat) : length (oneHot n i) = n.
Proof. unfold oneHot. now rewrite length_map, length_seq. Qed.

(** One step from a state known for sure: the one-hot vector at [i] times a
    square matrix is row [i] of the matrix. *)
Theorem multiplyVectorMatrix_oneHot_row (n i : nat) (P : Matrix) :
  square n P -> (i < n)%nat ->
  sameVector (multiplyVectorMatrix (oneHot n i) P) (nth i P []).
Proof.
  intros [Hl Hr] Hi. apply sameVector_nth.
  rewrite length_multiplyVectorMatrix, length_oneHot.
  assert (Hrow : length (nth i P []) = n) by (apply Forall_nth_in; [exact Hr|lia]).
  split; [now rewrite Hrow|]. intros j.
  destruct (Nat.lt_ge_cases j n) as [Hj|Hj].
  - rewrite nth_multiplyVectorMatrix by (rewrite length_oneHot; exact Hj).
    rewrite length_oneHot. fold (entry P i j).
    rewrite <- (bigsum_delta (fun k => entry P k j) i n Hi).
    apply bigsum_ext. intros k Hk. now rewrite nth_oneHot.
  - rewrite !nth_overflow; [reflexivity|lia|].
    rewrite length_multiplyVectorMatrix, length_oneHot. exact Hj.
Qed.

Lemma multiplyVectorMatrix_oneHot_row_witness :
  sameVector (multiplyVectorMatrix (oneHot 5 2) identityMatrix) (nth 2 identityMatrix []).
Proof.
  exact (multiplyVectorMatrix_oneHot_row 5 2 identityMatrix identityMatrix_square
           ltac:(lia)).
Defined.

Lemma length_eliminationStep (n : nat) (M : Matrix) (i : nat) :
  length (eliminationStep n M i) = length M.
Proof.
  unfold eliminationStep. destruct (Qltb _ _).
  - apply length_swapRows.
  - now rewrite length_mapi, length_swapRows.
Qed.

Lemma length_eliminate_on (n : nat) (cols : list nat) (M : Matrix) :
  length (fold_left (eliminationStep n) cols M) = length M.
Proof.
  revert M. induction cols as [|i cols IH]; intros M; simpl; [reflexivity|].
  now rewrite IH, length_eliminationStep.
Qed.

(** [solveLinearSystem] never fails: whatever the system, singular or not,
    it returns one number per equation.  When no pivot is below the
    tolerance, these numbers solve every equation exactly. *)
Theorem solveLinearSystem_total_and_exact (A : Matrix) (b : Vector) :
  length (solveLinearSystem A b) = length A /\
  (square (length A) A -> regularSystem A b = true ->
   forall k, (k < length A)%nat ->
     bigsum (fun j => entry A k j * nth j (solveLinearSystem A b) 0) (length A)
     == nth k b 0).
Proof.
  split.
  - unfold solveLinearSystem, eliminate, augment.
    now rewrite length_map, length_eliminate_on, length_mapi.
  - intros Hsq Hreg. apply (solveLinearSystem_exact A b Hsq Hreg).
Qed.

Lemma solveLinearSystem_total_and_exact_witness :
  bigsum (fun j => entry [[2; 1]; [1; 3]] 0 j
                   * nth j (solveLinearSystem [[2; 1]; [1; 3]] [3; 5]) 0) 2 == 3.
Proof.
  assert (Hsq : square (length [[2; 1]; [1; 3]]) [[2; 1]; [1; 3]]).
  { split; [reflexivity|]. repeat (apply Forall_cons; [reflexivity|]). apply Forall_nil. }
  assert (Hreg : regularSystem [[2; 1]; [1; 3]] [3; 5] = true) by (vm_compute; reflexivity).
  destruct (solveLinearSystem_total_and_exact [[2; 1]; [1; 3]] [3; 5]) as [_ Hex].
  exact (Hex Hsq Hreg 0%nat ltac:(simpl; lia)).
Defined.

(** ** Further properties of the simulator *)

Lemma sumQ_repeat (c : Q) (n : nat) : sumQ (repeat c n) == inject_Z (Z.of_nat n) * c.
Proof.
  induction n as [|n IH].
  - cbn [repeat]. rewrite sumQ_nil. change (inject_Z (Z.of_nat 0)) with 0. ring.
  - cbn [repeat]. rewrite sumQ_cons, IH, Nat2Z.inj_succ.
    unfold Z.succ. rewrite inject_Z_plus. change (inject_Z 1) with 1. ring.
Qed.

Lemma sumQ_snoc (l : Vector) (x : Q) : sumQ (l ++ [x]) == sumQ l + x.
Proof. rewrite sumQ_app. reflexivity. Qed.

Lemma extendRow_spec (j : nat) (new : Q) :
  (1 <= j)%nat ->
  length (extendRow j new) = S j /\
  sumQ (extendRow j new) == 1 /\
  nth j (extendRow j new) 0 = new.
Proof.
  intros Hj. unfold extendRow.
  destruct (Nat.ltb_spec 0 j) as [_|Hc]; [|lia].
  split; [rewrite length_app, repeat_length; simpl; lia|]. split.
  - rewrite sumQ_snoc, sumQ_repeat.
    assert (Hpos : 0 < inject_Z (Z.of_nat j)).
    { change 0 with (inject_Z 0). rewrite <- Zlt_Qlt. lia. }
    field. lra.
  - rewrite app_nth2 by (rewrite repeat_length; lia).
    rewrite repeat_length, Nat.sub_diag. reflexivity.
Qed.

(** Editing outside the table: a row index past the last row fails (the
    TypeError, [None]); a column index [j >= 1] past the end of the row does
    not fail but grows row [i] to [j + 1] cells that sum to 1, with the
    clamped value in the new last cell, and leaves the other rows as they
    were. *)
Theorem updateMatrixProbability_out_of_range (P : Matrix) (i j : nat) (v : Q) :
  ((length P <= i)%nat -> updateMatrixProbability P i j v = None) /\
  ((i < length P)%nat -> (length (nth i P []) <= j)%nat -> (1 <= j)%nat ->
   exists M,
     updateMatrixProbability P i j v = Some M /\
     length M = length P /\
     length (nth i M []) = S j /\
     sumQ (nth i M []) == 1 /\
     entry M i j == clamp01 v /\
     forall k, k <> i -> nth k M [] = nth k P []).
Proof.
  unfold updateMatrixProbability. rewrite cloneMatrix_id. split.
  - intros Hi. apply nth_error_None in Hi. now rewrite Hi.
  - intros Hi Hlen Hj.
    rewrite (nth_error_nth_lt P i [] Hi).
    apply nth_error_None in Hlen. rewrite Hlen.
    destruct (extendRow_spec j (clamp01 v) Hj) as (Hl & Hs & Hn).
    destruct (normalizeRow_unit_sum _ Hs) as [Hns Hnn].
    eexists. split; [reflexivity|].
    split; [apply length_setAt|].
    unfold entry. rewrite nth_setAt_same by exact Hi.
    split; [now rewrite length_normalizeRow|]. split; [exact Hns|].
    split; [now rewrite Hnn, Hn|].
    intros k Hk. now apply nth_setAt_other.
Qed.

Lemma updateMatrixProbability_out_of_range_witness :
  updateMatrixProbability identityMatrix 7 0 0.5 = None.
Proof.
  apply (proj1 (updateMatrixProbability_out_of_range identityMatrix 7 0 0.5)).
  simpl. lia.
Defined.

(** Without perturbation the micro-habit rule gives back, as numbers, the
    matrix it started from, whatever row-stochastic 5x5 matrix that is. *)
Theorem applyMicroHabit_zero_impact (P : Matrix) :
  rowStochastic P -> square 5 P ->
  forall i j, entry (applyMicroHabit P 0) i j == entry P i j.
Proof.
  intros Hst [Hlen Hrows].
  destruct_length. invert_Forall. destruct_length.
  unfold rowStochastic in Hst. invert_Forall.
  unfold applyMicroHabit. rewrite cloneMatrix_id. cbn.
  repeat match goal with H : probVector _ |- _ => destruct H as [? ?] end.
  unfold nonneg in *. invert_Forall.
  repeat match goal with H : sumQ _ == _ |- _ => rewrite sumQ5 in H end.
  assert (Hmax : forall x, 0 <= x -> Qmax 0 (x - 0) == x).
  { intros x Hx. rewrite Q.max_r by lra. ring. }
  intros i j.
  assert (Hi : (i < 5)%nat \/ (5 <= i)%nat) by lia.
  destruct Hi as [Hi|Hi].
  - do 5 (destruct i as [|i];
          [unfold entry; cbn [nth];
           match goal with
           | |- nth j (normalizeRow ?r) 0 == _ =>
               let Hs := fresh "Hs" in
               assert (Hs : sumQ r == 1) by (rewrite sumQ5, Hmax by assumption; lra);
               rewrite (proj2 (normalizeRow_unit_sum r Hs))
           end;
           do 5 (destruct j as [|j]; [cbn [nth]; rewrite ?Hmax by assumption; ring|]);
           destruct j; reflexivity|]).
    lia.
  - unfold entry. do 5 (destruct i as [|i]; [lia|]). destruct i; destruct j; reflexivity.
Qed.

Lemma applyMicroHabit_zero_impact_witness :
  entry (applyMicroHabit cyclicMatrix 0) 0 1 == entry cyclicMatrix 0 1.
Proof.
  destruct cyclicMatrix_stochastic as [Hst Hsq].
  exact (applyMicroHabit_zero_impact cyclicMatrix Hst Hsq 0%nat 1%nat).
Defined.

Lemma runSimulation_timeline_days (config : SimulationConfig) (customMatrix : option Matrix) :
  let days := (years config * 365)%nat in
  map day (timeline (runSimulation config customMatrix)) =
  sampledDays days (sampleRateFor days).
Proof.
  cbv zeta. unfold runSimulation.
  set (days := (years config * 365)%nat).
  set (start := setAt (initialState config) 1.0 (repeat 0 STATES_COUNT)).
  set (Ph := match customMatrix with
             | Some m => cloneMatrix m
             | None => applyMicroHabit createBaselineMatrix (impactFactor config)
             end).
  pose proof (simulationLoop_days createBaselineMatrix Ph days (sampleRateFor days)
                (days + 1) 0 start start []) as Hdays.
  destruct (simulationLoop createBaselineMatrix Ph days (sampleRateFor days)
              (days + 1) 0 start start []) as [[vb vh] tl].
  cbn [timeline]. exact Hdays.
Qed.

Lemma filter_seq_sorted (f : nat -> bool) (len start : nat) :
  StronglySorted lt (filter f (seq start len)).
Proof.
  revert start. induction len as [|len IH]; intros start; simpl; [constructor|].
  destruct (f start); [|apply IH].
  constructor; [apply IH|].
  apply Forall_forall. intros x Hx. apply filter_In in Hx as [Hx _].
  apply in_seq in Hx. lia.
Qed.

(** The timeline of [runSimulation] is sampled at increasing days; it
    starts at day 0, ends at the last day of the horizon, and holds exactly
    the days up to the horizon that are multiples of the sampling rate,
    plus the last day. *)
Theorem runSimulation_timeline_sampling
    (config : SimulationConfig) (customMatrix : option Matrix) :
  let days := (years config * 365)%nat in
  let sampled := map day (timeline (runSimulation config customMatrix)) in
  hd_error sampled = Some 0%nat /\
  last sampled 0%nat = days /\
  StronglySorted lt sampled /\
  forall d, In d sampled <->
            (d <= days)%nat /\ ((d mod sampleRateFor days)%nat = 0%nat \/ d = days).
Proof.
  cbv zeta. rewrite runSimulation_timeline_days. cbv zeta.
  set (days := (years config * 365)%nat). set (rate := sampleRateFor days).
  unfold sampledDays. split; [|split; [|split]].
  - replace (days + 1)%nat with (S days) by lia. cbn [seq filter].
    rewrite Nat.Div0.mod_0_l. reflexivity.
  - rewrite Nat.add_1_r, seq_S, filter_app. cbn [filter Nat.add].
    rewrite Nat.eqb_refl, orb_true_r. apply last_last.
  - apply filter_seq_sorted.
  - intros d. rewrite filter_In, in_seq, orb_true_iff, !Nat.eqb_eq. split.
    + intros [Hr Hc]. split; [lia|exact Hc].
    + intros [Hr Hc]. split; [lia|exact Hc].
Qed.

Lemma calculateExpectedValue_range (v : Vector) :
  probVector v -> length v = 5%nat -> 0 <= calculateExpectedValue v <= 4.
Proof.
  intros [Hnn Hs] Hl. destruct_length. rewrite sumQ5 in Hs.
  unfold nonneg in Hnn. invert_Forall.
  rewrite calculateExpectedValue_bigsum. cbn [length bigsum nth].
  change (inject_Z (Z.of_nat 0)) with 0. change (inject_Z (Z.of_nat 1)) with 1.
  change (inject_Z (Z.of_nat 2)) with 2. change (inject_Z (Z.of_nat 3)) with 3.
  change (inject_Z (Z.of_nat 4)) with 4. lra.
Qed.

Lemma startVector_prob (i : nat) :
  (i < 5)%nat ->
  probVector (setAt i 1.0 (repeat 0 STATES_COUNT)) /\
  length (setAt i 1.0 (repeat 0 STATES_COUNT)) = 5%nat.
Proof.
  intros Hi. split; [|now rewrite length_setAt].
  do 5 (destruct i as [|i];
        [cbn; split; [repeat (apply Forall_cons; [lra|]); apply Forall_nil
                     |rewrite sumQ5; lra]|]).
  lia.
Qed.

Section SoundSimulation.
Variables (P_baseline P_habit : Matrix) (days sampleRate : nat).
Hypothesis baseline_ok : rowStochastic P_baseline /\ square 5 P_baseline.
Hypothesis habit_ok : rowStochastic P_habit /\ square 5 P_habit.

Lemma simulationLoop_sound (rounds t : nat) (v_base v_habit : Vector)
      (acc : list SimulationStep) :
  probVector v_base -> length v_base = 5%nat ->
  probVector v_habit -> length v_habit = 5%nat ->
  Forall soundStep acc ->
  let '(vb, vh, tl) :=
    simulationLoop P_baseline P_habit days sampleRate rounds t v_base v_habit acc in
  probVector vb /\ probVector vh /\ Forall soundStep tl.
Proof.
  destruct baseline_ok as [Hbs Hbq]. destruct habit_ok as [Hhs Hhq].
  revert t v_base v_habit acc.
  induction rounds as [|rounds IH]; intros t vb vh acc Hb Hbl Hh Hhl Hacc; simpl.
  - split; [exact Hb|split; [exact Hh|exact Hacc]].
  - assert (Hacc' : Forall soundStep
              (if (t mod sampleRate =? 0)%nat || (t =? days)%nat
               then acc ++ [ {| day := t;
                                baselineExpectedValue := calculateExpectedValue vb;
                                habitExpectedValue := calculateExpectedValue vh;
                                baselineDist := vb; habitDist := vh |} ]
               else acc)).
    { destruct (_ || _); [|exact Hacc].
      apply Forall_app. split; [exact Hacc|].
      constructor; [|constructor]. unfold soundStep. cbn.
      split; [exact Hb|]. split; [exact Hh|].
      split; now apply calculateExpectedValue_range. }
    destruct (t <? days)%nat.
    + apply IH; try exact Hacc'.
      * apply multiplyVectorMatrix_prob; [exact Hb|exact Hbs|now rewrite Hbl].
      * now rewrite length_multiplyVectorMatrix.
      * apply multiplyVectorMatrix_prob; [exact Hh|exact Hhs|now rewrite Hhl].
      * now rewrite length_multiplyVectorMatrix.
    + apply IH; assumption.
Qed.
End SoundSimulation.

(** With a start state among the five, a nonnegative perturbation and, if
    an override matrix is given, a row-stochastic 5x5 one, every entry of
    the timeline of [runSimulation] holds two probability distributions and
    expected values between 0 and 4, and the two final distributions are
    probability distributions. *)
Theorem runSimulation_distributions
    (config : SimulationConfig) (customMatrix : option Matrix) :
  (initialState config < 5)%nat -> 0 <= impactFactor config ->
  match customMatrix with
  | Some m => rowStochastic m /\ square 5 m
  | None => True
  end ->
  let r := runSimulation config customMatrix in
  Forall soundStep (timeline r) /\
  probVector (baselineFinalDist r) /\ probVector (habitFinalDist r).
Proof.
  intros Hi Hf Hcm. cbv zeta. unfold runSimulation.
  set (days := (years config * 365)%nat).
  set (start := setAt (initialState config) 1.0 (repeat 0 STATES_COUNT)).
  set (Ph := match customMatrix with
             | Some m => cloneMatrix m
             | None => applyMicroHabit createBaselineMatrix (impactFactor config)
             end).
  assert (HPh : rowStochastic Ph /\ square 5 Ph).
  { unfold Ph. destruct customMatrix as [m|].
    - now rewrite cloneMatrix_id.
    - destruct createBaselineMatrix_stochastic as [Hb Hsq].
      now apply applyMicroHabit_stochastic. }
  destruct (startVector_prob (initialState config) Hi) as [Hsp Hsl]. fold start in Hsp, Hsl.
  pose proof (simulationLoop_sound createBaselineMatrix Ph days (sampleRateFor days)
                createBaselineMatrix_stochastic HPh (days + 1) 0 start start []
                Hsp Hsl Hsp Hsl (Forall_nil _)) as Hsound.
  destruct (simulationLoop createBaselineMatrix Ph days (sampleRateFor days)
              (days + 1) 0 start start []) as [[vb vh] tl].
  cbn [timeline baselineFinalDist habitFinalDist].
  destruct Hsound as (Hb & Hh & Htl). split; [exact Htl|split; [exact Hb|exact Hh]].
Qed.

Lemma runSimulation_distributions_witness :
  probVector (habitFinalDist
                (runSimulation {| years := 1; impactFactor := 0.015; initialState := 0 |}
                               None)).
Proof.
  assert (Hi : (initialState {| years := 1; impactFactor := 0.015; initialState := 0 |}
                < 5)%nat) by (simpl; lia).
  assert (Hf : 0 <= impactFactor {| years := 1; impactFactor := 0.015; initialState := 0 |})
    by (simpl; lra).
  destruct (runSimulation_distributions
              {| years := 1; impactFactor := 0.015; initialState := 0 |} None Hi Hf I)
    as (_ & _ & Hh).
  exact Hh.
Defined.

(** ** The mobility chain of the convergence view *)

Module ConvergenceFacts.
Import Convergence.

Lemma mobilityMatrix_square (m : Q) : square 5 (mobilityMatrix m).
Proof. split; [reflexivity|]. repeat constructor. Qed.

Lemma step_spread (m c : Q) (v : Vector) :
  sameVector v (spread c) ->
  sameVector (multiplyVectorMatrix v (mobilityMatrix m)) (spread ((1 - m) * c)).
Proof.
  intros Hv.
  pose proof (multiplyVectorMatrix_same v (spread c) (mobilityMatrix m) (mobilityMatrix m)
                Hv (fun i j => Qeq_refl _)) as Hs.
  apply sameVector_nth in Hs as [Hl Hn]. apply sameVector_nth.
  split; [rewrite Hl; reflexivity|]. intros i. rewrite Hn. clear.
  do 5 (destruct i as [|i]; [cbn; change (inject_Z (Z.of_nat N)) with 5; field|]).
  destruct i; reflexivity.
Qed.

Lemma totalVariation_spread (c : Q) (v : Vector) :
  sameVector v (spread c) ->
  totalVariation v (repeat (1 / inject_Z (Z.of_nat N)) N) == 0.8 * Qabs c.
Proof.
  intros Hv. apply sameVector_nth in Hv as [_ Hn].
  unfold totalVariation. cbn [N seq fold_left repeat].
  rewrite !Hn. cbn [spread nth]. change (inject_Z (Z.of_nat 5)) with 5.
  assert (H0 : Qabs (1 / 5 + 4 / 5 * c - 1 / 5) == 0.8 * Qabs c).
  { assert (E : 1 / 5 + 4 / 5 * c - 1 / 5 == 0.8 * c) by field.
    assert (Ha : Qabs 0.8 == 0.8) by reflexivity.
    rewrite E, Qabs_Qmult, Ha. reflexivity. }
  assert (H1 : Qabs (1 / 5 - c / 5 - 1 / 5) == 0.2 * Qabs c).
  { assert (E : 1 / 5 - c / 5 - 1 / 5 == (- 0.2) * c) by field.
    assert (Ha : Qabs (- 0.2) == 0.2) by reflexivity.
    rewrite E, Qabs_Qmult, Ha. reflexivity. }
  rewrite H0, H1. field.
Qed.

Lemma Qpower_succ_nat (a : Q) (t : nat) : a ^ Z.of_nat (S t) == a * a ^ Z.of_nat t.
Proof.
  replace (Z.of_nat (S t)) with (1 + Z.of_nat t)%Z by lia.
  rewrite Qpower_plus' by lia. reflexivity.
Qed.

(** What the loop maintains: the distribution is [spread c] with
    [|c| = |lambda2|^t]. *)
Lemma convergenceLoop_exact (m : Q) (rounds t : nat) (c : Q) (dist : Vector)
      (acc : list ConvergenceDataPoint) :
  sameVector dist (spread c) ->
  Qabs c == Qabs (1 - m) ^ Z.of_nat t ->
  Forall (fun p => tvd p == theoreticalBound p) acc ->
  Forall (fun p => tvd p == theoreticalBound p)
         (convergenceLoop (mobilityMatrix m) (repeat (1 / inject_Z (Z.of_nat N)) N)
                          (1 - m) rounds t dist acc).
Proof.
  revert t c dist acc. induction rounds as [|rounds IH]; intros t c dist acc Hd Hc Hacc.
  - exact Hacc.
  - cbn [convergenceLoop]. apply (IH (S t) ((1 - m) * c)).
    + now apply step_spread.
    + rewrite Qabs_Qmult, Hc, Qpower_succ_nat. reflexivity.
    + apply Forall_app. split; [exact Hacc|]. constructor; [|constructor].
      cbn [tvd theoreticalBound]. rewrite (totalVariation_spread c dist Hd), Hc.
      reflexivity.
Qed.

Lemma convergenceLoop_steps (matrix : Matrix) (steady : Vector) (l2 : Q)
      (rounds t : nat) (dist : Vector) (acc : list ConvergenceDataPoint) :
  map step (convergenceLoop matrix steady l2 rounds t dist acc) =
  map step acc ++ seq t rounds.
Proof.
  revert t dist acc. induction rounds as [|rounds IH]; intros t dist acc.
  - cbn. now rewrite app_nil_r.
  - cbn [convergenceLoop]. rewrite IH, map_app, <- app_assoc. reflexivity.
Qed.

Lemma convergenceLoop_bounds (matrix : Matrix) (steady : Vector) (l2 : Q)
      (rounds t : nat) (dist : Vector) (acc : list ConvergenceDataPoint) :
  Forall (fun p => theoreticalBound p == 0.8 * Qabs l2 ^ Z.of_nat (step p)) acc ->
  Forall (fun p => theoreticalBound p == 0.8 * Qabs l2 ^ Z.of_nat (step p))
         (convergenceLoop matrix steady l2 rounds t dist acc).
Proof.
  revert t dist acc. induction rounds as [|rounds IH]; intros t dist acc Hacc.
  - exact Hacc.
  - cbn [convergenceLoop]. apply IH. apply Forall_app. split; [exact Hacc|].
    constructor; [|constructor]. cbn. reflexivity.
Qed.

(** For every mobility factor, the total variation distance recorded at
    each step of [runConvergenceSimulation] equals the curve recorded
    beside it, 0.8 |1 - m|^t: for this family of matrices the so-called
    theoretical bound is the distance itself.  The steps recorded are
    0, 1, ..., 50. *)
Theorem runConvergenceSimulation_tvd_exact (m : Q) :
  let r := runConvergenceSimulation m in
  map step (tvdData r) = seq 0 51 /\
  Forall (fun p => tvd p == theoreticalBound p /\
                   tvd p == 0.8 * Qabs (1 - m) ^ Z.of_nat (step p)) (tvdData r).
Proof.
  cbv zeta. unfold runConvergenceSimulation. cbn [tvdData]. split.
  - rewrite convergenceLoop_steps. reflexivity.
  - pose proof (convergenceLoop_exact m (50 + 1) 0 1 [1; 0; 0; 0; 0] []) as He.
    pose proof (convergenceLoop_bounds (mobilityMatrix m)
                  (repeat (1 / inject_Z (Z.of_nat N)) N) (1 - m) (50 + 1) 0
                  [1; 0; 0; 0; 0] [] (Forall_nil _)) as Hb.
    assert (Hs : sameVector [1; 0; 0; 0; 0] (spread 1)).
    { unfold spread. repeat constructor; field. }
    specialize (He Hs (Qeq_refl _) (Forall_nil _)).
    rewrite Forall_forall in He, Hb. apply Forall_forall. intros p Hp.
    split; [now apply He|]. rewrite (He p Hp). now apply Hb.
Qed.

(** The mobility matrix is 5x5 and each of its rows sums to 1 whatever
    the factor; with the factor between 0 and 1 its entries are
    nonnegative, so it is row-stochastic, and the uniform distribution is
    left unchanged by one step of the chain. *)
Theorem mobilityMatrix_stochastic (m : Q) :
  0 <= m <= 1 ->
  rowStochastic (mobilityMatrix m) /\ square 5 (mobilityMatrix m) /\
  sameVector (multiplyVectorMatrix (repeat (1 / 5) 5) (mobilityMatrix m))
             (repeat (1 / 5) 5).
Proof.
  intros Hm. split; [|split; [apply mobilityMatrix_square|]].
  - assert (Hu : 1 / inject_Z (Z.of_nat N) == 0.2) by reflexivity.
    unfold mobilityMatrix. cbn [N seq map Nat.eqb]. fold N.
    repeat (apply Forall_cons;
            [split; [repeat (apply Forall_cons; [rewrite Hu; lra|]); apply Forall_nil
                    |rewrite sumQ5, Hu; lra]|]).
    apply Forall_nil.
  - cbn. change (inject_Z (Z.of_nat N)) with 5. repeat constructor; field.
Qed.

Lemma mobilityMatrix_stochastic_witness :
  rowStochastic (mobilityMatrix 0.3).
Proof.
  assert (H : 0 <= 0.3 <= 1) by lra.
  exact (proj1 (mobilityMatrix_stochastic 0.3 H)).
Defined.

End ConvergenceFacts.

(** ** Further properties of the mixing-time heuristic *)

Lemma changeAt_first (P : Matrix) :
  changeAt P 1 == l1Distance 5 (nth 0 P []) [1; 0; 0; 0; 0].
Proof.
  unfold changeAt, distAfter, l1Change, l1Distance, multiplyVectorMatrix.
  cbn [Nat.sub iterate length seq map fold_left nth STATES_COUNT bigsum].
  fold (entry P 0 0) (entry P 0 1) (entry P 0 2) (entry P 0 3) (entry P 0 4).
  assert (E : forall j c,
             Qabs (0 + 1 * entry P 0 j + 0 * entry P 1 j + 0 * entry P 2 j
                   + 0 * entry P 3 j + 0 * entry P 4 j - c) ==
             Qabs (entry P 0 j - c)).
  { intros j c. apply Qabs_wd. ring. }
  rewrite !E. reflexivity.
Qed.

(** The mixing time is 1 exactly when the row of state 0 is within 1e-5
    (in L1 distance) of the one-hot vector of state 0, that is, when the
    start state is left with almost no probability: the first step then
    changes the distribution by less than the threshold. *)
Theorem calculateMixingTime_one_iff (P : Matrix) :
  calculateMixingTime P = 1%nat <->
  l1Distance 5 (nth 0 P []) [1; 0; 0; 0; 0] < 0.00001.
Proof.
  rewrite <- changeAt_first.
  assert (H : let r := calculateMixingTime P in
              (1 <= r <= maxSteps)%nat /\
              ((r < maxSteps)%nat /\ changeAt P r < threshold /\
               (forall u, (1 <= u < r)%nat -> ~ changeAt P u < threshold)
               \/
               r = maxSteps /\
               (forall u, (1 <= u < maxSteps)%nat -> ~ changeAt P u < threshold)))
    by exact (mixingLoop_spec P (maxSteps - 1) 1 ltac:(lia) ltac:(reflexivity)).
  cbv zeta in H. remember (calculateMixingTime P) as r eqn:Er. clear Er.
  change threshold with 0.00001 in H.
  destruct H as [Hr [(Hlt & Hc & Hfirst)|(Hmax & Hnone)]].
  - split.
    + intros E. rewrite E in Hc. exact Hc.
    + intros E. destruct (Nat.eq_dec r 1) as [E1|N1]; [exact E1|].
      exfalso. apply (Hfirst 1%nat); [lia|exact E].
  - split.
    + intros E. rewrite E in Hmax. discriminate Hmax.
    + intros E. exfalso. apply (Hnone 1%nat); [unfold maxSteps; lia|exact E].
Qed.

(** ** Further properties of the parametric matrix *)

Lemma parametricRow_flag (e r : Q) (a b : bool) (base : Matrix) (i : nat) :
  parametricRow {| effort := e; risk := r; isAbsorbing := a |} base i =
  parametricRow {| effort := e; risk := r; isAbsorbing := b |} base i.
Proof. unfold parametricRow. cbn [effort risk]. reflexivity. Qed.

(** The lock-in flag changes nothing but the row of the top state: the
    other four rows are the same with the flag on and off, and with the
    flag on the top row is the unit vector of the top state. *)
Theorem generateParametricMatrix_lock_top_row_only (e r : Q) :
  let locked := generateParametricMatrix {| effort := e; risk := r; isAbsorbing := true |} in
  let free := generateParametricMatrix {| effort := e; risk := r; isAbsorbing := false |} in
  length locked = 5%nat /\ length free = 5%nat /\
  nth 4 locked [] = [0; 0; 0; 0; 1] /\
  forall i, i <> 4%nat -> nth i locked [] = nth i free [].
Proof.
  cbv zeta. unfold generateParametricMatrix.
  split; [now rewrite length_map, length_seq|].
  split; [now rewrite length_map, length_seq|].
  split; [now rewrite nth_map_seq by (unfold STATES_COUNT; lia)|].
  intros i Hi. destruct (Nat.lt_ge_cases i STATES_COUNT) as [Hlt|Hge].
  - rewrite !nth_map_seq by exact Hlt. cbn [isAbsorbing andb].
    destruct (Nat.eqb_spec i (STATES_COUNT - 1)) as [E|_].
    + unfold STATES_COUNT in E. lia.
    + now rewrite (parametricRow_flag e r true false).
  - rewrite !nth_overflow by (now rewrite length_map, length_seq). reflexivity.
Qed.

Lemma parametricRow_no_risk (config : PathConfig) (base : Matrix) (i j : nat) :
  rowStochastic base -> square 5 base ->
  0 <= effort config <= 1 -> risk config == 0 -> (i < 4)%nat ->
  nth j (normalizeRow (parametricRow config base i)) 0 ==
  entry base i j +
  (if (j =? i)%nat then - (effort config * entry base i i * 0.8)
   else if (j =? i + 1)%nat then effort config * entry base i i * 0.8 else 0).
Proof.
  intros Hst [Hlen Hrows] [He0 He1] Hrisk Hi.
  destruct_length. invert_Forall. destruct_length.
  unfold rowStochastic in Hst. invert_Forall.
  repeat match goal with H : probVector _ |- _ => destruct H as [? ?] end.
  unfold nonneg in *. invert_Forall.
  repeat match goal with H : sumQ _ == _ |- _ => rewrite sumQ5 in H end.
  assert (Hrf : risk config * 0.3 == 0) by lra.
  assert (Hr0 : 0 <= risk config) by lra.
  assert (Hcases : i = 0%nat \/ i = 1%nat \/ i = 2%nat \/ i = 3%nat) by lia.
  clear Hi. destruct Hcases as [->|[->|[-> | ->]]];
    unfold parametricRow, normalizeRow, entry; cbn; abstract_risk;
    match goal with
    | |- context [effort config * ?a * 0.8] =>
        let Hs := fresh "Hs" in
        assert (Hs : 0 <= effort config * a * 0.8 /\ effort config * a * 0.8 <= a)
          by (apply shift_bounds; assumption);
        destruct Hs; set (sh := effort config * a * 0.8) in *; clearbody sh
    end;
    repeat match goal with
    | |- context [Qmax 0 ?x] =>
        let E := fresh "E" in
        let m := fresh "m" in
        assert (E : Qmax 0 x == x) by (apply Q.max_r; lra);
        set (m := Qmax 0 x) in *; clearbody m
    end;
    match goal with
    | |- context [Qeq_bool ?s 0] =>
        let Hs := fresh "Hsum" in
        assert (Hs : s == 1) by (rewrite sumQ5; lra);
        let Eb := fresh "Eb" in
        destruct (Qeq_bool s 0) eqn:Eb;
        [apply Qeq_bool_iff in Eb; exfalso; lra|];
        do 5 (destruct j as [|j];
              [cbn; unfold Qdiv; rewrite Hs; change (/ 1) with 1; lra|]);
        destruct j; cbn; lra
    end.
Qed.

Lemma parametricRow_no_risk_top (config : PathConfig) (base : Matrix) (j : nat) :
  rowStochastic base -> square 5 base -> risk config == 0 ->
  nth j (normalizeRow (parametricRow config base 4)) 0 == entry base 4 j.
Proof.
  intros Hst [Hlen Hrows] Hrisk.
  destruct_length. invert_Forall. destruct_length.
  unfold rowStochastic in Hst. invert_Forall.
  repeat match goal with H : probVector _ |- _ => destruct H as [? ?] end.
  unfold nonneg in *. invert_Forall.
  repeat match goal with H : sumQ _ == _ |- _ => rewrite sumQ5 in H end.
  assert (Hrf : risk config * 0.3 == 0) by lra.
  assert (Hr0 : 0 <= risk config) by lra.
  unfold parametricRow, normalizeRow, entry; cbn; abstract_risk.
  repeat match goal with
  | |- context [Qmax 0 ?x] =>
      let E := fresh "E" in
      let m := fresh "m" in
      assert (E : Qmax 0 x == x) by (apply Q.max_r; lra);
      set (m := Qmax 0 x) in *; clearbody m
  end.
  match goal with
  | |- context [Qeq_bool ?s 0] =>
      let Hs := fresh "Hsum" in
      assert (Hs : s == 1) by (rewrite sumQ5; lra);
      let Eb := fresh "Eb" in
      destruct (Qeq_bool s 0) eqn:Eb;
      [apply Qeq_bool_iff in Eb; exfalso; lra|];
      do 5 (destruct j as [|j];
            [cbn; unfold Qdiv; rewrite Hs; change (/ 1) with 1; lra|]);
      destruct j; cbn; lra
  end.
Qed.

(** Without risk, effort is all that moves the matrix away from the
    baseline: in each of the four lower rows, the share
    [0.8 * effort] of the probability of staying is moved to the next
    state up and every other entry is the baseline's; the top row, when it
    is not locked, is the baseline's. *)
Theorem generateParametricMatrix_effort_only (config : PathConfig) :
  0 <= effort config <= 1 -> risk config == 0 ->
  let G := generateParametricMatrix config in
  let B := createBaselineMatrix in
  forall i j,
    ((i < 4)%nat ->
     entry G i j ==
     entry B i j +
     (if (j =? i)%nat then - (effort config * entry B i i * 0.8)
      else if (j =? i + 1)%nat then effort config * entry B i i * 0.8 else 0)) /\
    (isAbsorbing config = false -> entry G 4 j == entry B 4 j).
Proof.
  intros He Hr. cbv zeta. intros i j.
  destruct createBaselineMatrix_stochastic as [Hb Hsq]. split.
  - intros Hi. unfold entry at 1. unfold generateParametricMatrix.
    rewrite nth_map_seq by (unfold STATES_COUNT; lia).
    destruct (Nat.eqb_spec i (STATES_COUNT - 1)) as [E|_];
      [unfold STATES_COUNT in E; lia|].
    rewrite andb_false_r. now apply parametricRow_no_risk.
  - intros Hab. unfold entry at 1. unfold generateParametricMatrix.
    rewrite nth_map_seq by (unfold STATES_COUNT; lia).
    rewrite Hab. cbn [andb]. now apply parametricRow_no_risk_top.
Qed.

Lemma generateParametricMatrix_effort_only_witness :
  let config := {| effort := 0.5; risk := 0; isAbsorbing := false |} in
  entry (generateParametricMatrix config) 4 2 == entry createBaselineMatrix 4 2.
Proof.
  cbv zeta.
  assert (He : 0 <= effort {| effort := 0.5; risk := 0; isAbsorbing := false |} <= 1)
    by (simpl; lra).
  assert (Hr : risk {| effort := 0.5; risk := 0; isAbsorbing := false |} == 0)
    by reflexivity.
  exact (proj2 (generateParametricMatrix_effort_only _ He Hr 4%nat 2%nat) eq_refl).
Defined.

(** ** Further properties of the capital dynamics *)

Module WealthDynamics.
Import Wealth.

Lemma midpoint_between (low high : Q) :
  low <= high -> low <= (low + high) / 2 /\ (low + high) / 2 <= high.
Proof.
  intros Hlh. assert (E : (low + high) / 2 + (low + high) / 2 == low + high) by field.
  set (mid := (low + high) / 2) in *. clearbody mid. split; lra.
Qed.

Lemma bisect_within (config : WealthConfig) (iter : nat) (low high : Q) :
  low <= high ->
  low <= fst (bisect config iter low high) /\
  fst (bisect config iter low high) <= snd (bisect config iter low high) /\
  snd (bisect config iter low high) <= high.
Proof.
  revert low high. induction iter as [|iter IH]; intros low high Hlh.
  - cbn. repeat split; lra.
  - cbn [bisect]. destruct (midpoint_between low high Hlh) as [H1 H2].
    destruct (Qltb _ 0).
    + destruct (IH low ((low + high) / 2) H1) as (Ha & Hb & Hc). repeat split; lra.
    + destruct (IH ((low + high) / 2) high H2) as (Ha & Hb & Hc). repeat split; lra.
Qed.

(** Bisection keeps its interval inside the one it was given and halves
    its width in every round, whatever the signs of the net growth are. *)
Theorem bisect_halves_interval (config : WealthConfig) (iter : nat) (low high : Q) :
  low <= high ->
  let lh := bisect config iter low high in
  low <= fst lh /\ fst lh <= snd lh /\ snd lh <= high /\
  (snd lh - fst lh) * inject_Z (2 ^ Z.of_nat iter) == high - low.
Proof.
  intros Hlh. cbv zeta.
  destruct (bisect_within config iter low high Hlh) as (Ha & Hb & Hc).
  split; [exact Ha|]. split; [exact Hb|]. split; [exact Hc|].
  clear. revert low high. induction iter as [|iter IH]; intros low high.
  - cbn [bisect fst snd]. change (inject_Z (2 ^ Z.of_nat 0)) with 1. ring.
  - cbn [bisect].
    assert (E2 : inject_Z (2 ^ Z.of_nat (S iter)) == 2 * inject_Z (2 ^ Z.of_nat iter)).
    { rewrite Nat2Z.inj_succ, Z.pow_succ_r by lia. rewrite inject_Z_mult. reflexivity. }
    rewrite E2. destruct (Qltb _ 0).
    + specialize (IH low ((low + high) / 2)).
      setoid_replace ((snd (bisect config iter low ((low + high) / 2))
                       - fst (bisect config iter low ((low + high) / 2)))
                      * (2 * inject_Z (2 ^ Z.of_nat iter)))
        with (2 * ((snd (bisect config iter low ((low + high) / 2))
                    - fst (bisect config iter low ((low + high) / 2)))
                   * inject_Z (2 ^ Z.of_nat iter))) by ring.
      rewrite IH. field.
    + specialize (IH ((low + high) / 2) high).
      setoid_replace ((snd (bisect config iter ((low + high) / 2) high)
                       - fst (bisect config iter ((low + high) / 2) high))
                      * (2 * inject_Z (2 ^ Z.of_nat iter)))
        with (2 * ((snd (bisect config iter ((low + high) / 2) high)
                    - fst (bisect config iter ((low + high) / 2) high))
                   * inject_Z (2 ^ Z.of_nat iter))) by ring.
      rewrite IH. field.
Qed.

Lemma bisect_halves_interval_witness :
  (snd (bisect defaultConfig 20 0 0.1) - fst (bisect defaultConfig 20 0 0.1))
  * inject_Z (2 ^ Z.of_nat 20) == 0.1 - 0.
Proof.
  assert (Hlh : 0 <= 0.1) by lra.
  exact (proj2 (proj2 (proj2 (bisect_halves_interval defaultConfig 20 0 0.1 Hlh)))).
Defined.

End WealthDynamics.

(** ** Further properties of the simulator *)

Lemma simulationLoop_snapshots (Pb Ph : Matrix) (days sampleRate : nat) (start : Vector)
      (rounds t : nat) (acc : list SimulationStep) :
  (t + rounds = days + 1)%nat -> (t <= days)%nat ->
  simulationLoop Pb Ph days sampleRate rounds t
    (iterate t (fun v => multiplyVectorMatrix v Pb) start)
    (iterate t (fun v => multiplyVectorMatrix v Ph) start) acc =
  (iterate days (fun v => multiplyVectorMatrix v Pb) start,
   iterate days (fun v => multiplyVectorMatrix v Ph) start,
   acc ++ map (snapshot Pb Ph start)
              (filter (fun t => (t mod sampleRate =? 0)%nat || (t =? days)%nat)
                      (seq t rounds))).
Proof.
  revert t acc. induction rounds as [|rounds IH]; intros t acc Hsum Ht; [lia|].
  cbn [simulationLoop seq filter].
  destruct (Nat.ltb_spec t days) as [Hlt|Hge].
  - pose proof (iterate_succ t (fun v => multiplyVectorMatrix v Pb) start) as Eb.
    pose proof (iterate_succ t (fun v => multiplyVectorMatrix v Ph) start) as Eh.
    cbv beta in Eb, Eh. rewrite <- Eb, <- Eh. rewrite IH by lia.
    f_equal. destruct ((t mod sampleRate =? 0)%nat || (t =? days)%nat).
    + cbn [map]. rewrite <- app_assoc. reflexivity.
    + reflexivity.
  - assert (rounds = 0%nat) by lia. assert (t = days) by lia. subst rounds t.
    cbn [simulationLoop seq filter map]. f_equal.
    destruct ((days mod sampleRate =? 0)%nat || (days =? days)%nat); [reflexivity|].
    now rewrite app_nil_r.
Qed.

Lemma runSimulation_fields (config : SimulationConfig) (customMatrix : option Matrix) :
  let r := runSimulation config customMatrix in
  probabilityImprovement r =
  (nth 4 (habitFinalDist r) 0 - nth 4 (baselineFinalDist r) 0)
  / Qmax (nth 4 (baselineFinalDist r) 0) 0.0001 * 100.
Proof.
  cbv zeta. unfold runSimulation.
  destruct (simulationLoop _ _ _ _ _ _ _ _ _) as [[vb vh] tl]. reflexivity.
Qed.

(** [runSimulation] in closed form, for a start state among the five and,
    if an override matrix is given, a 5x5 one: the start vector is the
    one-hot vector of the start state; the timeline is the list of
    snapshots at the sampled days, each holding the start vector advanced
    by as many steps as its day says, under the baseline and under the
    habit matrix; the final distributions are the start vector advanced by
    the whole horizon. *)
Theorem runSimulation_closed_form
    (config : SimulationConfig) (customMatrix : option Matrix) :
  (initialState config < 5)%nat ->
  match customMatrix with
  | Some m => square 5 m
  | None => True
  end ->
  let days := (years config * 365)%nat in
  let start := setAt (initialState config) 1.0 (repeat 0 STATES_COUNT) in
  let r := runSimulation config customMatrix in
  (length start = 5%nat /\
   forall k, nth k start 0 == if Nat.eqb k (initialState config) then 1 else 0) /\
  timeline r =
    map (snapshot (baselineMatrix r) (habitMatrix r) start)
        (sampledDays days (sampleRateFor days)) /\
  baselineFinalDist r =
    iterate days (fun v => multiplyVectorMatrix v (baselineMatrix r)) start /\
  habitFinalDist r =
    iterate days (fun v => multiplyVectorMatrix v (habitMatrix r)) start.
Proof.
  intros Hi _. cbv zeta. split.
  - split; [now rewrite length_setAt|]. intros k.
    destruct (Nat.lt_ge_cases k 5) as [Hk|Hk].
    + rewrite nth_setAt by exact Hk.
      destruct (Nat.eqb k (initialState config)); [reflexivity|].
      do 5 (destruct k as [|k]; [reflexivity|]). lia.
    + rewrite nth_overflow by (rewrite length_setAt; exact Hk).
      destruct (Nat.eqb_spec k (initialState config)); [lia|reflexivity].
  - unfold runSimulation.
    set (days := (years config * 365)%nat).
    set (start := setAt (initialState config) 1.0 (repeat 0 STATES_COUNT)).
    set (Ph := match customMatrix with
               | Some m => cloneMatrix m
               | None => applyMicroHabit createBaselineMatrix (impactFactor config)
               end).
    pose proof (simulationLoop_snapshots createBaselineMatrix Ph days (sampleRateFor days)
                  start (days + 1) 0 [] ltac:(lia) ltac:(lia)) as Hloop.
    cbn [iterate] in Hloop. rewrite Hloop.
    cbn [timeline baselineFinalDist habitFinalDist baselineMatrix habitMatrix app].
    repeat split; reflexivity.
Qed.

Lemma runSimulation_closed_form_witness :
  let config := {| years := 1; impactFactor := 0.015; initialState := 1 |} in
  let r := runSimulation config None in
  habitFinalDist r =
  iterate (years config * 365) (fun v => multiplyVectorMatrix v (habitMatrix r))
          (setAt (initialState config) 1.0 (repeat 0 STATES_COUNT)).
Proof.
  intros config r.
  assert (Hi : (initialState config < 5)%nat) by (unfold config; simpl; lia).
  destruct (runSimulation_closed_form config None Hi I) as (_ & _ & _ & Hh).
  exact Hh.
Defined.

(** The improvement percentage never divides by zero: its denominator is
    at least 0.0001.  It is positive, zero or negative exactly as the
    habit chain ends with more, the same or less probability at the top
    than the baseline chain. *)
Theorem runSimulation_improvement_sign
    (config : SimulationConfig) (customMatrix : option Matrix) :
  let r := runSimulation config customMatrix in
  let top_habit := nth 4 (habitFinalDist r) 0 in
  let top_base := nth 4 (baselineFinalDist r) 0 in
  0.0001 <= Qmax top_base 0.0001 /\
  probabilityImprovement r * Qmax top_base 0.0001 == 100 * (top_habit - top_base) /\
  (0 < probabilityImprovement r <-> top_base < top_habit) /\
  (probabilityImprovement r == 0 <-> top_habit == top_base) /\
  (probabilityImprovement r < 0 <-> top_habit < top_base).
Proof.
  cbv zeta. rewrite runSimulation_fields. cbv zeta.
  set (h := nth 4 (habitFinalDist (runSimulation config customMatrix)) 0).
  set (b := nth 4 (baselineFinalDist (runSimulation config customMatrix)) 0).
  clearbody h b.
  pose proof (Q.le_max_r b 0.0001) as Hd.
  set (d := Qmax b 0.0001) in *. clearbody d.
  assert (Hpos : 0 < d) by lra.
  assert (Hq : (h - b) / d * d == h - b) by (field; lra).
  set (q := (h - b) / d) in *. clearbody q.
  split; [exact Hd|]. split; [lra|].
  repeat split; intros; nra.
Qed.

Lemma nth_normalizeRow_pos (row : Vector) (j : nat) :
  0 < sumQ row -> nth j (normalizeRow row) 0 == nth j row 0 / sumQ row.
Proof.
  intros Hs. unfold normalizeRow.
  destruct (Qeq_bool (sumQ row) 0) eqn:E; [apply Qeq_bool_iff in E; lra|].
  destruct (Nat.lt_ge_cases j (length row)) as [Hj|Hj].
  - rewrite (nth_map_lt (X := Q) (Y := Q)) with (d := 0) by exact Hj. reflexivity.
  - rewrite !nth_overflow by (rewrite ?length_map; exact Hj). field. lra.
Qed.

Lemma raised_share (u f s : Q) :
  0 <= u <= 1 -> 0 <= f -> 1 <= s <= 1 + f -> u <= (u + f) / s.
Proof. intros Hu Hf Hs. apply Qle_shift_div_l; [lra|]. nra. Qed.

Lemma lowered_share (m d s : Q) : 0 <= m <= d -> 1 <= s -> m / s <= d.
Proof. intros Hm Hs. apply Qle_shift_div_r; [lra|]. nra. Qed.

(** Replace every [Qmax 0 (a - f)] by a fresh number between [a - f] and
    [a], and at least 0. *)
Ltac bound_lowered :=
  repeat match goal with
  | |- context [Qmax 0 (?a - ?f)] =>
      let m := fresh "m" in
      pose proof (Q.le_max_l 0 (a - f)); pose proof (Q.le_max_r 0 (a - f));
      assert (Qmax 0 (a - f) <= a) by (apply Q.max_lub; lra);
      set (m := Qmax 0 (a - f)) in *; clearbody m
  end.

(** The micro-habit rule never lowers the probability of moving one state
    up (of staying, at the top) and never raises the probability of moving
    one state down (of staying, at the bottom), for every row-stochastic
    5x5 matrix and every perturbation [f >= 0]. *)
Theorem applyMicroHabit_moves_up (P : Matrix) (f : Q) :
  rowStochastic P -> square 5 P -> 0 <= f ->
  let M := applyMicroHabit P f in
  (forall i, (i < 4)%nat -> entry P i (i + 1) <= entry M i (i + 1)) /\
  entry P 4 4 <= entry M 4 4 /\
  (forall i, (1 <= i < 5)%nat -> entry M i (i - 1) <= entry P i (i - 1)) /\
  entry M 0 0 <= entry P 0 0.
Proof.
  intros Hst [Hlen Hrows] Hf. cbv zeta.
  destruct_length. invert_Forall. destruct_length.
  unfold rowStochastic in Hst. invert_Forall.
  unfold applyMicroHabit. rewrite cloneMatrix_id. cbn.
  repeat match goal with H : probVector _ |- _ => destruct H as [? ?] end.
  unfold nonneg in *. invert_Forall.
  repeat match goal with H : sumQ _ == _ |- _ => rewrite sumQ5 in H end.
  assert (Hup : forall u s, 0 <= u <= 1 -> 1 <= s <= 1 + f -> u <= (u + f) / s)
    by (intros; now apply raised_share).
  bound_lowered.
  repeat split.
  - intros i Hi.
    do 4 (destruct i as [|i];
          [unfold entry; cbn [nth Nat.add];
           rewrite nth_normalizeRow_pos by (rewrite sumQ5; lra);
           cbn [nth]; rewrite sumQ5; apply Hup; lra|]).
    lia.
  - unfold entry; cbn [nth].
    rewrite nth_normalizeRow_pos by (rewrite sumQ5; lra).
    cbn [nth]; rewrite sumQ5; apply Hup; lra.
  - intros i Hi. destruct i as [|i]; [lia|].
    do 4 (destruct i as [|i];
          [unfold entry; cbn [nth Nat.sub];
           rewrite nth_normalizeRow_pos by (rewrite sumQ5; lra);
           cbn [nth]; rewrite sumQ5; apply lowered_share; lra|]).
    lia.
  - unfold entry; cbn [nth].
    rewrite nth_normalizeRow_pos by (rewrite sumQ5; lra).
    cbn [nth]; rewrite sumQ5; apply lowered_share; lra.
Qed.

Lemma applyMicroHabit_moves_up_witness :
  entry createBaselineMatrix 4 4 <= entry (applyMicroHabit createBaselineMatrix 0.015) 4 4.
Proof.
  destruct createBaselineMatrix_stochastic as [Hst Hsq].
  assert (Hf : 0 <= 0.015) by lra.
  exact (proj1 (proj2 (applyMicroHabit_moves_up createBaselineMatrix 0.015 Hst Hsq Hf))).
Defined.

(** ** The interactive matrix *)

Lemma nonneg_of_nth (v : Vector) :
  (forall k, (k < length v)%nat -> 0 <= nth k v 0) -> nonneg v.
Proof.
  intros Hn. apply Forall_forall. intros x Hx.
  destruct (In_nth _ _ 0 Hx) as (k & Hk & <-). now apply Hn.
Qed.

Lemma updateMatrixProbability_stochastic (P : Matrix) (i j : nat) (v : Q) :
  rowStochastic P -> square 5 P -> (i < 5)%nat -> (j < 5)%nat ->
  exists M,
    updateMatrixProbability P i j v = Some M /\ rowStochastic M /\ square 5 M.
Proof.
  intros Hst Hsq Hi Hj. pose proof Hsq as [Hlen Hrows].
  assert (Hi' : (i < length P)%nat) by lia.
  pose proof (Forall_nth_in _ P i [] Hrows Hi') as Hrl. cbv beta in Hrl.
  pose proof (Forall_nth_in _ P i [] Hst Hi') as [Hnn Hs].
  pose proof (clamp01_range v) as Hc.
  unfold updateMatrixProbability. rewrite cloneMatrix_id.
  rewrite (nth_error_nth_lt P i [] Hi').
  rewrite (nth_error_nth_lt (nth i P []) j 0) by (rewrite Hrl; exact Hj).
  destruct (Qeq_bool (nth j (nth i P []) 0) (clamp01 v)) eqn:E.
  - exists P. split; [reflexivity|]. split; assumption.
  - destruct (rescaleRow_spec (nth i P []) j (clamp01 v) Hrl Hj Hs)
      as (Hl' & Hs' & Hj' & Hprop & Heven).
    set (old := nth j (nth i P []) 0) in *.
    set (row' := rescaleRow (nth i P []) j old (clamp01 v)) in *.
    destruct (normalizeRow_unit_sum row' Hs') as [Hns Hnorm].
    assert (Hold : old <= 1).
    { rewrite <- Hs. apply nth_le_sumQ. exact Hnn. }
    exists (setAt i (normalizeRow row') P).
    split; [reflexivity|]. split.
    + apply Forall_forall. intros r Hr.
      destruct (In_nth _ _ [] Hr) as (k & Hk & <-). rewrite length_setAt in Hk.
      rewrite nth_setAt by exact Hk. destruct (Nat.eqb k i).
      * split; [|exact Hns]. apply nonneg_of_nth. intros c Hcl.
        rewrite length_normalizeRow, Hl' in Hcl. rewrite Hnorm.
        destruct (Nat.eq_dec c j) as [->|Hne]; [rewrite Hj'; lra|].
        assert (Hrow : 0 <= nth c (nth i P []) 0).
        { apply (Forall_nth_in _ _ c 0 Hnn). now rewrite Hrl. }
        destruct (Qlt_le_dec 0.0001 (1 - old)) as [Hbig|Hsmall].
        -- rewrite (Hprop Hbig c Hcl Hne).
           apply Qmult_le_0_compat; [exact Hrow|].
           apply Qle_shift_div_l; lra.
        -- rewrite (Heven Hsmall c Hcl Hne). apply Qle_shift_div_l; lra.
      * now apply Forall_nth_in.
    + apply square_setAt; [exact Hsq|]. now rewrite length_normalizeRow.
Qed.

(** The interactive matrix stays a transition matrix: from a
    row-stochastic 5x5 matrix, every session of edits at cells of the table
    succeeds, whatever values are typed, and ends in a row-stochastic 5x5
    matrix. *)
Theorem editSession_keeps_stochastic (P : Matrix) (edits : list (nat * nat * Q)) :
  rowStochastic P -> square 5 P ->
  Forall (fun e => (fst (fst e) < 5)%nat /\ (snd (fst e) < 5)%nat) edits ->
  exists M, editSession P edits = Some M /\ rowStochastic M /\ square 5 M.
Proof.
  intros Hst Hsq Hed. revert P Hst Hsq.
  induction Hed as [|[[i j] v] edits [Hi Hj] _ IH]; intros P Hst Hsq.
  - exists P. split; [reflexivity|]. split; assumption.
  - cbn [fst snd] in Hi, Hj. cbn [editSession].
    destruct (updateMatrixProbability_stochastic P i j v Hst Hsq Hi Hj)
      as (M & HM & HstM & HsqM).
    rewrite HM. now apply IH.
Qed.

Lemma editSession_keeps_stochastic_witness :
  exists M,
    editSession createBaselineMatrix [ (0%nat, 0%nat, 0.5); (4%nat, 3%nat, 2) ] = Some M /\
    rowStochastic M /\ square 5 M.
Proof.
  destruct createBaselineMatrix_stochastic as [Hst Hsq].
  apply (editSession_keeps_stochastic createBaselineMatrix _ Hst Hsq).
  repeat (apply Forall_cons; [cbn [fst snd]; split; lia|]). apply Forall_nil.
Defined.

Lemma rescaleRow_cells (row : Vector) (j : nat) (new : Q) :
  length row = 5%nat -> (j < 5)%nat ->
  let old := nth j row 0 in
  let row' := rescaleRow row j old new in
  length row' = 5%nat /\
  nth j row' 0 == new /\
  (0.0001 < 1 - old ->
   forall j', (j' < 5)%nat -> j' <> j ->
              nth j' row' 0 == nth j' row 0 * ((1 - new) / (1 - old))) /\
  (1 - old <= 0.0001 ->
   forall j', (j' < 5)%nat -> j' <> j -> nth j' row' 0 == (1 - new) / 4).
Proof.
  intros Hlen Hj. destruct_length.
  assert (Hcases : j = 0%nat \/ j = 1%nat \/ j = 2%nat \/ j = 3%nat \/ j = 4%nat) by lia.
  clear Hj. cbv zeta. unfold rescaleRow.
  destruct Hcases as [->|[->|[->|[->| ->]]]]; cbn;
    match goal with
    | |- context [Qltb 0.0001 ?x] => destruct (Qltb 0.0001 x) eqn:E
    end;
    [apply Qltb_true in E|apply Qltb_false in E| apply Qltb_true in E|apply Qltb_false in E|
     apply Qltb_true in E|apply Qltb_false in E| apply Qltb_true in E|apply Qltb_false in E|
     apply Qltb_true in E|apply Qltb_false in E]; cbn;
    change (inject_Z 4) with 4;
    (split; [reflexivity|]);
    (split; [reflexivity|]);
    (split; intros Hc j' Hj' Hne; try lra;
     assert (Hj'c : j' = 0%nat \/ j' = 1%nat \/ j' = 2%nat \/ j' = 3%nat \/ j' = 4%nat) by lia;
     destruct Hj'c as [->|[->|[->|[->| ->]]]]; try congruence; cbn; reflexivity).
Qed.

(** An edit also repairs a row that had drifted from sum 1: on any 5x5
    matrix whose edited row is nonnegative, an edit that changes the cell to
    a positive clamped value leaves that row a probability vector.  The cell
    then holds the clamped value divided by the sum of the rescaled row, so
    it holds the clamped value itself only when that sum is 1; the other
    rows are untouched. *)
Theorem updateMatrixProbability_renormalizes (P : Matrix) (i j : nat) (v : Q) :
  square 5 P -> (i < 5)%nat -> (j < 5)%nat ->
  nonneg (nth i P []) ->
  ~ entry P i j == clamp01 v -> 0 < clamp01 v ->
  exists M,
    updateMatrixProbability P i j v = Some M /\
    square 5 M /\
    probVector (nth i M []) /\
    entry M i j ==
      clamp01 v / sumQ (rescaleRow (nth i P []) j (entry P i j) (clamp01 v)) /\
    forall k, k <> i -> nth k M [] = nth k P [].
Proof.
  intros Hsq Hi Hj Hnn Hne Hpos. pose proof Hsq as [Hlen Hrows].
  assert (Hi' : (i < length P)%nat) by lia.
  pose proof (Forall_nth_in _ P i [] Hrows Hi') as Hrl. cbv beta in Hrl.
  pose proof (clamp01_range v) as Hc.
  unfold updateMatrixProbability. rewrite cloneMatrix_id.
  rewrite (nth_error_nth_lt P i [] Hi').
  rewrite (nth_error_nth_lt (nth i P []) j 0) by (rewrite Hrl; exact Hj).
  unfold entry in *.
  destruct (Qeq_bool (nth j (nth i P []) 0) (clamp01 v)) eqn:E.
  { apply Qeq_bool_iff in E. contradiction. }
  destruct (rescaleRow_cells (nth i P []) j (clamp01 v) Hrl Hj)
    as (Hl' & Hj' & Hprop & Heven).
  set (old := nth j (nth i P []) 0) in *.
  set (row' := rescaleRow (nth i P []) j old (clamp01 v)) in *.
  assert (Hnn' : nonneg row').
  { apply nonneg_of_nth. intros c Hcl. rewrite Hl' in Hcl.
    destruct (Nat.eq_dec c j) as [->|Hnc]; [rewrite Hj'; lra|].
    assert (Hrow : 0 <= nth c (nth i P []) 0).
    { apply (Forall_nth_in _ _ c 0 Hnn). now rewrite Hrl. }
    destruct (Qlt_le_dec 0.0001 (1 - old)) as [Hbig|Hsmall].
    - rewrite (Hprop Hbig c Hcl Hnc).
      apply Qmult_le_0_compat; [exact Hrow|].
      apply Qle_shift_div_l; lra.
    - rewrite (Heven Hsmall c Hcl Hnc). apply Qle_shift_div_l; lra. }
  assert (Hsum : 0 < sumQ row').
  { pose proof (nth_le_sumQ row' j Hnn') as Hle. rewrite Hj' in Hle. lra. }
  exists (setAt i (normalizeRow row') P).
  split; [reflexivity|]. split.
  { apply square_setAt; [exact Hsq|]. now rewrite length_normalizeRow. }
  rewrite nth_setAt_same by exact Hi'. split.
  { apply normalizeRow_prob; assumption. }
  split.
  { rewrite nth_normalizeRow_pos by exact Hsum. now rewrite Hj'. }
  intros k Hk. now apply nth_setAt_other.
Qed.

Lemma updateMatrixProbability_renormalizes_witness :
  let P := [ [0.5; 0.5; 0.5; 0; 0]; [0; 1; 0; 0; 0]; [0; 0; 1; 0; 0];
             [0; 0; 0; 1; 0]; [0; 0; 0; 0; 1] ] in
  ~ sumQ (nth 0 P []) == 1 /\
  exists M,
    updateMatrixProbability P 0 0 0.2 = Some M /\
    probVector (nth 0 M []) /\ entry M 0 0 == 1 # 9.
Proof.
  cbv zeta.
  set (P := [ [0.5; 0.5; 0.5; 0; 0]; [0; 1; 0; 0; 0]; [0; 0; 1; 0; 0];
             [0; 0; 0; 1; 0]; [0; 0; 0; 0; 1] ]).
  split; [intros Hc; vm_compute in Hc; discriminate Hc|].
  assert (Hsq : square 5 P).
  { split; [reflexivity|]. repeat (apply Forall_cons; [reflexivity|]). apply Forall_nil. }
  assert (Hnn : nonneg (nth 0 P [])).
  { cbn. repeat (apply Forall_cons; [lra|]). apply Forall_nil. }
  assert (Hne : ~ entry P 0 0 == clamp01 0.2).
  { intros Hc; vm_compute in Hc; discriminate Hc. }
  assert (Hpos : 0 < clamp01 0.2) by reflexivity.
  destruct (updateMatrixProbability_renormalizes P 0 0 0.2 Hsq ltac:(lia) ltac:(lia) Hnn Hne Hpos)
    as (M & HM & _ & Hp & Hcell & _).
  exists M. split; [exact HM|]. split; [exact Hp|].
  rewrite Hcell. vm_compute. reflexivity.
Defined.

(** ** The pivots of a well-conditioned system *)

Lemma findPivot_max (M : Matrix) (n i k : nat) :
  (i <= k < n)%nat ->
  Qabs (entry M k i) <= Qabs (entry M (findPivot M n i) i).
Proof.
  intros Hk. unfold findPivot.
  assert (Hgen : forall l p,
            let q := fold_left (fun pivotRow j =>
                       if Qltb (Qabs (entry M pivotRow i)) (Qabs (entry M j i))
                       then j else pivotRow) l p in
            Qabs (entry M p i) <= Qabs (entry M q i) /\
            forall j, In j l -> Qabs (entry M j i) <= Qabs (entry M q i)).
  { induction l as [|j l IH]; intros p; cbv zeta.
    - cbn [fold_left]. split; [apply Qle_refl|]. intros j [].
    - cbn [fold_left].
      destruct (Qltb (Qabs (entry M p i)) (Qabs (entry M j i))) eqn:E.
      + apply Qltb_true in E. destruct (IH j) as [H1 H2]. cbv zeta in H1, H2.
        split; [lra|]. intros j' [<-|Hin]; [exact H1|now apply H2].
      + apply Qltb_false in E. destruct (IH p) as [H1 H2]. cbv zeta in H1, H2.
        split; [exact H1|]. intros j' [<-|Hin]; [lra|now apply H2]. }
  destruct (Hgen (seq (S i) (n - S i)) i) as [H1 H2]. cbv zeta in H1, H2.
  destruct (Nat.eq_dec k i) as [->|Hne]; [exact H1|].
  apply H2. apply in_seq. lia.
Qed.

Lemma rowDot_ext (n : nat) (M M' : Matrix) (k k' : nat) (c : nat -> Q) :
  (forall j, (j < n)%nat -> entry M k j == entry M' k' j) ->
  rowDot n M k c == rowDot n M' k' c.
Proof.
  intros He. unfold rowDot. apply bigsum_ext. intros j Hj. now rewrite He.
Qed.

Section PivotBound.
Variables (n : nat) (M M0 : Matrix) (i : nat) (eps : Q).
Hypothesis M_aug : augmented n M.
Hypothesis i_lt : (i < n)%nat.
Hypothesis done : columnsDone n i M.
Hypothesis traced : rowsTraced n i M M0.
Hypothesis conditioned : coercive eps n M0.
Hypothesis tolerance_below : pivotTolerance <= eps.

Let p := findPivot M n i.
Let M1 := swapRows M i p.

(** The vector that picks column [i] and cancels what the finished
    columns contribute. *)
Let probe (j : nat) : Q :=
  if (j <? i)%nat then - entry M j i else if Nat.eqb j i then 1 else 0.

Lemma rowDot_probe (k : nat) :
  (k < n)%nat ->
  rowDot n M k probe == if (k <? i)%nat then 0 else entry M k i.
Proof.
  intros Hk. unfold rowDot.
  rewrite (bigsum_ext _ (fun j => delta k j * (if (j <? i)%nat then - entry M j i else 0)
                                 + delta i j * entry M k i)).
  - rewrite bigsum_plus.
    rewrite (bigsum_delta_row (fun j => if (j <? i)%nat then - entry M j i else 0) k n Hk).
    rewrite (bigsum_delta_row (fun _ => entry M k i) i n i_lt).
    destruct (k <? i)%nat; ring.
  - intros j Hj. unfold probe, delta.
    destruct (Nat.ltb_spec j i) as [Hji|Hji].
    + rewrite (done k j Hk Hji). unfold delta.
      destruct (Nat.eqb_spec i j); [lia|ring].
    + destruct (Nat.eqb_spec j i) as [->|Hne].
      * rewrite Nat.eqb_refl. destruct (Nat.eqb k i); ring.
      * destruct (Nat.eqb_spec i j); [lia|]. destruct (Nat.eqb k j); ring.
Qed.

Lemma pivot_above_tolerance :
  Qltb (Qabs (entry M1 i i)) pivotTolerance = false.
Proof.
  apply Qltb_false. apply Qle_trans with eps; [exact tolerance_below|].
  assert (Hp : (i <= p < n)%nat) by (apply findPivot_range, i_lt).
  unfold M1, p. rewrite entry_swapped by assumption. rewrite Nat.eqb_refl. fold p.
  assert (Hb : forall r, (r < n)%nat -> Qabs (rowDot n M0 r probe) <= Qabs (entry M p i)).
  { intros r Hr.
    assert (Hzero : forall j, (j < i)%nat -> rowDot n M j probe == 0).
    { intros j Hj. rewrite rowDot_probe by lia.
      destruct (Nat.ltb_spec j i); [reflexivity|lia]. }
    destruct (traced probe Hzero r Hr) as [Hz|(k & Hk & Hrk)].
    - rewrite Hz. apply Qabs_nonneg.
    - rewrite Hrk, rowDot_probe by lia.
      destruct (Nat.ltb_spec k i); [lia|]. apply findPivot_max. lia. }
  pose proof (conditioned probe (Qabs (entry M p i)) Hb i i_lt) as Hc.
  unfold probe in Hc. rewrite Nat.ltb_irrefl, Nat.eqb_refl in Hc.
  assert (H1 : Qabs 1 == 1) by reflexivity. rewrite H1 in Hc. lra.
Qed.

Lemma step_rowsTraced : rowsTraced n (S i) (eliminationStep n M i) M0.
Proof.
  pose proof pivot_above_tolerance as Hreg.
  assert (Hp : (i <= p < n)%nat) by (apply findPivot_range, i_lt).
  set (M' := eliminationStep n M i).
  intros c Hc r Hr.
  assert (Hpiv : rowDot n M1 i c == 0).
  { unfold rowDot.
    rewrite (bigsum_ext _ (fun j => entry M1 i i * (entry M' i j * c j))).
    - rewrite bigsum_scale. fold (rowDot n M' i c). rewrite (Hc i) by lia. ring.
    - intros j Hj. unfold M1, M', p.
      rewrite (pivot_row_scaled n M i M_aug i_lt Hreg done j) by lia. ring. }
  assert (Hother : forall k, (k < n)%nat -> k <> i ->
            rowDot n M1 k c == rowDot n M' k c).
  { intros k Hk Hki. unfold rowDot.
    rewrite (bigsum_ext _ (fun j => entry M' k j * c j
                                   + entry M1 k i * (entry M' i j * c j))).
    - rewrite bigsum_plus, bigsum_scale. fold (rowDot n M' i c).
      rewrite (Hc i) by lia. ring.
    - intros j Hj. unfold M1, M', p.
      rewrite (other_row_combined n M i M_aug i_lt Hreg done k j) by lia. ring. }
  assert (Hswap : forall k, (k < n)%nat ->
            rowDot n M k c ==
            rowDot n M1 (if Nat.eqb k i then p else if Nat.eqb k p then i else k) c).
  { intros k Hk. apply rowDot_ext. intros j _. unfold M1.
    unfold p. rewrite entry_swapped; [|assumption|assumption|].
    - fold p. destruct (Nat.eqb_spec k i) as [->|Hki].
      + destruct (Nat.eqb_spec p i) as [->|Hpi]; [reflexivity|].
        now rewrite Nat.eqb_refl.
      + destruct (Nat.eqb_spec k p) as [->|Hkp].
        * now rewrite Nat.eqb_refl.
        * destruct (Nat.eqb_spec k i); [contradiction|].
          destruct (Nat.eqb_spec k p); [contradiction|reflexivity].
    - fold p. destruct (Nat.eqb k i); [lia|]. destruct (Nat.eqb k p); lia. }
  assert (Hzero : forall j, (j < i)%nat -> rowDot n M j c == 0).
  { intros j Hj. rewrite Hswap by lia.
    destruct (Nat.eqb_spec j i); [lia|]. destruct (Nat.eqb_spec j p); [lia|].
    rewrite Hother by lia. apply Hc. lia. }
  destruct (traced c Hzero r Hr) as [Hz|(k & Hk & Hrk)]; [left; exact Hz|].
  rewrite Hswap in Hrk by lia.
  destruct (Nat.eqb_spec k i) as [->|Hki].
  - destruct (Nat.eq_dec p i) as [Hpi|Hpi].
    + left. rewrite Hrk, Hpi. exact Hpiv.
    + right. exists p. split; [lia|]. rewrite Hrk. apply Hother; lia.
  - destruct (Nat.eqb_spec k p) as [->|Hkp].
    + left. rewrite Hrk. exact Hpiv.
    + right. exists k. split; [lia|]. rewrite Hrk. apply Hother; lia.
Qed.
End PivotBound.

Lemma eliminate_regular (n len : nat) (M0 : Matrix) (eps : Q) :
  coercive eps n M0 -> pivotTolerance <= eps ->
  forall (i : nat) (M : Matrix),
    (i + len = n)%nat -> augmented n M -> columnsDone n i M -> rowsTraced n i M M0 ->
    pivotsRegular n M (seq i len) = true.
Proof.
  intros Hco Htol. induction len as [|len IH]; intros i M Hi Haug Hdone Htr.
  - reflexivity.
  - cbn [seq pivotsRegular].
    assert (Hlt : (i < n)%nat) by lia.
    pose proof (pivot_above_tolerance n M M0 i eps Haug Hlt Hdone Htr Hco Htol) as Hpiv.
    rewrite Hpiv. cbn [negb andb].
    apply IH; [lia| | |].
    + exact (eliminationStep_augmented n M i Haug Hlt Hpiv).
    + exact (step_columnsDone n M i Haug Hlt Hpiv Hdone).
    + exact (step_rowsTraced n M M0 i eps Haug Hlt Hdone Htr Hco Htol).
Qed.

(** A system whose matrix is coercive beyond the pivot tolerance is never
    cut short: the elimination skips no column. *)
Lemma regularSystem_of_coercive (A : Matrix) (b : Vector) (eps : Q) :
  square (length A) A -> coercive eps (length A) A -> pivotTolerance <= eps ->
  regularSystem A b = true.
Proof.
  intros Hsq Hco Htol. unfold regularSystem. set (n := length A) in *.
  pose proof (augment_augmented A b Hsq) as Haug. fold n in Haug.
  assert (Hrow : forall r c, (r < n)%nat ->
            rowDot n (augment A b) r c == rowDot n A r c).
  { intros r c Hr. apply rowDot_ext. intros j Hj.
    rewrite entry_augment by assumption. fold n.
    destruct (Nat.ltb_spec j n); [reflexivity|lia]. }
  apply (eliminate_regular n n (augment A b) eps); try assumption.
  - intros c bound Hb i Hi. apply (Hco c bound); [|exact Hi].
    intros r Hr. rewrite <- Hrow by exact Hr. now apply Hb.
  - lia.
  - intros k j _ Hj. lia.
  - intros c _ r Hr. right. exists r. split; [lia|reflexivity].
Qed.

(** ** Coercivity from a potential *)

Lemma Qmult_le_l_nonneg (a x y : Q) : 0 <= a -> x <= y -> a * x <= a * y.
Proof.
  intros Ha Hxy. rewrite (Qmult_comm a x), (Qmult_comm a y).
  now apply Qmult_le_compat_r.
Qed.

Lemma rowDot_scale (n : nat) (A : Matrix) (k : nat) (s : Q) (c : nat -> Q) :
  rowDot n A k (fun j => s * c j) == s * rowDot n A k c.
Proof.
  unfold rowDot. rewrite <- bigsum_scale. apply bigsum_ext. intros j _. ring.
Qed.

(** Among finitely many entries one has the largest ratio [|c j| / h j]. *)
Lemma ratio_argmax (c h : nat -> Q) (n : nat) :
  (0 < n)%nat -> (forall j, (j < n)%nat -> 0 < h j) ->
  exists m, (m < n)%nat /\
    forall j, (j < n)%nat -> Qabs (c j) * h m <= Qabs (c m) * h j.
Proof.
  induction n as [|n IH]; intros Hn Hh; [lia|].
  destruct n as [|n].
  - exists 0%nat. split; [lia|]. intros j Hj. assert (j = 0%nat) by lia. subst j. lra.
  - destruct IH as (m & Hm & Hmax); [lia|intros j Hj; apply Hh; lia|].
    pose proof (Hh m ltac:(lia)) as Hhm. pose proof (Hh (S n) ltac:(lia)) as Hhn.
    pose proof (Qabs_nonneg (c m)) as Hcm. pose proof (Qabs_nonneg (c (S n))) as Hcn.
    destruct (Qlt_le_dec (Qabs (c m) * h (S n)) (Qabs (c (S n)) * h m)) as [Hlt|Hle].
    + exists (S n). split; [lia|]. intros j Hj.
      destruct (Nat.eq_dec j (S n)) as [->|Hne]; [lra|].
      pose proof (Hmax j ltac:(lia)) as Hj'.
      pose proof (Hh j ltac:(lia)) as Hhj. pose proof (Qabs_nonneg (c j)) as Hcj.
      (* |c j| h m <= |c m| h j  and  |c m| h (S n) < |c (S n)| h m *)
      apply (Qmult_le_l _ _ (h m) Hhm).
      apply Qle_trans with (Qabs (c m) * h j * h (S n)).
      * setoid_replace (h m * (Qabs (c j) * h (S n)))
          with (Qabs (c j) * h m * h (S n)) by ring.
        apply Qmult_le_compat_r; [exact Hj'|lra].
      * setoid_replace (Qabs (c m) * h j * h (S n))
          with (Qabs (c m) * h (S n) * h j) by ring.
        setoid_replace (h m * (Qabs (c (S n)) * h j))
          with (Qabs (c (S n)) * h m * h j) by ring.
        apply Qmult_le_compat_r; lra.
    + exists m. split; [lia|]. intros j Hj.
      destruct (Nat.eq_dec j (S n)) as [->|Hne]; [exact Hle|].
      apply Hmax. lia.
Qed.

(** A positive potential [h] that every row of [A] lowers by at least [d],
    for a matrix with no positive entry off the diagonal, makes [A]
    coercive. *)
Lemma drift_coercive (n : nat) (A : Matrix) (h : nat -> Q) (d hmax : Q) :
  0 < d ->
  (forall i, (i < n)%nat -> 0 < h i <= hmax) ->
  (forall i j, (i < n)%nat -> (j < n)%nat -> i <> j -> entry A i j <= 0) ->
  (forall i, (i < n)%nat -> d <= rowDot n A i h) ->
  coercive (d / hmax) n A.
Proof.
  intros Hd Hh Hoff Hdrift c bound Hb i Hi.
  destruct (ratio_argmax c h n ltac:(lia) (fun j Hj => proj1 (Hh j Hj)))
    as (m & Hm & Hmax).
  destruct (Hh m Hm) as [Hhm _]. destruct (Hh i Hi) as [Hhi Hhi'].
  assert (Hhmax : 0 < hmax) by lra.
  pose proof (Qabs_nonneg (c m)) as Hcm. pose proof (Qabs_nonneg (c i)) as Hci.
  (* the sign that makes [c m] nonnegative *)
  assert (Hsign : exists s, (s == 1 \/ s == -1) /\ s * c m == Qabs (c m)).
  { destruct (Qlt_le_dec (c m) 0) as [Hneg|Hpos].
    - exists (-1). split; [right; reflexivity|]. rewrite Qabs_neg by lra. ring.
    - exists 1. split; [left; reflexivity|]. rewrite Qabs_pos by lra. ring. }
  destruct Hsign as (s & Hs & Hsm).
  assert (Habs_s : forall x, Qabs (s * x) == Qabs x).
  { intros x. rewrite Qabs_Qmult. destruct Hs as [-> | ->].
    - assert (E : Qabs 1 == 1) by reflexivity. rewrite E. ring.
    - assert (E : Qabs (-1) == 1) by reflexivity. rewrite E. ring. }
  (* termwise comparison at the row of the largest ratio *)
  assert (Hterm : forall j, (j < n)%nat ->
            Qabs (c m) * (entry A m j * h j) <= h m * (entry A m j * (s * c j))).
  { intros j Hj. destruct (Nat.eq_dec m j) as [<-|Hne].
    - rewrite Hsm. apply Qle_lteq. right. ring.
    - pose proof (Hoff m j Hm Hj Hne) as Ha.
      assert (Hup : h m * (s * c j) <= Qabs (c m) * h j).
      { apply Qle_trans with (Qabs (c j) * h m); [|now apply Hmax].
        setoid_replace (h m * (s * c j)) with ((s * c j) * h m) by ring.
        apply Qmult_le_compat_r; [|lra].
        rewrite <- (Habs_s (c j)). apply Qle_Qabs. }
      setoid_replace (Qabs (c m) * (entry A m j * h j))
        with ((- entry A m j) * (- (Qabs (c m) * h j))) by ring.
      setoid_replace (h m * (entry A m j * (s * c j)))
        with ((- entry A m j) * (- (h m * (s * c j)))) by ring.
      apply Qmult_le_l_nonneg; lra. }
  assert (Hsum : Qabs (c m) * rowDot n A m h <= h m * rowDot n A m (fun j => s * c j)).
  { unfold rowDot. rewrite <- !bigsum_scale. apply bigsum_le. exact Hterm. }
  assert (Hrow : rowDot n A m (fun j => s * c j) <= bound).
  { apply Qle_trans with (Qabs (rowDot n A m (fun j => s * c j))); [apply Qle_Qabs|].
    rewrite rowDot_scale, Habs_s. now apply Hb. }
  assert (Hbound0 : 0 <= bound).
  { apply Qle_trans with (Qabs (rowDot n A m c)); [apply Qabs_nonneg|now apply Hb]. }
  assert (Hkey : Qabs (c m) * d <= h m * bound).
  { apply Qle_trans with (Qabs (c m) * rowDot n A m h).
    - apply Qmult_le_l_nonneg; [exact Hcm|now apply Hdrift].
    - apply Qle_trans with (h m * rowDot n A m (fun j => s * c j)); [exact Hsum|].
      apply Qmult_le_l_nonneg; [lra|exact Hrow]. }
  (* from the largest ratio to entry [i] *)
  pose proof (Hmax i Hi) as Hi'.
  assert (Hfin : d * Qabs (c i) <= bound * hmax).
  { apply (Qmult_le_l _ _ (h m) Hhm).
    apply Qle_trans with (d * (Qabs (c m) * h i)).
    - setoid_replace (h m * (d * Qabs (c i))) with (d * (Qabs (c i) * h m)) by ring.
      apply Qmult_le_l_nonneg; [lra|exact Hi'].
    - apply Qle_trans with (h m * bound * h i).
      + setoid_replace (d * (Qabs (c m) * h i)) with (Qabs (c m) * d * h i) by ring.
        apply Qmult_le_compat_r; [exact Hkey|lra].
      + setoid_replace (h m * (bound * hmax)) with (h m * bound * hmax) by ring.
        apply Qmult_le_l_nonneg; [|exact Hhi'].
        apply Qmult_le_0_compat; lra. }
  apply Qle_shift_div_r in Hfin; [|exact Hhmax].
  setoid_replace (d / hmax * Qabs (c i)) with (d * Qabs (c i) / hmax) by (field; lra).
  exact Hfin.
Qed.

(** ** The parametric chain is well conditioned *)

Lemma baseline_rows :
  exists r0 r1 r2 r3 r4,
    createBaselineMatrix = [r0; r1; r2; r3; r4] /\
    sameVector r0 [0.9; 0.09; 0.01; 0; 0] /\
    sameVector r1 [0.15; 0.7; 0.14; 0.01; 0] /\
    sameVector r2 [0.01; 0.2; 0.6; 0.18; 0.01] /\
    sameVector r3 [0; 0.05; 0.2; 0.6; 0.15].
Proof.
  do 5 eexists. split; [vm_compute; reflexivity|].
  repeat split; repeat constructor.
Qed.

Lemma shift_share (e a : Q) : 0 <= e -> e <= 1 -> 0 <= a ->
  0 <= e * a * 0.8 /\ e * a * 0.8 <= 0.8 * a.
Proof. intros. split; nra. Qed.

Lemma normalized_drift (x0 x1 x2 x3 x4 h0 h1 h2 h3 hi d : Q) :
  0 < x0 + x1 + x2 + x3 + x4 ->
  0 <= x0 * (hi - d - h0) + x1 * (hi - d - h1) + x2 * (hi - d - h2)
       + x3 * (hi - d - h3) + x4 * (hi - d) ->
  d <= hi - (nth 0 (normalizeRow [x0; x1; x2; x3; x4]) 0 * h0
             + nth 1 (normalizeRow [x0; x1; x2; x3; x4]) 0 * h1
             + nth 2 (normalizeRow [x0; x1; x2; x3; x4]) 0 * h2
             + nth 3 (normalizeRow [x0; x1; x2; x3; x4]) 0 * h3).
Proof.
  intros Hs Hnum.
  rewrite !nth_normalizeRow_pos by (rewrite sumQ5; exact Hs).
  cbn [nth]. rewrite sumQ5.
  set (s := x0 + x1 + x2 + x3 + x4) in *.
  assert (E : hi - (x0 / s * h0 + x1 / s * h1 + x2 / s * h2 + x3 / s * h3) - d ==
              (x0 * (hi - d - h0) + x1 * (hi - d - h1) + x2 * (hi - d - h2)
               + x3 * (hi - d - h3) + x4 * (hi - d)) / s).
  { unfold s. field. unfold s in Hs. lra. }
  assert (Hq : 0 <= (x0 * (hi - d - h0) + x1 * (hi - d - h1) + x2 * (hi - d - h2)
                     + x3 * (hi - d - h3) + x4 * (hi - d)) / s).
  { apply Qle_shift_div_l; [exact Hs|]. lra. }
  rewrite <- E in Hq. lra.
Qed.

Ltac invert_sameVector :=
  repeat match goal with
  | H : sameVector _ _ |- _ => unfold sameVector in H
  | H : Forall2 _ _ (_ :: _) |- _ => inversion H; subst; clear H
  | H : Forall2 _ _ [] |- _ => inversion H; subst; clear H
  end.

(** Replace every [Qmax 0 x] by a fresh number that is 0 or [x],
    whichever is larger, in both cases. *)
Ltac split_max :=
  repeat match goal with
  | |- context [Qmax 0 ?x] =>
      let m := fresh "m" in
      let Hc := fresh "Hc" in
      let E := fresh "E" in
      destruct (Q.max_spec 0 x) as [[Hc E]|[Hc E]];
      set (m := Qmax 0 x) in *; clearbody m
  | _ : context [Qmax 0 ?x] |- _ =>
      let m := fresh "m" in
      let Hc := fresh "Hc" in
      let E := fresh "E" in
      destruct (Q.max_spec 0 x) as [[Hc E]|[Hc E]];
      set (m := Qmax 0 x) in *; clearbody m
  end.

Lemma parametricRow_drift (config : PathConfig) (i : nat) :
  0 <= effort config <= 1 -> 0 <= risk config <= 1 -> (i < 4)%nat ->
  0.1 <= pathPotential i
         - (nth 0 (normalizeRow (parametricRow config createBaselineMatrix i)) 0 * 22
            + nth 1 (normalizeRow (parametricRow config createBaselineMatrix i)) 0 * 21
            + nth 2 (normalizeRow (parametricRow config createBaselineMatrix i)) 0 * 19
            + nth 3 (normalizeRow (parametricRow config createBaselineMatrix i)) 0 * 16).
Proof.
  intros [He0 He1] [Hr0 Hr1] Hi.
  destruct baseline_rows as (r0 & r1 & r2 & r3 & r4 & -> & H0 & H1 & H2 & H3).
  invert_sameVector.
  assert (Hrf : risk config * 0.3 <= 0.3) by lra.
  assert (Hcases : i = 0%nat \/ i = 1%nat \/ i = 2%nat \/ i = 3%nat) by lia.
  clear Hi. destruct Hcases as [->|[->|[-> | ->]]];
    unfold parametricRow, pathPotential; cbn -[normalizeRow]; abstract_risk;
    match goal with
    | |- context [effort config * ?a * 0.8] =>
        let Hs := fresh "Hs" in
        assert (Hs : 0 <= effort config * a * 0.8 /\ effort config * a * 0.8 <= 0.8 * a)
          by (apply shift_share; lra);
        destruct Hs; set (sh := effort config * a * 0.8) in *; clearbody sh
    end;
    split_max; apply normalized_drift; lra.
Qed.

Lemma generateParametricMatrix_row (config : PathConfig) (i : nat) :
  (i < 4)%nat ->
  nth i (generateParametricMatrix config) [] =
  normalizeRow (parametricRow config createBaselineMatrix i).
Proof.
  intros Hi. unfold generateParametricMatrix.
  rewrite nth_map_seq by (unfold STATES_COUNT; lia).
  destruct (Nat.eqb_spec i (STATES_COUNT - 1)) as [E|_];
    [unfold STATES_COUNT in E; lia|].
  now rewrite andb_false_r.
Qed.

Lemma path_system_coercive (config : PathConfig) :
  0 <= effort config <= 1 -> 0 <= risk config <= 1 ->
  coercive (0.1 / 22) 4 (fundamentalSystem (generateParametricMatrix config)).
Proof.
  intros He Hr.
  destruct (generateParametricMatrix_stochastic config He Hr) as [Hst _].
  pose proof (rowStochastic_nonneg _ Hst) as Hnn.
  apply (drift_coercive 4 _ pathPotential 0.1 22).
  - lra.
  - intros i Hi. unfold pathPotential.
    do 4 (destruct i as [|i]; [cbn; lra|]). lia.
  - intros i j Hi Hj Hij. rewrite entry_fundamentalSystem by assumption.
    unfold delta. destruct (Nat.eqb_spec i j); [contradiction|].
    pose proof (entry_nonneg (generateParametricMatrix config) i j Hnn). lra.
  - intros i Hi. pose proof (parametricRow_drift config i He Hr Hi) as Hd.
    rewrite <- (generateParametricMatrix_row config i Hi) in Hd.
    unfold rowDot. cbn [bigsum].
    rewrite !entry_fundamentalSystem by lia.
    fold (entry (generateParametricMatrix config) i 0) in Hd.
    fold (entry (generateParametricMatrix config) i 1) in Hd.
    fold (entry (generateParametricMatrix config) i 2) in Hd.
    fold (entry (generateParametricMatrix config) i 3) in Hd.
    unfold pathPotential in *. unfold delta.
    do 4 (destruct i as [|i]; [cbn [nth Nat.eqb] in *; lra|]). lia.
Qed.

(** For every effort and risk in [0, 1] the elimination on [(I - Q) t = ones]
    skips no column. *)
Lemma path_system_regular (config : PathConfig) :
  0 <= effort config <= 1 -> 0 <= risk config <= 1 ->
  regularSystem (fundamentalSystem (generateParametricMatrix config))
                (repeat 1 transientCount) = true.
Proof.
  intros He Hr.
  apply (regularSystem_of_coercive _ _ (0.1 / 22)).
  - apply fundamentalSystem_square.
  - change (length (fundamentalSystem (generateParametricMatrix config))) with 4%nat.
    now apply path_system_coercive.
  - apply Qle_bool_iff. reflexivity.
Qed.

Lemma fundamentalSystem_solved (G : Matrix) :
  regularSystem (fundamentalSystem G) (repeat 1 transientCount) = true ->
  length (solveLinearSystem (fundamentalSystem G) (repeat 1 transientCount)) = 4%nat /\
  forall k, (k < 4)%nat ->
    bigsum (fun j => (delta k j - entry G k j)
                     * nth j (solveLinearSystem (fundamentalSystem G)
                                                (repeat 1 transientCount)) 0) 4 == 1.
Proof.
  intros Hreg.
  pose proof (solveLinearSystem_exact _ _ (fundamentalSystem_square G) Hreg)
    as [Hlen Hsol].
  change (length (fundamentalSystem G)) with 4%nat in Hlen, Hsol.
  split; [exact Hlen|]. intros k Hk. specialize (Hsol k Hk).
  assert (Hone : nth k (repeat 1 transientCount) 0 = 1).
  { unfold transientCount. do 4 (destruct k as [|k]; [reflexivity|]). lia. }
  rewrite Hone in Hsol. rewrite <- Hsol. apply bigsum_ext. intros j Hj.
  now rewrite entry_fundamentalSystem by lia.
Qed.

(** A coercive system has at most one solution. *)
Lemma fundamentalSystem_unique (G : Matrix) (eps : Q) (t t' : nat -> Q) :
  0 < eps -> coercive eps 4 (fundamentalSystem G) ->
  (forall k, (k < 4)%nat -> bigsum (fun j => (delta k j - entry G k j) * t j) 4 == 1) ->
  (forall k, (k < 4)%nat -> bigsum (fun j => (delta k j - entry G k j) * t' j) 4 == 1) ->
  forall k, (k < 4)%nat -> t' k == t k.
Proof.
  intros Heps Hco Ht Ht' k Hk.
  assert (Hzero : forall r, (r < 4)%nat ->
            Qabs (rowDot 4 (fundamentalSystem G) r (fun j => t' j - t j)) <= 0).
  { intros r Hr4. unfold rowDot.
    rewrite (bigsum_ext _ (fun j => (delta r j - entry G r j) * t' j
                                   + (-1) * ((delta r j - entry G r j) * t j))).
    - rewrite bigsum_plus, bigsum_scale, (Ht' r Hr4), (Ht r Hr4).
      assert (E : 1 + -1 * 1 == 0) by ring. rewrite E. apply Qle_refl.
    - intros j Hj. rewrite entry_fundamentalSystem by lia. ring. }
  pose proof (Hco (fun j => t' j - t j) 0 Hzero k Hk) as Hk'.
  cbv beta in Hk'.
  pose proof (Qabs_nonneg (t' k - t k)) as Hnn.
  assert (Habs : Qabs (t' k - t k) == 0).
  { apply Qle_antisym; [|exact Hnn].
    apply (Qmult_le_l _ _ eps Heps). lra. }
  pose proof (Qle_Qabs (t' k - t k)) as Hup.
  pose proof (Qle_Qabs (- (t' k - t k))) as Hdown.
  rewrite Qabs_opp in Hdown. lra.
Qed.

Lemma runPathSimulation_flag (config : PathConfig) :
  0 <= risk config <= 1 ->
  (expectedStepsToAbsorb (runPathSimulation config) = None <->
   entry (generateParametricMatrix config) 4 4 <= 0.99) /\
  (expectedStepsToAbsorb (runPathSimulation config) = None <->
   isAbsorbing config = false) /\
  (isAbsorbing config = true ->
   expectedStepsToAbsorb (runPathSimulation config) =
   Some (nth 0 (solveLinearSystem (fundamentalSystem (generateParametricMatrix config))
                                  (repeat 1 transientCount)) 0)).
Proof.
  intros Hr. unfold runPathSimulation. cbn [expectedStepsToAbsorb].
  unfold calculateTimeToAbsorption.
  destruct (isAbsorbing config) eqn:Hab.
  - rewrite (entry_top_locked config Hab).
    change (Qltb 1 0.99) with false. cbv iota.
    split; [split; [discriminate|intros Hc; exfalso; lra]|].
    split; [split; discriminate|reflexivity].
  - pose proof (entry_top_unlocked config Hab Hr) as H44.
    assert (Hlt : Qltb (entry (generateParametricMatrix config) 4 4) 0.99 = true).
    { apply Qltb_true. rewrite H44. lra. }
    rewrite Hlt.
    split; [split; [intros _; rewrite H44; lra|reflexivity]|].
    split; [split; reflexivity|discriminate].
Qed.

(** C6: with risk in [0, 1], the expected steps to absorption are reported
    as unavailable exactly when the generated [P[4][4]] is at most 0.99, and
    that is exactly when the lock-in flag is off.  With the flag on, the
    value reported is entry 0 of what [solveLinearSystem] returns for
    [(I - Q) t = ones] over the four transient states.  For every effort in
    [0, 1] the elimination skips no pivot, the vector returned solves the
    four equations exactly, and it is their only solution: the value
    reported is the entry for state 0 of the solution of
    [(I - Q) t = ones]. *)
Theorem runPathSimulation_expectedSteps (config : PathConfig) :
  0 <= risk config <= 1 ->
  let G := generateParametricMatrix config in
  let r := runPathSimulation config in
  let t := solveLinearSystem (fundamentalSystem G) (repeat 1 transientCount) in
  (expectedStepsToAbsorb r = None <-> entry G 4 4 <= 0.99) /\
  (expectedStepsToAbsorb r = None <-> isAbsorbing config = false) /\
  (isAbsorbing config = true -> expectedStepsToAbsorb r = Some (nth 0 t 0)) /\
  (regularSystem (fundamentalSystem G) (repeat 1 transientCount) = true ->
   length t = 4%nat /\
   forall k, (k < 4)%nat ->
     bigsum (fun j => (delta k j - entry G k j) * nth j t 0) 4 == 1) /\
  (0 <= effort config <= 1 ->
   regularSystem (fundamentalSystem G) (repeat 1 transientCount) = true /\
   length t = 4%nat /\
   (forall k, (k < 4)%nat ->
      bigsum (fun j => (delta k j - entry G k j) * nth j t 0) 4 == 1) /\
   (forall t' : nat -> Q,
      (forall k, (k < 4)%nat ->
         bigsum (fun j => (delta k j - entry G k j) * t' j) 4 == 1) ->
      forall k, (k < 4)%nat -> t' k == nth k t 0)).
Proof.
  intros Hr. cbv zeta.
  destruct (runPathSimulation_flag config Hr) as (H1 & H2 & H3).
  split; [exact H1|]. split; [exact H2|]. split; [exact H3|].
  split; [exact (fundamentalSystem_solved (generateParametricMatrix config))|].
  intros He.
  pose proof (path_system_regular config He Hr) as Hreg.
  destruct (fundamentalSystem_solved (generateParametricMatrix config) Hreg)
    as [Hlen Hsol].
  split; [exact Hreg|]. split; [exact Hlen|]. split; [exact Hsol|].
  intros t' Ht'.
  exact (fundamentalSystem_unique (generateParametricMatrix config) (0.1 / 22) _ t'
           eq_refl (path_system_coercive config He Hr) Hsol Ht').
Qed.

Lemma runPathSimulation_expectedSteps_witness :
  0 <= risk defaultPathConfig <= 1 /\
  (expectedStepsToAbsorb (runPathSimulation defaultPathConfig) = None <->
   isAbsorbing defaultPathConfig = false) /\
  regularSystem (fundamentalSystem (generateParametricMatrix defaultPathConfig))
                (repeat 1 transientCount) = true.
Proof.
  assert (Hr : 0 <= risk defaultPathConfig <= 1) by (simpl; lra).
  assert (He : 0 <= effort defaultPathConfig <= 1) by (simpl; lra).
  destruct (runPathSimulation_expectedSteps defaultPathConfig Hr)
    as (_ & Hflag & _ & _ & Hsol).
  destruct (Hsol He) as (Hreg & _).
  split; [exact Hr|]. split; [exact Hflag|exact Hreg].
Defined.

Lemma fundamentalSystem_solution_bound (G : Matrix) (eps : Q) (t : nat -> Q) :
  coercive eps 4 (fundamentalSystem G) ->
  (forall k, (k < 4)%nat -> bigsum (fun j => (delta k j - entry G k j) * t j) 4 == 1) ->
  forall k, (k < 4)%nat -> eps * Qabs (t k) <= 1.
Proof.
  intros Hco Hsol k Hk. apply (Hco t 1); [|exact Hk].
  intros r Hr4. unfold rowDot.
  rewrite (bigsum_ext _ (fun j => (delta r j - entry G r j) * t j)).
  - rewrite (Hsol r Hr4). apply Qle_refl.
  - intros j Hj. now rewrite entry_fundamentalSystem by lia.
Qed.

Lemma scaled_bound (x : Q) : 0.1 / 22 * Qabs x <= 1 -> Qabs x <= 220.
Proof.
  intros H0. set (a := Qabs x) in *. clearbody a.
  assert (E : 0.1 / 22 * a == a * (1 # 220)) by field.
  rewrite E in H0. lra.
Qed.

(** With the top state locked and effort and risk in [0, 1], the expected
    number of steps to absorption is reported, and it is at most 220:
    every step lowers the expectation of the potential (22, 21, 19, 16) by
    at least 0.1. *)
Theorem runPathSimulation_expectedSteps_bounded (config : PathConfig) :
  0 <= effort config <= 1 -> 0 <= risk config <= 1 -> isAbsorbing config = true ->
  exists v, expectedStepsToAbsorb (runPathSimulation config) = Some v /\ Qabs v <= 220.
Proof.
  intros He Hr Hab.
  destruct (runPathSimulation_flag config Hr) as (_ & _ & Hval).
  eexists. split; [exact (Hval Hab)|].
  pose proof (path_system_regular config He Hr) as Hreg.
  destruct (fundamentalSystem_solved (generateParametricMatrix config) Hreg) as [_ Hsol].
  pose proof (fundamentalSystem_solution_bound (generateParametricMatrix config)
                (0.1 / 22) _ (path_system_coercive config He Hr) Hsol 0%nat ltac:(lia))
    as H0.
  cbv beta in H0. exact (scaled_bound _ H0).
Qed.

Lemma runPathSimulation_expectedSteps_bounded_witness :
  exists v, expectedStepsToAbsorb (runPathSimulation defaultPathConfig) = Some v /\
            Qabs v <= 220.
Proof.
  assert (Hr : 0 <= risk defaultPathConfig <= 1) by (simpl; lra).
  assert (He : 0 <= effort defaultPathConfig <= 1) by (simpl; lra).
  exact (runPathSimulation_expectedSteps_bounded defaultPathConfig He Hr eq_refl).
Defined.

(** ** Capital dynamics for any shape: properties *)

Module WealthAnyShapeFacts.
Import WealthAnyShape.
Import PrimFloat.
#[local] Set Warnings "-inexact-float".

Lemma integerPower_shape (x : Q) (z : Z) : integerPower x (inject_Z z) = x ^ z.
Proof. unfold integerPower. cbn [Qnum Qden inject_Z]. now rewrite Z.div_1_r. Qed.

(** At integer shapes the model with the rational power is [Wealth]. *)
Lemma integerShape_agrees (config : Wealth.WealthConfig) (k : Q) :
  netGrowth integerPower (ofIntegerShape config) k = Wealth.netGrowth config k /\
  nextK integerPower k (ofIntegerShape config) = Wealth.nextK k config.
Proof.
  unfold netGrowth, nextK, Wealth.netGrowth, Wealth.nextK, ofIntegerShape.
  cbn [A s H gamma delta]. rewrite !integerPower_shape. split; reflexivity.
Qed.

Lemma integerPower_wellDefined :
  wellDefined integerPower (ofIntegerShape Wealth.defaultConfig).
Proof.
  unfold wellDefined, ofIntegerShape. cbn [gamma H Wealth.gamma Wealth.H Wealth.defaultConfig].
  rewrite !integerPower_shape. split.
  - intros x Hx. now apply Qpower_0_le.
  - reflexivity.
Qed.

Lemma nextK_netGrowth (pow : Q -> Q -> Q) (config : WealthConfig) (k : Q) :
  nextK pow k config == Qmax 0 (k + netGrowth pow config k).
Proof.
  unfold nextK, netGrowth. cbv zeta. apply Q.max_compat; [reflexivity|]. ring.
Qed.

(** For positive capital, whatever the shape and whatever [Math.pow]
    returns, one noiseless step moves capital down, leaves it in place or
    moves it up according to the sign of the net growth that
    [findEquilibria] scans: the fixed points of [nextK] among positive
    capitals are the zeros of the net growth. *)
Theorem nextK_follows_netGrowth (pow : Q -> Q -> Q) (config : WealthConfig) (k : Q) :
  wellDefined pow config -> 0 < k ->
  (nextK pow k config < k <-> netGrowth pow config k < 0) /\
  (nextK pow k config == k <-> netGrowth pow config k == 0) /\
  (k < nextK pow k config <-> 0 < netGrowth pow config k) /\
  0 <= nextK pow k config.
Proof.
  intros _ Hk. rewrite nextK_netGrowth.
  set (g := netGrowth pow config k). clearbody g.
  pose proof (Q.le_max_l 0 (k + g)) as Hl.
  pose proof (Q.le_max_r 0 (k + g)) as Hr.
  destruct (Q.max_spec 0 (k + g)) as [[Hlt E]|[Hle E]]; rewrite E; clear E;
    repeat split; intros; lra.
Qed.

Lemma nextK_follows_netGrowth_witness :
  nextK integerPower 1 (ofIntegerShape Wealth.defaultConfig) < 1 <->
  netGrowth integerPower (ofIntegerShape Wealth.defaultConfig) 1 < 0.
Proof.
  assert (Hk : 0 < 1) by lra.
  exact (proj1 (nextK_follows_netGrowth integerPower (ofIntegerShape Wealth.defaultConfig)
                  1 integerPower_wellDefined Hk)).
Defined.

Lemma grid_succ (n : nat) (c : Q) :
  inject_Z (Z.of_nat (S n)) * c == inject_Z (Z.of_nat n) * c + c.
Proof. rewrite Nat2Z.inj_succ. unfold Z.succ. rewrite inject_Z_plus. ring. Qed.

Lemma grid_le (n m : nat) : (n <= m)%nat -> inject_Z (Z.of_nat n) <= inject_Z (Z.of_nat m).
Proof. intros Hnm. rewrite <- Zle_Qle. lia. Qed.

(** The shape of the phase loop from the [n]-th grid point [n / 2]. *)
Lemma phaseLoop_total (pow : Q -> Q -> Q) (config : WealthConfig) (fuel n : nat) (k : Q)
      (data : list Phase.PhaseDiagramDataPoint) :
  k == inject_Z (Z.of_nat n) * 0.5 -> (n <= 61)%nat -> (n + fuel = 62)%nat ->
  exists rest,
    phaseLoop pow config fuel k data = Some (data ++ rest) /\
    Forall2 (fun p i =>
               Phase.k p == inject_Z (Z.of_nat i) * 0.5 /\
               Phase.depreciation p = Phase.k p /\
               Phase.nextK p = nextK pow (Phase.k p) config)
            rest (seq n (61 - n)).
Proof.
  revert n k data.
  induction fuel as [|fuel IH]; intros n k data Hk Hn Hsum; [lia|].
  cbn [phaseLoop].
  destruct (Nat.eq_dec n 61) as [->|Hne].
  - assert (Hgt : ~ k <= 30).
    { rewrite Hk. change (inject_Z (Z.of_nat 61)) with 61. lra. }
    destruct (Qle_bool k 30) eqn:E; [apply Qle_bool_iff in E; contradiction|].
    exists []. rewrite app_nil_r. split; [reflexivity|constructor].
  - assert (Hle : k <= 30).
    { rewrite Hk. pose proof (grid_le n 60 ltac:(lia)) as Hg.
      change (inject_Z (Z.of_nat 60)) with 60 in Hg. lra. }
    destruct (Qle_bool k 30) eqn:E;
      [|exfalso; apply Qle_bool_iff in Hle; congruence].
    assert (Hnext : k + 0.5 == inject_Z (Z.of_nat (S n)) * 0.5).
    { rewrite grid_succ, Hk. reflexivity. }
    match goal with
    | |- context [phaseLoop pow config fuel (k + 0.5) (data ++ [?p])] =>
        destruct (IH (S n) (k + 0.5) (data ++ [p]) Hnext ltac:(lia) ltac:(lia))
          as (rest & Hres & Hall);
        exists (p :: rest)
    end.
    rewrite Hres, <- app_assoc. split; [reflexivity|].
    replace (61 - n)%nat with (S (61 - S n)) by lia. cbn [seq].
    constructor; [|exact Hall].
    cbn [Phase.k Phase.depreciation Phase.nextK]. repeat split. exact Hk.
Qed.

(** [generatePhaseData] returns for every configuration, with 61 points:
    the [i]-th has capital [i / 2] (so 0, 0.5, ..., 30), the 45-degree
    value equal to its capital, and the next capital given by one
    noiseless step of [nextK], which is never negative. *)
Theorem generatePhaseData_grid (pow : Q -> Q -> Q) (config : WealthConfig) :
  wellDefined pow config ->
  exists data,
    generatePhaseData pow config = Some data /\
    length data = 61%nat /\
    Forall2 (fun p i =>
               Phase.k p == inject_Z (Z.of_nat i) * 0.5 /\
               Phase.depreciation p = Phase.k p /\
               Phase.nextK p = nextK pow (Phase.k p) config)
            data (seq 0 61) /\
    Forall (fun p => 0 <= Phase.nextK p) data.
Proof.
  intros _. unfold generatePhaseData.
  destruct (phaseLoop_total pow config 62 0 0 [] ltac:(reflexivity) ltac:(lia) ltac:(lia))
    as (data & Hres & Hall).
  exists data. split; [exact Hres|].
  change (61 - 0)%nat with 61%nat in Hall.
  split; [|split; [exact Hall|]].
  - rewrite (Forall2_length Hall). apply length_seq.
  - clear Hres. induction Hall as [|p i data l (_ & _ & Hp) _ IH]; constructor.
    + rewrite Hp. apply Q.le_max_l.
    + exact IH.
Qed.

Lemma generatePhaseData_grid_witness :
  exists data,
    generatePhaseData integerPower (ofIntegerShape Wealth.defaultConfig) = Some data /\
    length data = 61%nat.
Proof.
  destruct (generatePhaseData_grid integerPower (ofIntegerShape Wealth.defaultConfig)
              integerPower_wellDefined) as (data & Hd & Hl & _).
  exists data. split; assumption.
Defined.

(** Rounds of the cobweb loop entered at the [a]-th capital of the
    orbit of [k0]. *)
Lemma cobwebLoop_orbit (pow : Q -> Q -> Q) (config : WealthConfig) (steps a : nat)
      (k0 : Q) (path : list (Q * Q)) :
  cobwebLoop pow config steps (orbit pow config a k0) path =
  path ++ flat_map (fun i => [ (orbit pow config i k0, orbit pow config i k0);
                               (orbit pow config i k0, orbit pow config (S i) k0);
                               (orbit pow config (S i) k0, orbit pow config (S i) k0) ])
                   (seq a steps).
Proof.
  revert a path. induction steps as [|steps IH]; intros a path.
  - cbn. now rewrite app_nil_r.
  - cbn [cobwebLoop].
    change (nextK pow (orbit pow config a k0) config) with (orbit pow config (S a) k0).
    rewrite IH, <- app_assoc. reflexivity.
Qed.

(** The cobweb path is the noiseless orbit of the initial capital drawn as
    a staircase: round [i] contributes the point on the diagonal at the
    [i]-th capital, the point above or below it at the next capital, and
    the point on the diagonal at the next capital.  It has three points
    per round, and no capital is negative. *)
Theorem generateCobweb_follows_orbit
    (pow : Q -> Q -> Q) (config : WealthConfig) (steps : nat) :
  wellDefined pow config -> 0 <= initialK config ->
  let o := fun i => orbit pow config i (initialK config) in
  generateCobweb pow config steps =
  flat_map (fun i => [ (o i, o i); (o i, o (S i)); (o (S i), o (S i)) ]) (seq 0 steps) /\
  length (generateCobweb pow config steps) = (3 * steps)%nat /\
  forall i, 0 <= o i.
Proof.
  intros _ Hk0. cbv zeta.
  assert (E : generateCobweb pow config steps =
              flat_map (fun i => [ (orbit pow config i (initialK config),
                                    orbit pow config i (initialK config));
                                   (orbit pow config i (initialK config),
                                    orbit pow config (S i) (initialK config));
                                   (orbit pow config (S i) (initialK config),
                                    orbit pow config (S i) (initialK config)) ])
                       (seq 0 steps))
    by exact (cobwebLoop_orbit pow config steps 0 (initialK config) []).
  split; [exact E|]. split.
  - rewrite E. clear E. set (f := fun i : nat => _).
    assert (Hlen : forall n a, length (flat_map f (seq a n)) = (3 * n)%nat).
    { induction n as [|n IH]; intros a; [reflexivity|].
      cbn [seq flat_map]. rewrite length_app, IH. unfold f. cbn [length]. lia. }
    apply Hlen.
  - intros [|i]; [exact Hk0|]. cbn [orbit]. apply Q.le_max_l.
Qed.

Lemma generateCobweb_follows_orbit_witness :
  length (generateCobweb integerPower (ofIntegerShape Wealth.defaultConfig) 10) = 30%nat.
Proof.
  assert (Hk : 0 <= initialK (ofIntegerShape Wealth.defaultConfig)) by (simpl; lra).
  exact (proj1 (proj2 (generateCobweb_follows_orbit integerPower
                         (ofIntegerShape Wealth.defaultConfig) 10
                         integerPower_wellDefined Hk))).
Defined.

(** The scan takes the same turns as the list of values of its loop
    variable. *)
Lemma scanRoots_grid (pow : Q -> Q -> Q) (config : WealthConfig) (fuel : nat) :
  forall (k : PrimFloat.float) (prevSign : Z) (equilibria : list Wealth.Equilibrium)
         (grid : list PrimFloat.float),
    gridFrom fuel k = Some grid ->
    exists rest,
      scanRoots pow config fuel k prevSign equilibria = Some (equilibria ++ rest) /\
      (length rest <= length grid)%nat.
Proof.
  induction fuel as [|fuel IH]; intros k prevSign equilibria grid Hg; [discriminate Hg|].
  cbn [gridFrom] in Hg. cbn [scanRoots].
  destruct (PrimFloat.leb k 50%float).
  - destruct (gridFrom fuel (PrimFloat.add k 0.1%float)) as [g|] eqn:Eg; [|discriminate Hg].
    injection Hg as <-.
    destruct (negb (Wealth.sign (netGrowth pow config (Binary64.toQ k)) =? prevSign)%Z).
    + destruct (bisect pow config 20 (PrimFloat.sub k 0.1%float) k) as [low high].
      match goal with
      | |- context [scanRoots pow config fuel _ ?sg (equilibria ++ [?e])] =>
          destruct (IH _ sg (equilibria ++ [e]) g Eg) as (rest & Hres & Hlen);
          exists (e :: rest)
      end.
      rewrite Hres, <- app_assoc. split; [reflexivity|]. cbn [length]. lia.
    + destruct (IH _ prevSign equilibria g Eg) as (rest & Hres & Hlen).
      exists rest. split; [exact Hres|]. cbn [length]. lia.
  - injection Hg as <-. exists []. rewrite app_nil_r. split; [reflexivity|]. cbn. lia.
Qed.

(** [findEquilibria] returns for every configuration.  Its scan visits
    499 values of [k]: the steps of 0.1 accumulate in binary64 to
    0.1, 0.2, 0.30000000000000004, ..., 49.90000000000044, and the next
    value is above 50; neither 10 nor 50 is among the values visited.  The
    list returned starts with the equilibrium at 0, labelled stable, and
    at most 499 roots follow. *)
Theorem findEquilibria_scan (pow : Q -> Q -> Q) (config : WealthConfig) :
  exists grid rest,
    gridFrom 500 0.1%float = Some grid /\
    length grid = 499%nat /\
    last grid 0%float = 49.90000000000044%float /\
    forallb (fun k => negb (PrimFloat.eqb k 10%float) && negb (PrimFloat.eqb k 50%float)) grid = true /\
    findEquilibria pow config =
      Some ({| Wealth.k := 0; Wealth.type := Wealth.Stable |} :: rest) /\
    (length rest <= 499)%nat.
Proof.
  destruct (gridFrom 500 0.1%float) as [grid|] eqn:Eg; [|vm_compute in Eg; discriminate Eg].
  assert (Hl : length grid = 499%nat).
  { assert (E : option_map (@length _) (gridFrom 500 0.1%float) = Some 499%nat)
      by (vm_compute; reflexivity).
    rewrite Eg in E. now injection E. }
  assert (Hlast : last grid 0%float = 49.90000000000044%float).
  { assert (E : option_map (fun g => last g 0%float) (gridFrom 500 0.1%float)
                = Some 49.90000000000044%float) by (vm_compute; reflexivity).
    rewrite Eg in E. now injection E. }
  assert (Hnot : forallb (fun k => negb (PrimFloat.eqb k 10%float) && negb (PrimFloat.eqb k 50%float))
                         grid = true).
  { assert (E : option_map (forallb (fun k => negb (PrimFloat.eqb k 10%float)
                                              && negb (PrimFloat.eqb k 50%float)))
                           (gridFrom 500 0.1%float) = Some true) by (vm_compute; reflexivity).
    rewrite Eg in E. now injection E. }
  destruct (scanRoots_grid pow config 500 0.1%float
              (Wealth.sign (netGrowth pow config (Binary64.toQ 0.01%float)))
              [ {| Wealth.k := 0; Wealth.type := Wealth.Stable |} ] grid Eg)
    as (rest & Hres & Hlen).
  exists grid, rest. split; [reflexivity|]. split; [exact Hl|]. split; [exact Hlast|].
  split; [exact Hnot|]. split; [exact Hres|]. lia.
Qed.

Lemma scanRoots_negative_grid (fuel : nat) :
  forall (k : PrimFloat.float) (equilibria : list Wealth.Equilibrium)
         (grid : list PrimFloat.float),
    gridFrom fuel k = Some grid ->
    forallb (fun x => Qltb 0 (Binary64.toQ x)) grid = true ->
    scanRoots integerPower (ofIntegerShape Wealth.defaultConfig) fuel k (-1) equilibria
    = Some equilibria.
Proof.
  induction fuel as [|fuel IH]; intros k equilibria grid Hg Hpos; [discriminate Hg|].
  cbn [gridFrom] in Hg. cbn [scanRoots].
  destruct (PrimFloat.leb k 50%float); [|reflexivity].
  destruct (gridFrom fuel (PrimFloat.add k 0.1%float)) as [g|] eqn:Eg; [|discriminate Hg].
  injection Hg as <-. cbn [forallb] in Hpos.
  apply andb_true_iff in Hpos as [Hk Hrest]. apply Qltb_true in Hk.
  rewrite (proj1 (integerShape_agrees Wealth.defaultConfig
                    (Binary64.toQ k))).
  rewrite (WealthFacts.sign_negative _
             (WealthFacts.netGrowth_default_negative (Binary64.toQ k) Hk)).
  cbn [Z.eqb Pos.eqb negb]. now apply (IH _ equilibria g).
Qed.

(** The default configuration on the binary64 grid: as on the exact grid,
    the net growth is negative at each of the 499 values visited, no sign
    change is met, and only the equilibrium at 0 is returned. *)
Theorem findEquilibria_default_binary64 :
  findEquilibria integerPower (ofIntegerShape Wealth.defaultConfig) =
  Some [ {| Wealth.k := 0; Wealth.type := Wealth.Stable |} ].
Proof.
  unfold findEquilibria.
  assert (H0 : 0 < Binary64.toQ 0.01%float) by reflexivity.
  rewrite (proj1 (integerShape_agrees Wealth.defaultConfig
                    (Binary64.toQ 0.01%float))).
  rewrite (WealthFacts.sign_negative _
             (WealthFacts.netGrowth_default_negative (Binary64.toQ 0.01%float) H0)).
  destruct (gridFrom 500 0.1%float) as [grid|] eqn:Eg; [|vm_compute in Eg; discriminate Eg].
  apply (scanRoots_negative_grid 500 0.1%float _ grid Eg).
  assert (E : option_map (forallb (fun x => Qltb 0 (Binary64.toQ x)))
                         (gridFrom 500 0.1%float) = Some true) by (vm_compute; reflexivity).
  rewrite Eg in E. now injection E.
Qed.

End WealthAnyShapeFacts.
